(** * Galenica Online: the interaction layer of [script.js]

    A shallow embedding of the page controllers of [src/script.js]
    ([MobileMenu], [ScrollToTop], [SmoothScrolling], [FAQ],
    [ScrollAnimations], [HeaderScroll], the [throttle] that [ScrollToTop] and
    [HeaderScroll] share, [Utils.debounce], [Utils.getOffsetTop] and the lazy
    loading of [Performance]) over a small model of the browser: a store of
    elements in document order, the window's scroll state, the focus, a
    timer queue and the logs of the calls that leave the page
    ([window.scrollTo], [history.pushState]).

    JavaScript exceptions are kept: every operation runs in the monad [Js],
    whose outcome is either a normal return or a raised error, both together
    with the world as it was left. *)

From Stdlib Require Import ZArith Ascii String.
From stdpp Require Import base option list gmap strings.

(** ** The browser model *)

(** Elements are referred to by their position in the document-order store;
    a nullable reference (the result of [querySelector],
    [nextElementSibling], ...) is an [option nat]. *)

Record Element := mkElement {
  tagName : string;
  attributes : gmap string string;
  classList : list string;          (* DOMTokenList: ordered, no duplicates *)
  parentElement : option nat;
  offsetParent : option nat;
  offsetTop : Z;
  offsetHeight : Z;
  scrollHeight : Z;
  maxHeight : option Z              (* style.maxHeight: [Some n] is "<n>px" *)
}.

Inductive JsError :=
| TypeError      (* property access on null *)
| SyntaxError    (* DOMException of an invalid selector *)
| UserError.     (* thrown by a callback handed to the script *)

(** The arrow functions given to [setTimeout] by the DOM controllers. *)
Inductive Callback :=
| RemoveTransientTabindex (target : nat)   (* SmoothScrolling.updateFocus *)
| RevealGridItem (item : nat).             (* ScrollAnimations.addStaggeredAnimation *)

Record Timer := mkTimer { due : nat; callback : Callback }.

Record ScrollToOptions := mkScroll { top : Z; behavior : string }.

(** Answer of the platform's selector engine on a selector string. *)
Inductive QueryAnswer :=
| QueryError
| QueryNull
| QueryElement (n : nat).

Record World := mkWorld {
  dom : list Element;
  bodyOverflow : string;                   (* document.body.style.overflow *)
  pageYOffset : Z;                         (* window.pageYOffset *)
  rootScrollTop : Z;                       (* document.documentElement.scrollTop *)
  innerWidth : Z;                          (* window.innerWidth *)
  clock : nat;                             (* milliseconds *)
  timers : list Timer;                     (* pending setTimeout callbacks *)
  scrollRequests : list ScrollToOptions;   (* calls of window.scrollTo *)
  activeElement : option nat;              (* document.activeElement *)
  historyEntries : list (option string);   (* urls given to history.pushState *)
  observed : list nat;                     (* targets of the IntersectionObserver *)
  defaultPrevented : bool;                 (* of the event being dispatched *)
  foreignQuery : string -> QueryAnswer     (* selectors beyond [#name] *)
}.

Definition set_dom (f : list Element -> list Element) (w : World) : World :=
  mkWorld (f (dom w)) (bodyOverflow w) (pageYOffset w) (rootScrollTop w)
    (innerWidth w) (clock w) (timers w) (scrollRequests w) (activeElement w)
    (historyEntries w) (observed w) (defaultPrevented w) (foreignQuery w).

Definition set_bodyOverflow (v : string) (w : World) : World :=
  mkWorld (dom w) v (pageYOffset w) (rootScrollTop w)
    (innerWidth w) (clock w) (timers w) (scrollRequests w) (activeElement w)
    (historyEntries w) (observed w) (defaultPrevented w) (foreignQuery w).

Definition set_timers (f : list Timer -> list Timer) (w : World) : World :=
  mkWorld (dom w) (bodyOverflow w) (pageYOffset w) (rootScrollTop w)
    (innerWidth w) (clock w) (f (timers w)) (scrollRequests w) (activeElement w)
    (historyEntries w) (observed w) (defaultPrevented w) (foreignQuery w).

Definition set_clock (t : nat) (w : World) : World :=
  mkWorld (dom w) (bodyOverflow w) (pageYOffset w) (rootScrollTop w)
    (innerWidth w) t (timers w) (scrollRequests w) (activeElement w)
    (historyEntries w) (observed w) (defaultPrevented w) (foreignQuery w).

Definition set_scrollRequests (f : list ScrollToOptions -> list ScrollToOptions)
    (w : World) : World :=
  mkWorld (dom w) (bodyOverflow w) (pageYOffset w) (rootScrollTop w)
    (innerWidth w) (clock w) (timers w) (f (scrollRequests w)) (activeElement w)
    (historyEntries w) (observed w) (defaultPrevented w) (foreignQuery w).

Definition set_activeElement (a : option nat) (w : World) : World :=
  mkWorld (dom w) (bodyOverflow w) (pageYOffset w) (rootScrollTop w)
    (innerWidth w) (clock w) (timers w) (scrollRequests w) a
    (historyEntries w) (observed w) (defaultPrevented w) (foreignQuery w).

Definition set_historyEntries (f : list (option string) -> list (option string))
    (w : World) : World :=
  mkWorld (dom w) (bodyOverflow w) (pageYOffset w) (rootScrollTop w)
    (innerWidth w) (clock w) (timers w) (scrollRequests w) (activeElement w)
    (f (historyEntries w)) (observed w) (defaultPrevented w) (foreignQuery w).

Definition set_observed (f : list nat -> list nat) (w : World) : World :=
  mkWorld (dom w) (bodyOverflow w) (pageYOffset w) (rootScrollTop w)
    (innerWidth w) (clock w) (timers w) (scrollRequests w) (activeElement w)
    (historyEntries w) (f (observed w)) (defaultPrevented w) (foreignQuery w).

Definition set_defaultPrevented (b : bool) (w : World) : World :=
  mkWorld (dom w) (bodyOverflow w) (pageYOffset w) (rootScrollTop w)
    (innerWidth w) (clock w) (timers w) (scrollRequests w) (activeElement w)
    (historyEntries w) (observed w) b (foreignQuery w).

(** ** The monad of scripts *)

Inductive Outcome (A : Type) :=
| Return (a : A) (w : World)
| Raise (e : JsError) (w : World).
Arguments Return {A} a w.
Arguments Raise {A} e w.

Definition Js (A : Type) : Type := World -> Outcome A.

#[global] Instance Js_ret : MRet Js := fun A a w => Return a w.
#[global] Instance Js_bind : MBind Js := fun A B f m w =>
  match m w with
  | Return a w' => f a w'
  | Raise e w' => Raise e w'
  end.

Definition throw {A} (e : JsError) : Js A := fun w => Raise e w.
Definition gets {A} (f : World -> A) : Js A := fun w => Return (f w) w.
Definition modify (f : World -> World) : Js unit := fun w => Return tt (f w).

(** The world an outcome leaves behind, raised or not. *)
Definition world_of {A} (o : Outcome A) : World :=
  match o with Return _ w => w | Raise _ w => w end.

(** [list.forEach(f)]: an exception of [f] ends the loop. *)
Fixpoint forEach {A} (f : A -> Js unit) (l : list A) : Js unit :=
  match l with
  | [] => mret tt
  | x :: l' => f x ;; forEach f l'
  end.

(** Property access through a nullable reference. *)
Definition deref (r : option nat) : Js nat :=
  match r with
  | Some n => mret n
  | None => throw TypeError
  end.

(** ** Element operations *)

Definition el_setAttribute (k v : string) (e : Element) : Element :=
  mkElement (tagName e) (<[k:=v]> (attributes e)) (classList e) (parentElement e)
    (offsetParent e) (offsetTop e) (offsetHeight e) (scrollHeight e) (maxHeight e).

Definition el_removeAttribute (k : string) (e : Element) : Element :=
  mkElement (tagName e) (delete k (attributes e)) (classList e) (parentElement e)
    (offsetParent e) (offsetTop e) (offsetHeight e) (scrollHeight e) (maxHeight e).

Definition el_setClassList (f : list string -> list string) (e : Element) : Element :=
  mkElement (tagName e) (attributes e) (f (classList e)) (parentElement e)
    (offsetParent e) (offsetTop e) (offsetHeight e) (scrollHeight e) (maxHeight e).

Definition el_setMaxHeight (v : option Z) (e : Element) : Element :=
  mkElement (tagName e) (attributes e) (classList e) (parentElement e)
    (offsetParent e) (offsetTop e) (offsetHeight e) (scrollHeight e) v.

Definition tokens_contains (c : string) (l : list string) : bool :=
  bool_decide (c ∈ l).
Definition tokens_add (c : string) (l : list string) : list string :=
  if tokens_contains c l then l else l ++ [c].
Definition tokens_remove (c : string) (l : list string) : list string :=
  filter (fun x => x ≠ c) l.
Definition tokens_toggle (c : string) (l : list string) : list string :=
  if tokens_contains c l then tokens_remove c l else tokens_add c l.

(** The element at position [n] is replaced by its image under [f]. *)
Definition upd (n : nat) (f : Element -> Element) (w : World) : World :=
  set_dom (alter f n) w.
Definition updateElement (n : nat) (f : Element -> Element) : Js unit :=
  modify (upd n f).

Definition setAttribute (n : nat) (k v : string) : Js unit :=
  updateElement n (el_setAttribute k v).
Definition removeAttribute (n : nat) (k : string) : Js unit :=
  updateElement n (el_removeAttribute k).
Definition classList_add (n : nat) (c : string) : Js unit :=
  updateElement n (el_setClassList (tokens_add c)).
Definition classList_remove (n : nat) (c : string) : Js unit :=
  updateElement n (el_setClassList (tokens_remove c)).
Definition classList_toggle (n : nat) (c : string) : Js unit :=
  updateElement n (el_setClassList (tokens_toggle c)).

Definition attrOf (w : World) (n : nat) (k : string) : option string :=
  e ← dom w !! n; attributes e !! k.
Definition hasClass (w : World) (n : nat) (c : string) : bool :=
  match dom w !! n with
  | Some e => tokens_contains c (classList e)
  | None => false
  end.

Definition getAttribute (n : nat) (k : string) : Js (option string) :=
  gets (fun w => attrOf w n k).
Definition hasAttribute (n : nat) (k : string) : Js bool :=
  gets (fun w => bool_decide (is_Some (attrOf w n k))).

(** ** Tree navigation *)

Definition parentOf (w : World) (n : nat) : option nat :=
  e ← dom w !! n; parentElement e.

(** [a.contains(x)]: [x] is [a] or a descendant of [a]; the walk up the
    parent chain is bounded by the size of the store. *)
Fixpoint containsFrom (fuel : nat) (w : World) (a x : nat) : bool :=
  if bool_decide (x = a) then true
  else match fuel with
       | O => false
       | S fuel' =>
           match parentOf w x with
           | Some p => containsFrom fuel' w a p
           | None => false
           end
       end.
Definition contains (w : World) (a x : nat) : bool :=
  containsFrom (length (dom w)) w a x.

(** Positions of the store, in document order. *)
Definition positions (w : World) : list nat := seq 0 (length (dom w)).

(** [q.nextElementSibling]: the first later element with the same parent. *)
Definition siblingOf (w : World) (q : nat) : option nat :=
  match parentOf w q with
  | Some p =>
      head (filter (fun j => q < j ∧ parentOf w j = Some p) (positions w))
  | None => None
  end.
Definition nextElementSibling (q : nat) : Js (option nat) :=
  gets (fun w => siblingOf w q).

(** ** Selectors *)

Inductive Simple :=
| ById (name : string)
| ByClass (name : string)
| ByTag (name : string).

(** A selector list: the comma-separated alternatives. *)
Definition Selector := list Simple.

Definition matchesSimple (e : Element) (s : Simple) : bool :=
  match s with
  | ById i => bool_decide (attributes e !! "id"%string = Some i)
  | ByClass c => tokens_contains c (classList e)
  | ByTag t => bool_decide (tagName e = t)
  end.

Definition matchesAt (w : World) (sel : Selector) (n : nat) : bool :=
  match dom w !! n with
  | Some e => existsb (matchesSimple e) sel
  | None => false
  end.

Definition selectAll (w : World) (sel : Selector) : list nat :=
  filter (fun n => matchesAt w sel n = true) (positions w).
Definition selectAllIn (w : World) (root : nat) (sel : Selector) : list nat :=
  filter (fun n => n ≠ root ∧ contains w root n = true) (selectAll w sel).

Definition querySelectorAll (sel : Selector) : Js (list nat) :=
  gets (fun w => selectAll w sel).
Definition querySelector (sel : Selector) : Js (option nat) :=
  gets (fun w => head (selectAll w sel)).
Definition querySelectorAllIn (root : nat) (sel : Selector) : Js (list nat) :=
  gets (fun w => selectAllIn w root sel).
Definition querySelectorIn (root : nat) (sel : Selector) : Js (option nat) :=
  gets (fun w => head (selectAllIn w root sel)).

(** [document.querySelector(s)] on a selector given as a string, as
    [handleAnchorClick] calls it with an [href].  The bare ["#"] is not a
    selector: the engine raises a [SyntaxError].  ["#name"], with [name] made
    of letters, digits, [_] and [-] and not starting with a digit or [-], is
    the ID selector.  Every other string is left to [foreignQuery]. *)
Definition isNameStart (c : ascii) : bool :=
  let n := nat_of_ascii c in
  (65 <=? n) && (n <=? 90) || (97 <=? n) && (n <=? 122) || (n =? 95).
Definition isNameChar (c : ascii) : bool :=
  let n := nat_of_ascii c in
  isNameStart c || (48 <=? n) && (n <=? 57) || (n =? 45).
Fixpoint allNameChars (s : string) : bool :=
  match s with
  | EmptyString => true
  | String c s' => isNameChar c && allNameChars s'
  end.
Definition isName (s : string) : bool :=
  match s with
  | EmptyString => false
  | String c s' => isNameStart c && allNameChars s'
  end.

Definition resolveSelector (w : World) (s : string) : QueryAnswer :=
  match s with
  | String "#" EmptyString => QueryError
  | String "#" name =>
      if isName name then
        match head (selectAll w [ById name]) with
        | Some n => QueryElement n
        | None => QueryNull
        end
      else foreignQuery w s
  | _ => foreignQuery w s
  end.

Definition querySelectorString (s : string) : Js (option nat) := fun w =>
  match resolveSelector w s with
  | QueryError => Raise SyntaxError w
  | QueryNull => Return None w
  | QueryElement n => Return (Some n) w
  end.

(** ** Timers and the other platform calls *)

Definition setTimeout (cb : Callback) (delay : nat) : Js unit :=
  modify (fun w => set_timers (fun l => l ++ [mkTimer (clock w + delay) cb]) w).

Definition preventDefault : Js unit := modify (set_defaultPrevented true).

Definition scrollTo (o : ScrollToOptions) : Js unit :=
  modify (set_scrollRequests (fun l => l ++ [o])).

Definition pushState (url : option string) : Js unit :=
  modify (set_historyEntries (fun l => l ++ [url])).

(** [element.focus()] moves the focus only to an element that can take it,
    and does nothing on any other.  An element can take the focus when its
    [tabindex] attribute parses as an integer, or when it is a link with an
    [href] or a form control that is not disabled.  The model has no
    rendering: every element counts as rendered.

    HTML's rule for parsing an integer, as far as validity goes: leading
    ASCII whitespace is skipped, a sign may follow, then at least one digit
    is needed; what comes after the digits is ignored. *)
Definition isAsciiWhitespace (c : ascii) : bool :=
  let n := nat_of_ascii c in
  (n =? 9) || (n =? 10) || (n =? 12) || (n =? 13) || (n =? 32).
Definition isAsciiDigit (c : ascii) : bool :=
  let n := nat_of_ascii c in (48 <=? n) && (n <=? 57).
Fixpoint skipAsciiWhitespace (s : string) : string :=
  match s with
  | String c s' => if isAsciiWhitespace c then skipAsciiWhitespace s' else s
  | EmptyString => EmptyString
  end.
Definition startsWithDigit (s : string) : bool :=
  match s with
  | String d _ => isAsciiDigit d
  | EmptyString => false
  end.
Definition parsesInteger (s : string) : bool :=
  match skipAsciiWhitespace s with
  | String c rest =>
      if bool_decide (c = "-"%char) || bool_decide (c = "+"%char)
      then startsWithDigit rest
      else isAsciiDigit c
  | EmptyString => false
  end.

Definition focusableElement (e : Element) : bool :=
  let tag := tagName e in
  let has k := bool_decide (is_Some (attributes e !! k)) in
  match attributes e !! "tabindex"%string with
  | Some v => parsesInteger v
  | None => false
  end
  || (bool_decide (tag = "a"%string) || bool_decide (tag = "area"%string))
     && has "href"%string
  || (bool_decide (tag = "button"%string) || bool_decide (tag = "select"%string)
      || bool_decide (tag = "textarea"%string))
     && negb (has "disabled"%string)
  || bool_decide (tag = "input"%string)
     && negb (has "disabled"%string)
     && negb (bool_decide (attributes e !! "type"%string = Some "hidden"%string)).

Definition focusable (w : World) (n : nat) : bool :=
  match dom w !! n with
  | Some e => focusableElement e
  | None => false
  end.

Definition focus (n : nat) : Js unit :=
  modify (fun w => if focusable w n then set_activeElement (Some n) w else w).

Definition offsetTopOf (w : World) (n : nat) : Z :=
  default 0%Z (offsetTop <$> dom w !! n).
Definition offsetHeightOf (w : World) (n : nat) : Z :=
  default 0%Z (offsetHeight <$> dom w !! n).
Definition offsetParentOf (w : World) (n : nat) : option nat :=
  e ← dom w !! n; offsetParent e.

(** What [String(b)] gives for a boolean. *)
Definition stringOfBool (b : bool) : string := if b then "true" else "false".

(** ** MobileMenu *)

Module MobileMenu.

Record t := mk {
  mobileMenuButton : option nat;
  mobileMenu : option nat;
  mobileMenuLinks : list nat
}.

Definition toggleMenu (this : t) : Js unit :=
  btn ← deref (mobileMenuButton this);
  attr ← getAttribute btn "aria-expanded";
  let isExpanded := bool_decide (attr = Some "true"%string) in
  setAttribute btn "aria-expanded" (stringOfBool (negb isExpanded)) ;;
  menu ← deref (mobileMenu this);
  classList_toggle menu "active" ;;
  icon ← querySelectorIn btn [ByTag "i"];
  match icon with
  | Some i => classList_toggle i "fa-bars" ;; classList_toggle i "fa-times"
  | None => mret tt
  end ;;
  modify (set_bodyOverflow (if negb isExpanded then "hidden" else "")).

Definition closeMenu (this : t) : Js unit :=
  btn ← deref (mobileMenuButton this);
  setAttribute btn "aria-expanded" "false" ;;
  menu ← deref (mobileMenu this);
  classList_remove menu "active" ;;
  icon ← querySelectorIn btn [ByTag "i"];
  match icon with
  | Some i => classList_add i "fa-bars" ;; classList_remove i "fa-times"
  | None => mret tt
  end ;;
  modify (set_bodyOverflow "").

(** The object after [init]: its three element references. *)
Definition init : Js t :=
  btn ← querySelector [ByClass "mobile-menu-btn"];
  menu ← querySelector [ById "mobile-menu"];
  links ← querySelectorAll [ByClass "mobile-menu__link"];
  mret (mk btn menu links).

(** [init] calls [bindEvents] only when both elements were found. *)
Definition bound (this : t) : bool :=
  bool_decide (is_Some (mobileMenuButton this))
  && bool_decide (is_Some (mobileMenu this)).

(** The listeners registered by [bindEvents]. *)
Definition onButtonClick (this : t) : Js unit :=
  preventDefault ;; toggleMenu this.

Definition onLinkClick (this : t) : Js unit := closeMenu this.

Definition onDocumentClick (this : t) (target : nat) : Js unit :=
  btn ← deref (mobileMenuButton this);
  inButton ← gets (fun w => contains w btn target);
  if (inButton : bool) then mret tt
  else
    menu ← deref (mobileMenu this);
    inMenu ← gets (fun w => contains w menu target);
    if (inMenu : bool) then mret tt else closeMenu this.

Definition onDocumentKeydown (this : t) (key : string) : Js unit :=
  if bool_decide (key = "Escape"%string) then closeMenu this else mret tt.

Definition onWindowResize (this : t) : Js unit :=
  width ← gets innerWidth;
  if (768 <=? width)%Z then closeMenu this else mret tt.

(** A click on the trigger: its own listener, then the document's, which
    the event reaches by bubbling.  Both exist only on a page that has the
    trigger and the container, where the first one returns. *)
Definition clickTrigger (this : t) (target : nat) : Js unit :=
  onButtonClick this ;; onDocumentClick this target.

End MobileMenu.

(** ** Throttle (the same text in [ScrollToTop] and in [HeaderScroll]) *)

Module Throttle.
Section Wrapper.
Context {St : Type}.

(** What one run of the throttled function does, as far as its wrapper can
    tell.  The function works on a state of its own.  It ends by returning
    or by throwing; before that it may call the wrapper again, any number of
    times: [Reenters s k] leaves the state at [s], calls the wrapper, and goes
    on as [k threw s'], where [threw] tells whether the nested call threw and
    [s'] is the state it left. *)
Inductive Body :=
| Returns (s : St)
| Throws (s : St)
| Reenters (s : St) (k : bool -> St -> Body).

(** The function throws in the end, whatever its nested calls do. *)
Inductive throwing : Body -> Prop :=
| throwing_now s : throwing (Throws s)
| throwing_after s k : (∀ threw s', throwing (k threw s')) -> throwing (Reenters s k).

Variable func : St -> Body.
Variable limit : nat.
(** The frames of [func] the call stack has room for: entering [func] with
    none left throws (a [RangeError]).  A call from the event loop finds
    room for one frame at least: [0 < stack]. *)
Variable stack : nat.

(** The closure of one wrapper: its [inThrottle] flag, the due times of
    the pending reset timers, and the times at which [func] was entered. *)
Record t := mk {
  inThrottle : bool;
  resets : list nat;
  now : nat;
  user : St;
  invocations : list nat
}.

Definition start (t0 : nat) (s : St) : t := mk false [] t0 s [].

(** [func] is entered. *)
Definition entered (c : t) : t :=
  mk (inThrottle c) (resets c) (now c) (user c) (invocations c ++ [now c]).
Definition withUser (s : St) (c : t) : t :=
  mk (inThrottle c) (resets c) (now c) s (invocations c).
(** [inThrottle = true; setTimeout(() => inThrottle = false, limit)] *)
Definition cooled (c : t) : t :=
  mk true (resets c ++ [now c + limit]) (now c) (user c) (invocations c).

(** The body of [func] runs; [call] is the wrapper as the body finds it.
    The result is the closure afterwards and whether the body threw. *)
Fixpoint runBody (call : t -> t * bool) (b : Body) (c : t) : t * bool :=
  match b with
  | Returns s => (withUser s c, false)
  | Throws s => (withUser s c, true)
  | Reenters s k =>
      let (c', threw) := call (withUser s c) in
      runBody call (k threw (user c')) c'
  end.

(** [throttle(func, limit)]: the wrapper it returns, as one call acting on
    the closure, with [depth] frames left.  The flag is read before
    [func.apply] and written after it: a nested call finds it unset, and when
    [func] throws, the two statements after [func.apply] are not reached. *)
Fixpoint throttleAt (depth : nat) (c : t) : t * bool :=
  if inThrottle c then (c, false)
  else
    match depth with
    | 0 => (c, true)
    | S depth' =>
        match runBody (throttleAt depth') (func (user c)) (entered c) with
        | (c', false) => (cooled c', false)
        | (c', true) => (c', true)
        end
    end.

Definition throttle (c : t) : t * bool := throttleAt stack c.

Inductive Event :=
| Call                 (* the wrapper is called, from the event loop *)
| Wait (ms : nat)      (* time passes *)
| Fire.                (* the oldest pending reset timer runs *)

(** A timer runs no earlier than its due time; [None] marks a schedule
    that no browser produces.  An exception that escapes the wrapper is
    reported and the page goes on. *)
Definition step (ev : Event) (c : t) : option t :=
  match ev with
  | Call => Some (fst (throttle c))
  | Wait ms =>
      Some (mk (inThrottle c) (resets c) (now c + ms) (user c) (invocations c))
  | Fire =>
      match resets c with
      | d :: rest =>
          if d <=? now c then
            Some (mk false rest (now c) (user c) (invocations c))
          else None
      | [] => None
      end
  end.

Fixpoint run (evs : list Event) (c : t) : option t :=
  match evs with
  | [] => Some c
  | ev :: evs' => c' ← step ev c; run evs' c'
  end.

(** Consecutive entries of [func] are at least [limit] apart. *)
Fixpoint spaced (l : list nat) : Prop :=
  match l with
  | a :: (b :: _) as l' => a + limit <= b ∧ spaced l'
  | _ => True
  end.

Definition elapsed (evs : list Event) : nat :=
  foldr (fun ev acc => match ev with Wait ms => ms + acc | _ => acc end) 0 evs.
Definition calls (evs : list Event) : nat :=
  foldr (fun ev acc => match ev with Call => 1 + acc | _ => acc end) 0 evs.

(** What holds at every moment of a wrapper whose function returns without
    calling the wrapper: the entries of [func] are spaced, and the flag is
    set exactly while the one reset timer of the last entry is pending. *)
Definition cooling (c : t) : Prop :=
  spaced (invocations c)
  ∧ match last (invocations c) with
    | None => inThrottle c = false ∧ resets c = []
    | Some t0 =>
        if inThrottle c
        then resets c = [t0 + limit] ∧ t0 <= now c
        else resets c = [] ∧ t0 + limit <= now c
    end.

(** What holds at every moment of any wrapper: while the flag is set a reset
    timer is pending, and every pending timer is due within [limit]. *)
Definition recovering (c : t) : Prop :=
  (inThrottle c = true -> resets c ≠ [])
  ∧ Forall (fun d => d <= now c + limit) (resets c).
End Wrapper.
Arguments Body St : clear implicits.
End Throttle.

(** ** Utils *)

Module Utils.
(** [getOffsetTop]: the element's offset from the top of the document, the
    sum of [offsetTop] along the [offsetParent] chain.  The loop ends when
    the chain does; [fuel] bounds it by the size of the store. *)
Fixpoint getOffsetTopFrom (fuel : nat) (w : World) (element : option nat) : Z :=
  match fuel, element with
  | S fuel', Some n =>
      (offsetTopOf w n + getOffsetTopFrom fuel' w (offsetParentOf w n))%Z
  | _, _ => 0%Z
  end.
Definition getOffsetTop (w : World) (element : nat) : Z :=
  getOffsetTopFrom (length (dom w)) w (Some element).
End Utils.

(** ** SmoothScrolling *)

Module SmoothScrolling.

Definition updateFocus (target : nat) : Js unit :=
  hasTabindex ← hasAttribute target "tabindex";
  (if (hasTabindex : bool) then mret tt else setAttribute target "tabindex" "-1") ;;
  focus target ;;
  setTimeout (RemoveTransientTabindex target) 1000.

(** The arrow function [updateFocus] hands to [setTimeout]. *)
Definition removeTransientTabindex (target : nat) : Js unit :=
  attr ← getAttribute target "tabindex";
  if bool_decide (attr = Some "-1"%string)
  then removeAttribute target "tabindex"
  else mret tt.

(** [document.querySelector('.header')?.offsetHeight || 0] *)
Definition headerHeightOf (w : World) : Z :=
  match head (selectAll w [ByClass "header"]) with
  | Some h => offsetHeightOf w h
  | None => 0%Z
  end.

(** [querySelector] turns its argument into a string: a missing [href]
    ([null]) reads as the selector ["null"]. *)
Definition selectorText (href : option string) : string :=
  default "null"%string href.

Definition handleAnchorClick (menu : MobileMenu.t) (anchor : nat) : Js unit :=
  preventDefault ;;
  targetId ← getAttribute anchor "href";
  target ← querySelectorString (selectorText targetId);
  match target with
  | Some tgt =>
      MobileMenu.closeMenu menu ;;
      headerHeight ← gets headerHeightOf;
      position ← gets (fun w => offsetTopOf w tgt);
      let targetPosition := (position - headerHeight - 20)%Z in
      scrollTo (mkScroll targetPosition "smooth") ;;
      updateFocus tgt ;;
      if bool_decide (targetId = Some "#"%string) then mret tt
      else pushState targetId
  | None => mret tt
  end.

End SmoothScrolling.

(** ** FAQ *)

Module FAQ.

Record t := mk { faqQuestions : list nat }.

Definition init : Js t :=
  qs ← querySelectorAll [ByClass "faq-item__question"];
  mret (mk qs).

(** [element] is dereferenced for [scrollHeight] or for [style]. *)
Definition animateHeight (element : option nat) (expand : bool) : Js unit :=
  el ← deref element;
  if expand then
    updateElement el (fun e => el_setMaxHeight (Some (scrollHeight e)) e)
  else
    updateElement el (el_setMaxHeight (Some 0%Z)).

Definition closeOne (question : nat) : Js unit :=
  answer ← nextElementSibling question;
  setAttribute question "aria-expanded" "false" ;;
  classList_remove question "active" ;;
  (a ← deref answer; classList_remove a "active") ;;
  animateHeight answer false.

Definition closeAllFAQs (this : t) : Js unit :=
  forEach closeOne (faqQuestions this).

Definition toggleFAQ (this : t) (question : nat) : Js unit :=
  answer ← nextElementSibling question;
  attr ← getAttribute question "aria-expanded";
  let isExpanded := bool_decide (attr = Some "true"%string) in
  closeAllFAQs this ;;
  if negb isExpanded then
    setAttribute question "aria-expanded" "true" ;;
    classList_add question "active" ;;
    (a ← deref answer; classList_add a "active") ;;
    animateHeight answer true
  else mret tt.

(** The two listeners [bindEvents] puts on every question. *)
Inductive Event :=
| Click (question : nat)
| Keydown (question : nat) (key : string).

Definition listener (this : t) (ev : Event) : Js unit :=
  match ev with
  | Click question => preventDefault ;; toggleFAQ this question
  | Keydown question key =>
      if bool_decide (key = "Enter"%string) || bool_decide (key = " "%string)
      then preventDefault ;; toggleFAQ this question
      else mret tt
  end.

(** Events are served one after the other; an exception escaping a
    listener is reported by the browser and the page goes on. *)
Fixpoint serve (this : t) (evs : list Event) (w : World) : World :=
  match evs with
  | [] => w
  | ev :: evs' => serve this evs' (world_of (listener this ev w))
  end.

(** A pair is expanded: [aria-expanded="true"] on the question and the
    [active] class on the question and on its answer. *)
Definition expanded (w : World) (question : nat) : bool :=
  bool_decide (attrOf w question "aria-expanded" = Some "true"%string)
  && hasClass w question "active"
  && match siblingOf w question with
     | Some a => hasClass w a "active"
     | None => false
     end.



(** The markup the controller expects: every question is followed by a
    sibling, its answer. *)
Definition paired (this : t) (w : World) : Prop :=
  ∀ q, q ∈ faqQuestions this → is_Some (siblingOf w q).

End FAQ.

(** ** ScrollAnimations *)

Module ScrollAnimations.

Record Entry := mkEntry { target : nat; isIntersecting : bool }.

Definition sectionSelector : Selector := [ByClass "section"].
Definition cardSelector : Selector :=
  [ByClass "card"; ByClass "patology-card"; ByClass "benefit-card";
   ByClass "testimonial-card"; ByClass "doctor-card"; ByClass "news-card"].
Definition gridItemSelector : Selector :=
  [ByClass "patology-card"; ByClass "benefit-card";
   ByClass "testimonial-card"; ByClass "doctor-card"; ByClass "news-card"].

(** [observer.observe(el)]: observing an observed target changes nothing. *)
Definition observe (n : nat) : Js unit :=
  modify (set_observed (fun l => if bool_decide (n ∈ l) then l else l ++ [n])).
Definition unobserve (n : nat) : Js unit :=
  modify (set_observed (filter (fun x => x ≠ n))).

Definition observeElements : Js unit :=
  sections ← querySelectorAll sectionSelector;
  forEach observe sections ;;
  cards ← querySelectorAll cardSelector;
  forEach observe cards.

(** [gridItems.forEach((item, index) => setTimeout(..., index * 100))] *)
Fixpoint stagger (index : nat) (items : list nat) : Js unit :=
  match items with
  | [] => mret tt
  | item :: rest =>
      setTimeout (RevealGridItem item) (index * 100) ;; stagger (S index) rest
  end.

Definition addStaggeredAnimation (target : nat) : Js unit :=
  gridItems ← querySelectorAllIn target gridItemSelector;
  stagger 0 gridItems.

Definition handleEntry (entry : Entry) : Js unit :=
  if isIntersecting entry then
    classList_add (target entry) "animate-fade-in" ;;
    addStaggeredAnimation (target entry) ;;
    unobserve (target entry)
  else mret tt.

Definition handleIntersection (entries : list Entry) : Js unit :=
  forEach handleEntry entries.

(** The arrow function [addStaggeredAnimation] hands to [setTimeout]. *)
Definition revealGridItem (item : nat) : Js unit :=
  classList_add item "animate-fade-in".

Definition revealed (w : World) (n : nat) : bool :=
  hasClass w n "animate-fade-in".

End ScrollAnimations.

(** ** HeaderScroll *)

Module HeaderScroll.

Record t := mk {
  header : option nat;
  lastScrollTop : Z;
  scrollThreshold : Z
}.

Definition init : Js t :=
  h ← querySelector [ByClass "header"];
  mret (mk h 0 100).

(** [window.pageYOffset || document.documentElement.scrollTop] *)
Definition currentScrollTop (w : World) : Z :=
  if (pageYOffset w =? 0)%Z then rootScrollTop w else pageYOffset w.

Definition handleScroll (this : t) : Js t :=
  scrollTop ← gets currentScrollTop;
  h ← deref (header this);
  (if (10 <? scrollTop)%Z
   then classList_add h "scrolled"
   else classList_remove h "scrolled") ;;
  mret (mk (header this) scrollTop (scrollThreshold this)).

End HeaderScroll.

(** ** The timer queue and the page's events *)

Definition runCallback (cb : Callback) : Js unit :=
  match cb with
  | RemoveTransientTabindex target => SmoothScrolling.removeTransientTabindex target
  | RevealGridItem item => ScrollAnimations.revealGridItem item
  end.

(** The [i]-th pending timer runs, if it is due; otherwise nothing happens. *)
Definition fireTimer (i : nat) : Js unit := fun w =>
  match timers w !! i with
  | Some tm =>
      if due tm <=? clock w
      then runCallback (callback tm) (set_timers (delete i) w)
      else Return tt w
  | None => Return tt w
  end.

Definition advance (ms : nat) : Js unit :=
  modify (fun w => set_clock (clock w + ms) w).

(** ** Notions used in the statements and in the proofs *)

(** What no controller ever writes: the tag, the place in the tree and the
    layout of an element. *)
Definition skeleton (e : Element)
    : string * option nat * option nat * Z * Z * Z :=
  (tagName e, parentElement e, offsetParent e, offsetTop e, offsetHeight e,
   scrollHeight e).

(** Two worlds with the same elements up to attributes, classes and styles. *)
Definition similar (w w' : World) : Prop :=
  skeleton <$> dom w = skeleton <$> dom w'.

Class KeepsSkeleton (f : Element -> Element) : Prop :=
  keeps_skeleton : ∀ e, skeleton (f e) = skeleton e.

(** [this.mobileMenuButton.querySelector('i')] *)
Definition iconOf (w : World) (btn : nat) : option nat :=
  head (selectAllIn w btn [ByTag "i"]).

(** The world [closeMenu] leaves when the trigger and the container exist. *)
Definition closedWorld (btn menu : nat) (w : World) : World :=
  let w1 := upd menu (el_setClassList (tokens_remove "active"))
              (upd btn (el_setAttribute "aria-expanded" "false") w) in
  let w2 := match iconOf w1 btn with
            | Some i => upd i (el_setClassList (tokens_remove "fa-times"))
                          (upd i (el_setClassList (tokens_add "fa-bars")) w1)
            | None => w1
            end in
  set_bodyOverflow "" w2.

(** The same on the store alone, the icon being known. *)
Definition closedDom (icon : option nat) (btn menu : nat) (d : list Element)
    : list Element :=
  let d1 := alter (el_setClassList (tokens_remove "active")) menu
              (alter (el_setAttribute "aria-expanded" "false") btn d) in
  match icon with
  | Some i => alter (el_setClassList (tokens_remove "fa-times")) i
                (alter (el_setClassList (tokens_add "fa-bars")) i d1)
  | None => d1
  end.

(** The closed menu: [aria-expanded="false"] on the trigger, no [active]
    class on the container, [fa-bars] and not [fa-times] on the icon if there
    is one, and no scroll lock on the body. *)
Definition closedConfiguration (this : MobileMenu.t) (w : World) : Prop :=
  ∃ btn menu,
    MobileMenu.mobileMenuButton this = Some btn
    ∧ MobileMenu.mobileMenu this = Some menu
    ∧ attrOf w btn "aria-expanded" = Some "false"%string
    ∧ hasClass w menu "active" = false
    ∧ (∀ i, iconOf w btn = Some i ->
         hasClass w i "fa-bars" = true ∧ hasClass w i "fa-times" = false)
    ∧ bodyOverflow w = ""%string.

(** [n] calls in a row. *)
Fixpoint repeatedly (n : nat) (m : Js unit) : Js unit :=
  match n with
  | O => mret tt
  | S n' => m ;; repeatedly n' m
  end.

(** The world [toggleMenu] leaves when the trigger and the container exist. *)
Definition toggledWorld (btn menu : nat) (w : World) : World :=
  let isExpanded := bool_decide (attrOf w btn "aria-expanded" = Some "true"%string) in
  let w1 := upd menu (el_setClassList (tokens_toggle "active"))
              (upd btn (el_setAttribute "aria-expanded"
                          (stringOfBool (negb isExpanded))) w) in
  let w2 := match iconOf w1 btn with
            | Some i => upd i (el_setClassList (tokens_toggle "fa-times"))
                          (upd i (el_setClassList (tokens_toggle "fa-bars")) w1)
            | None => w1
            end in
  set_bodyOverflow (if negb isExpanded then "hidden" else "") w2.

(** The four mirrors of the menu state: the ARIA attribute of the trigger,
    the [active] class of the container, the two glyph classes of the icon
    (when the trigger has one) and the scroll lock of the body. *)
Definition mirrors (w : World) (btn menu : nat)
    : option string * bool * option (bool * bool) * string :=
  (attrOf w btn "aria-expanded",
   hasClass w menu "active",
   (fun i => (hasClass w i "fa-bars", hasClass w i "fa-times")) <$> iconOf w btn,
   bodyOverflow w).

(** The world one round of [closeAllFAQs] leaves, on question [q] with
    answer [a]; and the world the opening branch of [toggleFAQ] leaves. *)
Definition collapsedWorld (q a : nat) (w : World) : World :=
  upd a (el_setMaxHeight (Some 0%Z))
    (upd a (el_setClassList (tokens_remove "active"))
       (upd q (el_setClassList (tokens_remove "active"))
          (upd q (el_setAttribute "aria-expanded" "false") w))).

Definition expandedWorld (q a : nat) (w : World) : World :=
  upd a (fun e => el_setMaxHeight (Some (scrollHeight e)) e)
    (upd a (el_setClassList (tokens_add "active"))
       (upd q (el_setClassList (tokens_add "active"))
          (upd q (el_setAttribute "aria-expanded" "true") w))).

(** The question an event is dispatched to. *)
Definition questionOf (ev : FAQ.Event) : nat :=
  match ev with FAQ.Click q => q | FAQ.Keydown q _ => q end.


(** The world [updateFocus] leaves. *)
Definition focusedWorld (tgt : nat) (w : World) : World :=
  let w1 := if bool_decide (is_Some (attrOf w tgt "tabindex")) then w
            else upd tgt (el_setAttribute "tabindex" "-1") w in
  set_timers (fun l => l ++ [mkTimer (clock w1 + 1000) (RemoveTransientTabindex tgt)])
    (if focusable w1 tgt then set_activeElement (Some tgt) w1 else w1).

(** The scroll destination computed by [handleAnchorClick]. *)
Definition scrollTarget (w : World) (tgt : nat) : ScrollToOptions :=
  mkScroll (offsetTopOf w tgt - SmoothScrolling.headerHeightOf w - 20) "smooth".

(** What happens to the page as far as reveals are concerned. *)
Inductive PageEvent :=
| Intersection (entries : list ScrollAnimations.Entry)  (* the observer calls back *)
| TimerRuns (i : nat)                                   (* a pending timer is served *)
| TimePasses (ms : nat).

Definition react (ev : PageEvent) : Js unit :=
  match ev with
  | Intersection entries => ScrollAnimations.handleIntersection entries
  | TimerRuns i => fireTimer i
  | TimePasses ms => advance ms
  end.

(** The worlds a sequence of events goes through, the first one included. *)
Fixpoint worlds (evs : list PageEvent) (w : World) : list World :=
  w :: match evs with
       | [] => []
       | ev :: evs' => worlds evs' (world_of (react ev w))
       end.

(** How often a sequence of readings goes from [false] to [true]. *)
Fixpoint rises (l : list bool) : nat :=
  match l with
  | a :: (b :: _) as l' => (if negb a && b then 1 else 0) + rises l'
  | _ => 0
  end.

(** Every element revealed in [w] is revealed in [w']. *)
Definition keepsRevealed (w w' : World) : Prop :=
  ∀ n, ScrollAnimations.revealed w n = true -> ScrollAnimations.revealed w' n = true.

(** The timers [addStaggeredAnimation] sets for [items], counting from
    [index], at time [start]. *)
Definition staggered (start : nat) (index : nat) (items : list nat) : list Timer :=
  imap (fun i item => mkTimer (start + (index + i) * 100) (RevealGridItem item)) items.

(** Readings that, once [true], stay [true]. *)
Fixpoint settles (l : list bool) : Prop :=
  match l with
  | a :: (b :: _) as l' => (a = true -> b = true) ∧ settles l'
  | _ => True
  end.

(** Sample pages: an element and an untouched window around a store. *)
Definition el (tag : string) (attrs : list (string * string)) (classes : list string)
    (parent offsetp : option nat) (otop oheight : Z) : Element :=
  mkElement tag (list_to_map attrs) classes parent offsetp otop oheight 120 None.

Definition blank (elements : list Element) : World :=
  mkWorld elements "" 0 0 1024 0 [] [] None [] [] false (fun _ => QueryNull).

(** The user scrolls the window to [y]. *)
Definition scrolledTo (y : Z) (w : World) : World :=
  mkWorld (dom w) (bodyOverflow w) y y
    (innerWidth w) (clock w) (timers w) (scrollRequests w) (activeElement w)
    (historyEntries w) (observed w) (defaultPrevented w) (foreignQuery w).

(** A page with everything the controllers look for. *)
Definition page : World :=
  blank
    [ el "html" [] [] None None 0 3000;
      el "header" [] ["header"%string] (Some 0) None 0 80;
      el "button" [("aria-expanded", "false")] ["mobile-menu-btn"%string]
         (Some 1) None 0 40;
      el "i" [] ["fas"; "fa-bars"]%string (Some 2) None 0 20;
      el "nav" [("id", "mobile-menu")] [] (Some 1) None 80 200;
      el "a" [("href", "#section2")] ["mobile-menu__link"%string] (Some 4) None 80 20;
      el "a" [("href", "#")] [] (Some 1) None 0 20;
      el "section" [("id", "section2")] ["section"%string] (Some 0) None 1000 400;
      el "div" [] ["benefit-card"%string] (Some 7) None 1010 100;
      el "div" [] ["benefit-card"%string] (Some 7) None 1120 100;
      el "main" [("id", "faq")] ["section"%string] (Some 0) None 900 2000;
      el "div" [("id", "details"); ("tabindex", "-1")] [] (Some 10) (Some 10) 100 600;
      el "button" [("aria-expanded", "false")] ["faq-item__question"%string]
         (Some 11) (Some 10) 110 30;
      el "div" [] ["faq-item__answer"%string] (Some 11) (Some 10) 140 0;
      el "button" [("aria-expanded", "false")] ["faq-item__question"%string]
         (Some 11) (Some 10) 140 30;
      el "div" [] ["faq-item__answer"%string] (Some 11) (Some 10) 170 0;
      el "button" [("aria-expanded", "false")] ["faq-item__question"%string]
         (Some 11) (Some 10) 170 30;
      el "div" [] ["faq-item__answer"%string] (Some 11) (Some 10) 200 0;
      el "a" [("href", "#details")] [] (Some 0) None 2900 20;
      el "a" [("href", "#missing")] [] (Some 0) None 2920 20 ].

Definition pageMenu : MobileMenu.t := MobileMenu.mk (Some 2) (Some 4) [5].
Definition pageFAQ : FAQ.t := FAQ.mk [12; 14; 16].
Definition pageHeader : HeaderScroll.t := HeaderScroll.mk (Some 1) 0 100.

(** A page without the mobile menu, whose only FAQ question is the last
    child of its parent. *)
Definition pageWithoutMenu : World :=
  blank
    [ el "html" [] [] None None 0 3000;
      el "a" [("href", "#section2")] [] (Some 0) None 0 20;
      el "section" [("id", "section2")] ["section"%string] (Some 0) None 1000 400;
      el "div" [] [] (Some 0) None 1400 200;
      el "button" [("aria-expanded", "false")] ["faq-item__question"%string]
         (Some 3) None 1400 30 ].

(** A page with the trigger of the mobile menu but without its container. *)
Definition pageWithoutContainer : World :=
  blank
    [ el "html" [] [] None None 0 3000;
      el "button" [("aria-expanded", "true")] ["mobile-menu-btn"%string]
         (Some 0) None 0 40;
      el "a" [("href", "#section2")] [] (Some 0) None 40 20;
      el "section" [("id", "section2")] ["section"%string] (Some 0) None 1000 400 ].

(** ** ScrollToTop *)

Module ScrollToTop.

Record t := mk { scrollTopBtn : option nat }.

Definition init : Js t :=
  btn ← querySelector [ById "scrollTop"];
  mret (mk btn).

Definition toggleVisibility (this : t) : Js unit :=
  y ← gets pageYOffset;
  btn ← deref (scrollTopBtn this);
  if (300 <? y)%Z then
    classList_add btn "visible" ;; setAttribute btn "aria-hidden" "false"
  else
    classList_remove btn "visible" ;; setAttribute btn "aria-hidden" "true".

Definition scrollToTop (this : t) : Js unit :=
  scrollTo (mkScroll 0 "smooth") ;;
  skipLink ← querySelector [ByClass "skip-link"];
  match skipLink with
  | Some s => focus s
  | None => mret tt
  end.

(** The click listener of the button. *)
Definition onClick (this : t) : Js unit :=
  preventDefault ;; scrollToTop this.

End ScrollToTop.

(** ** Utils.debounce *)

Module Debounce.
Section Wrapper.
Context {St A : Type}.
(** The debounced function, on a state of its own and the arguments of the
    call: [inl] is a normal return, [inr] a throw. *)
Variable func : St -> A -> St + St.
Variable wait : nat.
Variable immediate : bool.

(** The closure of one wrapper.  [timeout] is the pending timer: its due
    time and the arguments its [later] has captured; it is [None] before the
    first call and after [later] has run.  [invocations] logs the entries of
    [func]: when, and with which arguments. *)
Record t := mk {
  timeout : option (nat * A);
  now : nat;
  user : St;
  invocations : list (nat * A)
}.

Definition start (t0 : nat) (s : St) : t := mk None t0 s [].

Definition enter (a : A) (c : t) : t :=
  mk (timeout c) (now c)
     (match func (user c) a with inl s' => s' | inr s' => s' end)
     (invocations c ++ [(now c, a)]).

(** One call of the wrapper [debounce(func, wait, immediate)] returns:
    [callNow] is read, the pending timer is cleared and a new one set, and
    only then is [func] entered. *)
Definition debounce (a : A) (c : t) : t :=
  let callNow := immediate && negb (bool_decide (is_Some (timeout c))) in
  let c1 := mk (Some (now c + wait, a)) (now c) (user c) (invocations c) in
  if callNow then enter a c1 else c1.

(** [later]: the timer's callback. *)
Definition later (a : A) (c : t) : t :=
  let c1 := mk None (now c) (user c) (invocations c) in
  if immediate then c1 else enter a c1.

Inductive Event :=
| Call (a : A)         (* the wrapper is called *)
| Wait (ms : nat)      (* time passes *)
| Fire.                (* the pending timer runs *)

(** A timer runs no earlier than its due time. *)
Definition step (ev : Event) (c : t) : option t :=
  match ev with
  | Call a => Some (debounce a c)
  | Wait ms => Some (mk (timeout c) (now c + ms) (user c) (invocations c))
  | Fire =>
      match timeout c with
      | Some (d, a) => if d <=? now c then Some (later a c) else None
      | None => None
      end
  end.

Fixpoint run (evs : list Event) (c : t) : option t :=
  match evs with
  | [] => Some c
  | ev :: evs' => c' ← step ev c; run evs' c'
  end.



(** Consecutive entries of [func] are at least [wait] apart. *)
Fixpoint spaced (l : list nat) : Prop :=
  match l with
  | a :: (b :: _) as l' => a + wait <= b ∧ spaced l'
  | _ => True
  end.

(** What holds of a wrapper in immediate mode at every moment. *)
Definition settled (c : t) : Prop :=
  spaced (fst <$> invocations c)
  ∧ match last (fst <$> invocations c) with
    | None => True
    | Some t0 =>
        t0 <= now c
        ∧ match timeout c with
          | Some (d, _) => t0 + wait <= d
          | None => t0 + wait <= now c
          end
    end.

End Wrapper.
End Debounce.

(** ** Performance: lazy loading *)

Module Performance.

(** [document.querySelectorAll('img[data-src]')] *)
Definition isLazyImage (w : World) (n : nat) : bool :=
  match dom w !! n with
  | Some e => bool_decide (tagName e = "img"%string)
              && bool_decide (is_Some (attributes e !! "data-src"%string))
  | None => false
  end.
Definition lazyImages (w : World) : list nat :=
  filter (fun n => isLazyImage w n = true) (positions w).

(** The body of the observer's callback for one entry; [watched] are the
    targets of [imageObserver].  [img.dataset.src] is tested for truth: a
    missing and an empty [data-src] both fail the test. *)
Definition loadEntry (watched : list nat) (entry : ScrollAnimations.Entry)
    : Js (list nat) :=
  if ScrollAnimations.isIntersecting entry then
    let img := ScrollAnimations.target entry in
    src ← getAttribute img "data-src";
    match src with
    | Some s =>
        if bool_decide (s = ""%string) then mret watched
        else
          setAttribute img "src" s ;;
          classList_remove img "lazy" ;;
          mret (filter (fun x => x ≠ img) watched)
    | None => mret watched
    end
  else mret watched.

Fixpoint loadEntries (watched : list nat) (entries : list ScrollAnimations.Entry)
    : Js (list nat) :=
  match entries with
  | [] => mret watched
  | entry :: rest => watched' ← loadEntry watched entry; loadEntries watched' rest
  end.

(** [setupLazyLoading]: the targets the observer starts with; none when the
    window has no [IntersectionObserver]. *)
Definition setupLazyLoading (supported : bool) : Js (list nat) :=
  if supported then gets lazyImages else mret [].

End Performance.

(** ** Notions used in the further statements *)

(** [style.maxHeight] of an element, in pixels. *)
Definition heightOf (w : World) (n : nat) : option Z :=
  e ← dom w !! n; maxHeight e.

Definition scrollHeightOf (w : World) (n : nat) : Z :=
  default 0%Z (scrollHeight <$> dom w !! n).

(** In document order an [offsetParent], being an ancestor, comes first. *)
Definition ancestorsFirst (w : World) : Prop :=
  Forall (fun n => match offsetParentOf w n with
                   | Some p => p < n
                   | None => True
                   end) (positions w).

(** [w'] has no expanded state that [w] has not: the tree is the same, no
    [aria-expanded="true"] and no [active] class has appeared. *)
Definition shrinks (w w' : World) : Prop :=
  similar w w'
  ∧ (∀ m, attrOf w' m "aria-expanded" = Some "true"%string ->
          attrOf w m "aria-expanded" = Some "true"%string)
  ∧ (∀ m, hasClass w' m "active" = true -> hasClass w m "active" = true).

(** A page with a scroll-to-top button, a skip link and lazy images. *)
Definition pageTop : World :=
  blank
    [ el "html" [] [] None None 0 3000;
      el "a" [("href", "#main")] ["skip-link"%string] (Some 0) None 0 20;
      el "main" [("id", "main")] [] (Some 0) None 20 2900;
      el "img" [("data-src", "hero.jpg")] ["lazy"%string] (Some 2) None 20 300;
      el "img" [("data-src", "")] ["lazy"%string] (Some 2) None 320 300;
      el "img" [("src", "logo.png")] [] (Some 2) None 620 40;
      el "button" [("id", "scrollTop"); ("aria-hidden", "true")] []
         (Some 0) None 2900 40 ].

Definition pageTopButton : ScrollToTop.t := ScrollToTop.mk (Some 6).

(** Sample functions for the throttle, on a counter.  [counting] counts its
    runs and returns; [failing] counts and throws; [nesting] calls the
    wrapper again from its first two runs, and returns; [nestingFailing]
    calls the wrapper again from its first run, and throws. *)
Definition counting (n : nat) : Throttle.Body nat := Throttle.Returns (S n).
Definition failing (n : nat) : Throttle.Body nat := Throttle.Throws (S n).
Definition nesting (n : nat) : Throttle.Body nat :=
  if n <? 2 then Throttle.Reenters (S n) (fun _ s' => Throttle.Returns s')
  else Throttle.Returns n.
Definition nestingFailing (n : nat) : Throttle.Body nat :=
  if n <? 1 then Throttle.Reenters (S n) (fun _ s' => Throttle.Throws s')
  else Throttle.Throws n.

(** What [toggleVisibility] makes of the button. *)
Definition shownButton (visible : bool) (e : Element) : Element :=
  el_setAttribute "aria-hidden" (if visible then "false" else "true")
    (el_setClassList (if visible then tokens_add "visible"
                      else tokens_remove "visible") e).

(** The world a resolved click leaves, the mobile menu being there. *)
Definition clickedWorld (btn mn tgt : nat) (href : string) (w : World) : World :=
  set_historyEntries (fun l => l ++ [Some href])
    (focusedWorld tgt
       (set_scrollRequests (fun l => l ++ [scrollTarget w tgt])
          (closedWorld btn mn (set_defaultPrevented true w)))).

(** What the lazy-loading callback makes of an image. *)
Definition loadedImage (s : string) (e : Element) : Element :=
  el_setClassList (tokens_remove "lazy") (el_setAttribute "src" s e).

(** ** The accordion, mirror by mirror *)

(** The pair of [question] is collapsed in each of its mirrors:
    [aria-expanded="false"], and no [active] class on the question or on its
    answer. *)
Definition collapsed (w : World) (question : nat) : bool :=
  bool_decide (attrOf w question "aria-expanded" = Some "false"%string)
  && negb (hasClass w question "active")
  && match siblingOf w question with
     | Some a => negb (hasClass w a "active")
     | None => true
     end.

(** The markup the controller expects, second part: no answer is itself a
    question. *)
Definition answersApart (this : FAQ.t) (w : World) : Prop :=
  ∀ q a, q ∈ FAQ.faqQuestions this -> siblingOf w q = Some a ->
         a ∉ FAQ.faqQuestions this.

(** The accordion shows [open] and nothing else: that pair is expanded and
    every other pair is collapsed, mirror by mirror. *)
Definition accordionShows (this : FAQ.t) (w : World) (open : option nat) : Prop :=
  ∀ q, q ∈ FAQ.faqQuestions this ->
    if bool_decide (open = Some q) then FAQ.expanded w q = true
    else collapsed w q = true.

(** The three mirrors, one by one. *)
Definition ariaOpen (w : World) (q : nat) : bool :=
  bool_decide (attrOf w q "aria-expanded" = Some "true"%string).
Definition questionActive (w : World) (q : nat) : bool := hasClass w q "active".
Definition answerActive (w : World) (q : nat) : bool :=
  match siblingOf w q with
  | Some a => hasClass w a "active"
  | None => false
  end.

Definition atMostOne (mark : nat -> bool) (l : list nat) : Prop :=
  ∀ q1 q2, q1 ∈ l -> q2 ∈ l -> mark q1 = true -> mark q2 = true -> q1 = q2.

(** A page whose first question has lost its answer, and whose second pair
    is expanded in the markup. *)
Definition pageBrokenFAQ : World :=
  blank
    [ el "html" [] [] None None 0 3000;
      el "div" [] ["faq-item"%string] (Some 0) None 0 40;
      el "button" [("aria-expanded", "false")] ["faq-item__question"%string]
         (Some 1) None 0 40;
      el "div" [] ["faq-item"%string] (Some 0) None 40 160;
      el "button" [("aria-expanded", "true")] ["faq-item__question"; "active"]%string
         (Some 3) None 40 40;
      el "div" [] ["faq-item__answer"; "active"]%string (Some 3) None 80 120 ].

Definition brokenFAQ : FAQ.t := FAQ.mk [2; 4].

(** * Properties *)

(** ** Running scripts *)

Lemma bind_Return {A B} (m : Js A) (k : A -> Js B) w a w' :
  m w = Return a w' -> (m ≫= k) w = k a w'.
Proof. intros H. unfold mbind, Js_bind. now rewrite H. Qed.

Lemma bind_Raise {A B} (m : Js A) (k : A -> Js B) w e w' :
  m w = Raise e w' -> (m ≫= k) w = Raise e w'.
Proof. intros H. unfold mbind, Js_bind. now rewrite H. Qed.

Ltac js_unfold :=
  cbv beta iota zeta delta
    [mbind Js_bind mret Js_ret gets modify throw deref
     setAttribute removeAttribute classList_add classList_remove
     classList_toggle updateElement getAttribute hasAttribute
     nextElementSibling querySelector querySelectorAll querySelectorIn
     querySelectorAllIn preventDefault scrollTo pushState focus
     setTimeout].

(** ** Token lists *)

Lemma tokens_contains_add c l : tokens_contains c (tokens_add c l) = true.
Proof.
  unfold tokens_add, tokens_contains.
  destruct (bool_decide (c ∈ l)) eqn:E; [exact E|].
  apply bool_decide_eq_true. apply elem_of_app. right. apply list_elem_of_singleton.
  reflexivity.
Qed.

Lemma tokens_contains_remove c l : tokens_contains c (tokens_remove c l) = false.
Proof.
  unfold tokens_remove, tokens_contains.
  apply bool_decide_eq_false. intros H.
  apply list_elem_of_filter in H. destruct H as [H _]. now apply H.
Qed.

Lemma tokens_contains_add_ne c d l :
  c ≠ d -> tokens_contains c (tokens_add d l) = tokens_contains c l.
Proof.
  intros Hne. unfold tokens_add, tokens_contains.
  destruct (bool_decide (d ∈ l)); [reflexivity|].
  apply bool_decide_ext. rewrite elem_of_app, list_elem_of_singleton. tauto.
Qed.

Lemma tokens_contains_remove_ne c d l :
  c ≠ d -> tokens_contains c (tokens_remove d l) = tokens_contains c l.
Proof.
  intros Hne. unfold tokens_remove, tokens_contains.
  apply bool_decide_ext. rewrite list_elem_of_filter. tauto.
Qed.

(** ** Reading the store after an update *)

Lemma hasClass_alter_eq w n f c :
  hasClass (upd n f w) n c
  = match dom w !! n with
    | Some e => tokens_contains c (classList (f e))
    | None => false
    end.
Proof.
  unfold hasClass. simpl. rewrite list_lookup_alter_eq.
  now destruct (dom w !! n).
Qed.

Lemma hasClass_alter_ne w n m f c :
  n ≠ m -> hasClass (upd n f w) m c = hasClass w m c.
Proof.
  intros Hne. unfold hasClass. simpl. now rewrite list_lookup_alter_ne.
Qed.

(** ** HeaderScroll: the threshold *)

(** C8. After [HeaderScroll.handleScroll] has run, the header bears the
    class [scrolled] exactly when the vertical scroll offset of the window is
    strictly greater than 10, whatever the header's classes and the recorded
    [lastScrollTop] were before.  The offset is [window.pageYOffset]; only
    when that reads 0 does [document.documentElement.scrollTop] count.  In a
    browser the latter is the same offset, or 0: then the class is present
    for every [pageYOffset] above 10 and absent for every one up to 10. *)
Theorem handleScroll_scrolled_iff (this : HeaderScroll.t) (w : World) (h : nat) :
  HeaderScroll.header this = Some h ->
  is_Some (dom w !! h) ->
  ∃ this' w',
    HeaderScroll.handleScroll this w = Return this' w'
    ∧ (hasClass w' h "scrolled" = true
       ↔ (10 < pageYOffset w ∨ (pageYOffset w = 0 ∧ 10 < rootScrollTop w))%Z)
    ∧ (rootScrollTop w = pageYOffset w ∨ rootScrollTop w = 0%Z ->
       (hasClass w' h "scrolled" = true ↔ (10 < pageYOffset w)%Z)
       ∧ ((pageYOffset w <= 10)%Z -> hasClass w' h "scrolled" = false)
       ∧ ((10 < pageYOffset w)%Z -> hasClass w' h "scrolled" = true)).
Proof.
  intros Hh [e He].
  unfold HeaderScroll.handleScroll. rewrite Hh. js_unfold. simpl.
  unfold HeaderScroll.currentScrollTop.
  destruct (pageYOffset w =? 0)%Z eqn:E0;
    [apply Z.eqb_eq in E0|apply Z.eqb_neq in E0];
    match goal with |- context [(10 <? ?x)%Z] => destruct (10 <? x)%Z eqn:E end;
    [apply Z.ltb_lt in E|apply Z.ltb_ge in E|apply Z.ltb_lt in E|apply Z.ltb_ge in E];
    simpl; eexists _, _; (split; [reflexivity|]);
    rewrite hasClass_alter_eq, He; simpl;
    rewrite ?tokens_contains_add, ?tokens_contains_remove;
    (split; [split; [intros; lia|intros; try reflexivity; lia]|]);
    intros Hb; (split; [split; [intros; lia|intros; try reflexivity; lia]|]);
    split; intros; try reflexivity; lia.
Qed.

(** ** What the controllers never change: tags, the tree and the layout *)

#[global] Instance keeps_setAttribute k v : KeepsSkeleton (el_setAttribute k v).
Proof. now intros e. Qed.
#[global] Instance keeps_removeAttribute k : KeepsSkeleton (el_removeAttribute k).
Proof. now intros e. Qed.
#[global] Instance keeps_setClassList f : KeepsSkeleton (el_setClassList f).
Proof. now intros e. Qed.
#[global] Instance keeps_setMaxHeight v : KeepsSkeleton (el_setMaxHeight v).
Proof. now intros e. Qed.
#[global] Instance keeps_growHeight :
  KeepsSkeleton (fun e => el_setMaxHeight (Some (scrollHeight e)) e).
Proof. now intros e. Qed.

Lemma similar_refl w : similar w w.
Proof. reflexivity. Qed.

Lemma similar_trans w1 w2 w3 : similar w1 w2 -> similar w2 w3 -> similar w1 w3.
Proof. unfold similar. congruence. Qed.

Lemma similar_upd f `{!KeepsSkeleton f} n w : similar w (upd n f w).
Proof.
  unfold similar. simpl. apply list_eq. intros i.
  rewrite !list_lookup_fmap, list_lookup_alter.
  destruct (decide (n = i)) as [->|]; [|reflexivity].
  destruct (dom w !! i); simpl; [|reflexivity].
  now rewrite keeps_skeleton.
Qed.

Lemma similar_lookup w w' n :
  similar w w' -> skeleton <$> dom w !! n = skeleton <$> dom w' !! n.
Proof. intros H. rewrite <- !list_lookup_fmap. now rewrite H. Qed.

Lemma similar_length w w' : similar w w' -> length (dom w) = length (dom w').
Proof.
  intros H. rewrite <- (length_fmap skeleton (dom w)), H. apply length_fmap.
Qed.

Lemma similar_positions w w' : similar w w' -> positions w = positions w'.
Proof. intros H. unfold positions. now rewrite (similar_length _ _ H). Qed.

Lemma similar_parentOf w w' n : similar w w' -> parentOf w n = parentOf w' n.
Proof.
  intros H. unfold parentOf. pose proof (similar_lookup _ _ n H) as E.
  destruct (dom w !! n), (dom w' !! n); unfold skeleton in *; simpl in *;
    congruence.
Qed.

Lemma similar_containsFrom fuel w w' a x :
  similar w w' -> containsFrom fuel w a x = containsFrom fuel w' a x.
Proof.
  intros H. revert x. induction fuel as [|fuel IH]; intros x; simpl; [reflexivity|].
  rewrite (similar_parentOf _ _ x H).
  destruct (bool_decide (x = a)); [reflexivity|].
  destruct (parentOf w' x); [apply IH|reflexivity].
Qed.

Lemma similar_contains w w' a x : similar w w' -> contains w a x = contains w' a x.
Proof.
  intros H. unfold contains. rewrite (similar_length _ _ H).
  now apply similar_containsFrom.
Qed.

Lemma similar_siblingOf w w' q : similar w w' -> siblingOf w q = siblingOf w' q.
Proof.
  intros H. unfold siblingOf.
  rewrite (similar_parentOf _ _ q H), (similar_positions _ _ H).
  destruct (parentOf w' q) as [p|]; [|reflexivity].
  f_equal. apply list_filter_iff. intros j.
  now rewrite (similar_parentOf _ _ j H).
Qed.

Lemma similar_selectAllIn_tag w w' root t :
  similar w w' -> selectAllIn w root [ByTag t] = selectAllIn w' root [ByTag t].
Proof.
  intros H. unfold selectAllIn, selectAll.
  rewrite (similar_positions _ _ H).
  assert (E : ∀ n, matchesAt w [ByTag t] n = matchesAt w' [ByTag t] n).
  { intros n. unfold matchesAt. pose proof (similar_lookup _ _ n H) as E.
    destruct (dom w !! n) as [e|], (dom w' !! n) as [e'|]; simpl in *;
      try congruence.
    unfold skeleton in E. injection E as E1 _ _ _ _ _. now rewrite E1. }
  rewrite (list_filter_iff (fun n => matchesAt w [ByTag t] n = true)
             (fun n => matchesAt w' [ByTag t] n = true)).
  - apply list_filter_iff. intros n. now rewrite (similar_contains _ _ root n H).
  - intros n. now rewrite E.
Qed.

Lemma upd_exists w n f m : is_Some (dom (upd n f w) !! m) ↔ is_Some (dom w !! m).
Proof.
  unfold upd. simpl. rewrite !lookup_lt_is_Some, length_alter. reflexivity.
Qed.

Lemma attrOf_upd_class w n f m k :
  attrOf (upd n (el_setClassList f) w) m k = attrOf w m k.
Proof.
  unfold attrOf, upd. simpl. rewrite list_lookup_alter.
  destruct (decide (n = m)) as [->|]; [|reflexivity].
  now destruct (dom w !! m).
Qed.

Lemma attrOf_upd_set_eq w n k v :
  is_Some (dom w !! n) -> attrOf (upd n (el_setAttribute k v) w) n k = Some v.
Proof.
  intros [e He]. unfold attrOf, upd. simpl.
  rewrite list_lookup_alter_eq, He. simpl. apply lookup_insert_eq.
Qed.

Lemma attrOf_upd_set_ne w n k v m k' :
  n ≠ m ∨ k ≠ k' ->
  attrOf (upd n (el_setAttribute k v) w) m k' = attrOf w m k'.
Proof.
  intros Hne. unfold attrOf, upd. simpl. rewrite list_lookup_alter.
  destruct (decide (n = m)) as [->|]; [|reflexivity].
  destruct (dom w !! m); simpl; [|reflexivity].
  apply lookup_insert_ne. destruct Hne; congruence.
Qed.

Lemma hasClass_upd_attr w n k v m c :
  hasClass (upd n (el_setAttribute k v) w) m c = hasClass w m c.
Proof.
  unfold hasClass, upd. simpl. rewrite list_lookup_alter.
  destruct (decide (n = m)) as [->|]; [|reflexivity].
  now destruct (dom w !! m).
Qed.

Lemma hasClass_upd_add_eq w n c :
  is_Some (dom w !! n) -> hasClass (upd n (el_setClassList (tokens_add c)) w) n c = true.
Proof.
  intros [e He]. rewrite hasClass_alter_eq, He. simpl. apply tokens_contains_add.
Qed.

Lemma hasClass_upd_remove_eq w n c :
  hasClass (upd n (el_setClassList (tokens_remove c)) w) n c = false.
Proof.
  rewrite hasClass_alter_eq. destruct (dom w !! n); [|reflexivity].
  simpl. apply tokens_contains_remove.
Qed.

Lemma tokens_contains_toggle c l :
  tokens_contains c (tokens_toggle c l) = negb (tokens_contains c l).
Proof.
  unfold tokens_toggle. destruct (tokens_contains c l) eqn:E; simpl.
  - apply tokens_contains_remove.
  - apply tokens_contains_add.
Qed.

Lemma tokens_contains_toggle_ne c d l :
  c ≠ d -> tokens_contains c (tokens_toggle d l) = tokens_contains c l.
Proof.
  intros Hne. unfold tokens_toggle. destruct (tokens_contains d l).
  - now apply tokens_contains_remove_ne.
  - now apply tokens_contains_add_ne.
Qed.

Lemma hasClass_upd_toggle_eq w n c :
  is_Some (dom w !! n) ->
  hasClass (upd n (el_setClassList (tokens_toggle c)) w) n c = negb (hasClass w n c).
Proof.
  intros [e He]. rewrite hasClass_alter_eq. unfold hasClass. rewrite He. simpl.
  apply tokens_contains_toggle.
Qed.

(** A change of one token at one element leaves every other reading alone. *)
Lemma hasClass_upd_other w n (f : list string -> list string) m c :
  (n = m -> ∀ l, tokens_contains c (f l) = tokens_contains c l) ->
  hasClass (upd n (el_setClassList f) w) m c = hasClass w m c.
Proof.
  intros Hf. destruct (decide (n = m)) as [->|Hne].
  - rewrite hasClass_alter_eq. unfold hasClass.
    destruct (dom w !! m); [|reflexivity]. simpl. now apply Hf.
  - now apply hasClass_alter_ne.
Qed.

Lemma hasClass_upd_add_ne w n d m c :
  n ≠ m ∨ c ≠ d ->
  hasClass (upd n (el_setClassList (tokens_add d)) w) m c = hasClass w m c.
Proof.
  intros H. apply hasClass_upd_other. intros -> l.
  apply tokens_contains_add_ne. destruct H; congruence.
Qed.

Lemma hasClass_upd_remove_ne w n d m c :
  n ≠ m ∨ c ≠ d ->
  hasClass (upd n (el_setClassList (tokens_remove d)) w) m c = hasClass w m c.
Proof.
  intros H. apply hasClass_upd_other. intros -> l.
  apply tokens_contains_remove_ne. destruct H; congruence.
Qed.

Lemma hasClass_upd_toggle_ne w n d m c :
  n ≠ m ∨ c ≠ d ->
  hasClass (upd n (el_setClassList (tokens_toggle d)) w) m c = hasClass w m c.
Proof.
  intros H. apply hasClass_upd_other. intros -> l.
  apply tokens_contains_toggle_ne. destruct H; congruence.
Qed.

Lemma tokens_contains_add_mono c d l :
  tokens_contains c l = true -> tokens_contains c (tokens_add d l) = true.
Proof.
  unfold tokens_add, tokens_contains. intros H.
  destruct (bool_decide (d ∈ l)); [exact H|].
  apply bool_decide_eq_true in H. apply bool_decide_eq_true.
  apply elem_of_app. now left.
Qed.

Lemma hasClass_upd_add_mono w n d m c :
  hasClass w m c = true -> hasClass (upd n (el_setClassList (tokens_add d)) w) m c = true.
Proof.
  intros H. destruct (decide (n = m)) as [->|Hne].
  - rewrite hasClass_alter_eq. unfold hasClass in H.
    destruct (dom w !! m); [|discriminate]. simpl.
    now apply tokens_contains_add_mono.
  - now rewrite hasClass_alter_ne.
Qed.

(** ** The icon of the menu trigger *)

Lemma similar_iconOf w w' btn : similar w w' -> iconOf w btn = iconOf w' btn.
Proof. intros H. unfold iconOf. now rewrite (similar_selectAllIn_tag _ _ _ _ H). Qed.

Lemma selectAll_exists w sel n : n ∈ selectAll w sel -> is_Some (dom w !! n).
Proof.
  unfold selectAll. rewrite list_elem_of_filter. intros [H _].
  unfold matchesAt in H. destruct (dom w !! n); [eauto|discriminate].
Qed.

Lemma iconOf_exists w btn i : iconOf w btn = Some i -> is_Some (dom w !! i).
Proof.
  unfold iconOf. intros H. apply head_Some_elem_of in H.
  unfold selectAllIn in H. apply list_elem_of_filter in H. destruct H as [_ H].
  now apply selectAll_exists in H.
Qed.

(** ** Token lists: idempotence and commutation *)

Lemma tokens_remove_remove c l :
  tokens_remove c (tokens_remove c l) = tokens_remove c l.
Proof. unfold tokens_remove. rewrite list_filter_filter. apply list_filter_iff. tauto. Qed.

Lemma tokens_remove_comm c d l :
  tokens_remove c (tokens_remove d l) = tokens_remove d (tokens_remove c l).
Proof.
  unfold tokens_remove. rewrite !list_filter_filter. apply list_filter_iff. tauto.
Qed.

Lemma tokens_add_add c l : tokens_add c (tokens_add c l) = tokens_add c l.
Proof.
  unfold tokens_add at 1. now rewrite tokens_contains_add.
Qed.

Lemma tokens_remove_add c d l :
  c ≠ d -> tokens_remove d (tokens_add c l) = tokens_add c (tokens_remove d l).
Proof.
  intros Hne. unfold tokens_add.
  rewrite (tokens_contains_remove_ne c d l Hne).
  destruct (tokens_contains c l); [reflexivity|].
  unfold tokens_remove. rewrite filter_app. f_equal.
  rewrite filter_cons_True by congruence. reflexivity.
Qed.

(** ** MobileMenu: closing and toggling *)

Lemma closeMenu_runs btn menu links w :
  MobileMenu.closeMenu (MobileMenu.mk (Some btn) (Some menu) links) w
  = Return tt (closedWorld btn menu w).
Proof.
  unfold MobileMenu.closeMenu, closedWorld, iconOf. js_unfold. simpl.
  destruct (head (selectAllIn _ btn _)); reflexivity.
Qed.

Lemma closedWorld_similar btn menu w : similar w (closedWorld btn menu w).
Proof.
  unfold closedWorld.
  set (w1 := upd menu _ _).
  assert (H1 : similar w w1).
  { eapply similar_trans; apply similar_upd; apply _. }
  destruct (iconOf w1 btn); [|exact H1].
  eapply similar_trans; [exact H1|].
  eapply (similar_trans _ (upd n _ w1)); apply similar_upd; apply _.
Qed.

Lemma closedWorld_unfold btn menu w :
  closedWorld btn menu w
  = set_bodyOverflow "" (set_dom (closedDom (iconOf w btn) btn menu) w).
Proof.
  unfold closedWorld.
  set (w1 := upd menu _ _).
  assert (H1 : similar w w1).
  { eapply similar_trans; apply similar_upd; apply _. }
  rewrite <- (similar_iconOf _ _ btn H1).
  unfold closedDom. destruct (iconOf w btn); reflexivity.
Qed.

Lemma element_ext (e e' : Element) :
  tagName e = tagName e' -> attributes e = attributes e' ->
  classList e = classList e' -> parentElement e = parentElement e' ->
  offsetParent e = offsetParent e' -> offsetTop e = offsetTop e' ->
  offsetHeight e = offsetHeight e' -> scrollHeight e = scrollHeight e' ->
  maxHeight e = maxHeight e' -> e = e'.
Proof. destruct e, e'. simpl. congruence. Qed.

Lemma closedDom_idem icon btn menu d :
  closedDom icon btn menu (closedDom icon btn menu d) = closedDom icon btn menu d.
Proof.
  apply list_eq. intros j. unfold closedDom.
  destruct icon as [i|]; rewrite !list_lookup_alter;
    repeat case_decide; subst; try congruence;
    destruct (d !! j) as [e|]; simpl; try reflexivity;
    f_equal; apply element_ext; simpl; try reflexivity;
    rewrite ?insert_insert_eq; try reflexivity;
    repeat first
      [ rewrite (tokens_remove_add "fa-bars" "fa-times") by done
      | rewrite (tokens_remove_add "fa-bars" "active") by done
      | rewrite tokens_add_add
      | rewrite tokens_remove_remove
      | rewrite (tokens_remove_comm "active" "fa-times") ];
    reflexivity.
Qed.

Lemma closedWorld_idem btn menu w :
  closedWorld btn menu (closedWorld btn menu w) = closedWorld btn menu w.
Proof.
  rewrite (closedWorld_unfold btn menu (closedWorld btn menu w)).
  rewrite <- (similar_iconOf _ _ btn (closedWorld_similar btn menu w)).
  rewrite closedWorld_unfold. unfold set_bodyOverflow, set_dom. simpl.
  now rewrite closedDom_idem.
Qed.

Lemma attrOf_bodyOverflow v w n k : attrOf (set_bodyOverflow v w) n k = attrOf w n k.
Proof. reflexivity. Qed.

Lemma hasClass_bodyOverflow v w n c : hasClass (set_bodyOverflow v w) n c = hasClass w n c.
Proof. reflexivity. Qed.

Lemma closedWorld_closed btn menu links w :
  is_Some (dom w !! btn) ->
  closedConfiguration (MobileMenu.mk (Some btn) (Some menu) links)
    (closedWorld btn menu w).
Proof.
  intros Hb. exists btn, menu. split; [reflexivity|]. split; [reflexivity|].
  pose proof (closedWorld_similar btn menu w) as Hsim.
  rewrite <- (similar_iconOf _ _ btn Hsim).
  unfold closedWorld.
  set (w0 := upd btn _ w).
  set (w1 := upd menu _ w0).
  assert (H1 : similar w w1).
  { eapply similar_trans; apply similar_upd; apply _. }
  rewrite <- (similar_iconOf _ _ btn H1).
  assert (Ha : attrOf w1 btn "aria-expanded" = Some "false"%string).
  { unfold w1. rewrite attrOf_upd_class. now apply attrOf_upd_set_eq. }
  assert (Hm : hasClass w1 menu "active" = false).
  { unfold w1. apply hasClass_upd_remove_eq. }
  destruct (iconOf w btn) as [i|] eqn:Hi.
  - rewrite attrOf_bodyOverflow, hasClass_bodyOverflow, !attrOf_upd_class.
    rewrite hasClass_upd_remove_ne, hasClass_upd_add_ne by (right; done).
    repeat split; try assumption.
    + injection H as <-. rewrite hasClass_bodyOverflow.
      rewrite hasClass_upd_remove_ne by (right; done).
      apply hasClass_upd_add_eq. unfold w1, w0. rewrite !upd_exists.
      now apply iconOf_exists in Hi.
    + injection H as <-. rewrite hasClass_bodyOverflow.
      apply hasClass_upd_remove_eq.
  - rewrite attrOf_bodyOverflow, hasClass_bodyOverflow.
    repeat split; try assumption; discriminate.
Qed.

(** C10. [MobileMenu.closeMenu] is idempotent.  On a page that has the
    trigger and the container, it returns normally and leaves the closed
    configuration ([aria-expanded="false"], no [active] class on the
    container, [fa-bars] without [fa-times] on the icon, body overflow
    restored); running it again on that world, once or any number of times,
    gives that very world back, and so do the Escape key and a click outside
    the trigger and the menu. *)
Theorem closeMenu_idempotent (this : MobileMenu.t) (w : World) (btn menu : nat) :
  MobileMenu.mobileMenuButton this = Some btn ->
  MobileMenu.mobileMenu this = Some menu ->
  is_Some (dom w !! btn) ->
  ∃ w',
    MobileMenu.closeMenu this w = Return tt w'
    ∧ closedConfiguration this w'
    ∧ MobileMenu.closeMenu this w' = Return tt w'
    ∧ (∀ n, repeatedly (S n) (MobileMenu.closeMenu this) w = Return tt w')
    ∧ MobileMenu.onDocumentKeydown this "Escape" w = Return tt w'
    ∧ MobileMenu.onDocumentKeydown this "Escape" w' = Return tt w'
    ∧ (∀ target, contains w' btn target = false ->
         contains w' menu target = false ->
         MobileMenu.onDocumentClick this target w' = Return tt w').
Proof.
  destruct this as [b m links]. simpl. intros -> -> Hb.
  exists (closedWorld btn menu w).
  assert (Hidem : MobileMenu.closeMenu (MobileMenu.mk (Some btn) (Some menu) links)
                    (closedWorld btn menu w)
                  = Return tt (closedWorld btn menu w)).
  { now rewrite closeMenu_runs, closedWorld_idem. }
  split; [apply closeMenu_runs|].
  split; [now apply closedWorld_closed|].
  split; [exact Hidem|].
  split.
  - intros n. induction n as [|n IH].
    + simpl. rewrite (bind_Return _ _ _ _ _ (closeMenu_runs btn menu links w)).
      reflexivity.
    + change (repeatedly (S (S n)) ?m) with (m ;; repeatedly (S n) m).
      rewrite (bind_Return _ _ _ _ _ (closeMenu_runs btn menu links w)).
      clear IH. induction n as [|n IH].
      * simpl. now rewrite (bind_Return _ _ _ _ _ Hidem).
      * change (repeatedly (S (S n)) ?m) with (m ;; repeatedly (S n) m).
        now rewrite (bind_Return _ _ _ _ _ Hidem).
  - split; [unfold MobileMenu.onDocumentKeydown; simpl; apply closeMenu_runs|].
    split.
    + unfold MobileMenu.onDocumentKeydown. simpl. exact Hidem.
    + intros target Hout1 Hout2. unfold MobileMenu.onDocumentClick. js_unfold.
      simpl. rewrite Hout1, Hout2. exact Hidem.
Qed.

Lemma toggleMenu_runs btn menu links w :
  MobileMenu.toggleMenu (MobileMenu.mk (Some btn) (Some menu) links) w
  = Return tt (toggledWorld btn menu w).
Proof.
  unfold MobileMenu.toggleMenu, toggledWorld, iconOf. js_unfold. simpl.
  destruct (head (selectAllIn _ btn _)); reflexivity.
Qed.

Lemma toggledWorld_similar btn menu w : similar w (toggledWorld btn menu w).
Proof.
  unfold toggledWorld.
  set (w1 := upd menu _ _).
  assert (H1 : similar w w1).
  { eapply similar_trans; apply similar_upd; apply _. }
  destruct (iconOf w1 btn); [|exact H1].
  eapply similar_trans; [exact H1|].
  eapply (similar_trans _ (upd n _ w1)); apply similar_upd; apply _.
Qed.

Lemma similar_exists w w' n : similar w w' -> is_Some (dom w !! n) -> is_Some (dom w' !! n).
Proof.
  intros H. rewrite !lookup_lt_is_Some. now rewrite (similar_length _ _ H).
Qed.

Lemma toggledWorld_mirrors btn menu w :
  is_Some (dom w !! btn) -> is_Some (dom w !! menu) ->
  mirrors (toggledWorld btn menu w) btn menu
  = (Some (stringOfBool
             (negb (bool_decide (attrOf w btn "aria-expanded" = Some "true"%string)))),
     negb (hasClass w menu "active"),
     (fun i => (negb (hasClass w i "fa-bars"), negb (hasClass w i "fa-times")))
       <$> iconOf w btn,
     if negb (bool_decide (attrOf w btn "aria-expanded" = Some "true"%string))
     then "hidden"%string else ""%string).
Proof.
  intros Hb Hm. unfold mirrors.
  rewrite <- (similar_iconOf _ _ btn (toggledWorld_similar btn menu w)).
  unfold toggledWorld.
  set (v := stringOfBool _).
  set (w0 := upd btn _ w).
  set (w1 := upd menu _ w0).
  assert (H1 : similar w w1).
  { eapply similar_trans; apply similar_upd; apply _. }
  rewrite <- (similar_iconOf _ _ btn H1).
  assert (Ha : attrOf w1 btn "aria-expanded" = Some v).
  { unfold w1. rewrite attrOf_upd_class. now apply attrOf_upd_set_eq. }
  assert (Hc : hasClass w1 menu "active" = negb (hasClass w menu "active")).
  { unfold w1. rewrite hasClass_upd_toggle_eq by (unfold w0; now rewrite upd_exists).
    unfold w0. now rewrite hasClass_upd_attr. }
  assert (Hk : ∀ i c, c ≠ "active"%string -> hasClass w1 i c = hasClass w i c).
  { intros i c Hne. unfold w1, w0.
    rewrite hasClass_upd_toggle_ne by (now right). apply hasClass_upd_attr. }
  destruct (iconOf w btn) as [i|] eqn:Hi; simpl.
  - assert (Hex : is_Some (dom w1 !! i)).
    { eapply similar_exists; [exact H1|]. now apply iconOf_exists in Hi. }
    rewrite attrOf_bodyOverflow, !hasClass_bodyOverflow, !attrOf_upd_class, Ha.
    rewrite (hasClass_upd_toggle_ne _ i "fa-times" menu "active") by (right; done).
    rewrite (hasClass_upd_toggle_ne _ i "fa-bars" menu "active") by (right; done).
    rewrite Hc.
    rewrite (hasClass_upd_toggle_ne _ i "fa-times" i "fa-bars") by (right; done).
    rewrite hasClass_upd_toggle_eq by exact Hex.
    rewrite hasClass_upd_toggle_eq by (now rewrite upd_exists).
    rewrite (hasClass_upd_toggle_ne _ i "fa-bars" i "fa-times") by (right; done).
    rewrite !Hk by done. reflexivity.
  - rewrite attrOf_bodyOverflow, hasClass_bodyOverflow, Ha, Hc. reflexivity.
Qed.

Lemma clickTrigger_runs btn menu links target w :
  contains w btn target = true ->
  MobileMenu.clickTrigger (MobileMenu.mk (Some btn) (Some menu) links) target w
  = Return tt (toggledWorld btn menu (set_defaultPrevented true w)).
Proof.
  intros Hin. unfold MobileMenu.clickTrigger, MobileMenu.onButtonClick.
  set (w0 := set_defaultPrevented true w).
  assert (E : (preventDefault ;; MobileMenu.toggleMenu
                 (MobileMenu.mk (Some btn) (Some menu) links)) w
              = Return tt (toggledWorld btn menu w0)).
  { unfold preventDefault, modify. unfold mbind at 1, Js_bind at 1.
    apply toggleMenu_runs. }
  rewrite (bind_Return _ _ _ _ _ E).
  unfold MobileMenu.onDocumentClick. js_unfold. simpl.
  rewrite <- (similar_contains w0 _ btn target (toggledWorld_similar btn menu w0)).
  rewrite <- (similar_contains w w0 btn target (similar_refl w)).
  now rewrite Hin.
Qed.

(** C7. From the closed menu state, one click on the trigger sets
    [aria-expanded] to ["true"], puts the class [active] on the container and
    locks the scroll of the body; a second click brings the three of them,
    and the icon's glyph classes, back to what they were: two toggles are the
    identity on the menu state. *)
Theorem toggleMenu_twice_reverts (this : MobileMenu.t) (w : World)
    (btn menu target : nat) :
  MobileMenu.mobileMenuButton this = Some btn ->
  MobileMenu.mobileMenu this = Some menu ->
  is_Some (dom w !! btn) ->
  is_Some (dom w !! menu) ->
  contains w btn target = true ->
  attrOf w btn "aria-expanded" = Some "false"%string ->
  hasClass w menu "active" = false ->
  bodyOverflow w = ""%string ->
  ∃ w1 w2,
    MobileMenu.clickTrigger this target w = Return tt w1
    ∧ attrOf w1 btn "aria-expanded" = Some "true"%string
    ∧ hasClass w1 menu "active" = true
    ∧ bodyOverflow w1 = "hidden"%string
    ∧ MobileMenu.clickTrigger this target w1 = Return tt w2
    ∧ attrOf w2 btn "aria-expanded" = Some "false"%string
    ∧ hasClass w2 menu "active" = false
    ∧ bodyOverflow w2 = ""%string
    ∧ mirrors w2 btn menu = mirrors w btn menu.
Proof.
  destruct this as [b m links]. simpl. intros -> -> Hb Hm Hin Haria Hcls Hov.
  set (w0 := set_defaultPrevented true w).
  set (w1 := toggledWorld btn menu w0).
  set (w1' := set_defaultPrevented true w1).
  set (w2 := toggledWorld btn menu w1').
  pose proof (toggledWorld_similar btn menu w0 : similar w w1) as Hs1.
  pose proof (toggledWorld_mirrors btn menu w0 Hb Hm) as M1.
  change (attrOf w0 btn "aria-expanded") with (attrOf w btn "aria-expanded") in M1.
  change (hasClass w0 menu "active") with (hasClass w menu "active") in M1.
  rewrite <- (similar_iconOf w w0 btn (similar_refl w)) in M1.
  rewrite Haria, Hcls in M1. simpl in M1. fold w1 in M1.
  assert (Hb1 : is_Some (dom w1' !! btn)) by exact (similar_exists _ _ _ Hs1 Hb).
  assert (Hm1 : is_Some (dom w1' !! menu)) by exact (similar_exists _ _ _ Hs1 Hm).
  pose proof (toggledWorld_mirrors btn menu w1' Hb1 Hm1) as M2.
  fold w2 in M2.
  change (attrOf w1' btn "aria-expanded") with (attrOf w1 btn "aria-expanded") in M2.
  change (hasClass w1' menu "active") with (hasClass w1 menu "active") in M2.
  rewrite <- (similar_iconOf w1 w1' btn (similar_refl w1)) in M2.
  unfold mirrors in M1. injection M1 as A1 C1 I1 O1.
  rewrite A1, C1 in M2. simpl in M2.
  rewrite <- (similar_iconOf _ _ btn Hs1) in M2, I1.
  assert (Hmir : mirrors w2 btn menu = mirrors w btn menu).
  { rewrite M2. unfold mirrors. rewrite Haria, Hcls, Hov.
    destruct (iconOf w btn) as [i|] eqn:Hi; simpl in *; [|reflexivity].
    injection I1 as B1 T1.
    change (hasClass w1' i "fa-bars") with (hasClass w1 i "fa-bars").
    change (hasClass w1' i "fa-times") with (hasClass w1 i "fa-times").
    rewrite B1, T1.
    change (hasClass w0 i "fa-bars") with (hasClass w i "fa-bars").
    change (hasClass w0 i "fa-times") with (hasClass w i "fa-times").
    now rewrite !negb_involutive. }
  unfold mirrors in M2. injection M2 as A2 C2 _ O2.
  exists w1, w2.
  split; [now apply clickTrigger_runs|].
  split; [exact A1|]. split; [exact C1|]. split; [exact O1|].
  split.
  { apply clickTrigger_runs. now rewrite <- (similar_contains _ _ btn target Hs1). }
  split; [exact A2|]. split; [exact C2|]. split; [exact O2|].
  exact Hmir.
Qed.

(** ** Updates that keep attributes, or classes *)

Lemma attrOf_upd_keeps w n f m k :
  (∀ e, attributes (f e) = attributes e) ->
  attrOf (upd n f w) m k = attrOf w m k.
Proof.
  intros Hf. unfold attrOf, upd. simpl. rewrite list_lookup_alter.
  destruct (decide (n = m)) as [->|]; [|reflexivity].
  destruct (dom w !! m); simpl; [|reflexivity]. now rewrite Hf.
Qed.

Lemma hasClass_upd_keeps w n f m c :
  (∀ e, classList (f e) = classList e) ->
  hasClass (upd n f w) m c = hasClass w m c.
Proof.
  intros Hf. unfold hasClass, upd. simpl. rewrite list_lookup_alter.
  destruct (decide (n = m)) as [->|]; [|reflexivity].
  destruct (dom w !! m); simpl; [|reflexivity]. now rewrite Hf.
Qed.

Lemma siblingOf_exists w q a : siblingOf w q = Some a -> is_Some (dom w !! q).
Proof.
  unfold siblingOf, parentOf. destruct (dom w !! q); [eauto|discriminate].
Qed.

Lemma siblingOf_sibling_exists w q a : siblingOf w q = Some a -> is_Some (dom w !! a).
Proof.
  unfold siblingOf. destruct (parentOf w q) as [p|]; [|discriminate].
  intros H. apply head_Some_elem_of in H. apply list_elem_of_filter in H.
  destruct H as [[_ H] _]. unfold parentOf in H.
  destruct (dom w !! a); [eauto|discriminate].
Qed.

(** ** FAQ: the accordion *)

Lemma closeOne_runs q a w :
  siblingOf w q = Some a -> FAQ.closeOne q w = Return tt (collapsedWorld q a w).
Proof.
  intros H. unfold FAQ.closeOne, FAQ.animateHeight. js_unfold. now rewrite H.
Qed.

Lemma collapsedWorld_similar q a w : similar w (collapsedWorld q a w).
Proof.
  unfold collapsedWorld.
  repeat (eapply similar_trans; [|apply similar_upd; apply _]).
  apply similar_refl.
Qed.

Lemma expandedWorld_similar q a w : similar w (expandedWorld q a w).
Proof.
  unfold expandedWorld.
  repeat (eapply similar_trans; [|apply similar_upd; apply _]).
  apply similar_refl.
Qed.

Lemma collapsedWorld_aria q a w m :
  is_Some (dom w !! q) ->
  m = q ∨ attrOf w m "aria-expanded" = Some "false"%string ->
  attrOf (collapsedWorld q a w) m "aria-expanded" = Some "false"%string.
Proof.
  intros Hq Hm. unfold collapsedWorld.
  rewrite attrOf_upd_keeps by reflexivity.
  rewrite !attrOf_upd_class.
  destruct (decide (q = m)) as [<-|Hne].
  - now apply attrOf_upd_set_eq.
  - rewrite attrOf_upd_set_ne by (now left). destruct Hm; congruence.
Qed.

Lemma closeAll_runs qs w :
  (∀ q, q ∈ qs -> is_Some (siblingOf w q)) ->
  ∃ w', forEach FAQ.closeOne qs w = Return tt w'
        ∧ similar w w'
        ∧ ∀ m, m ∈ qs ∨ attrOf w m "aria-expanded" = Some "false"%string ->
               attrOf w' m "aria-expanded" = Some "false"%string.
Proof.
  revert w. induction qs as [|q qs IH]; intros w Hp.
  - exists w. split; [reflexivity|]. split; [apply similar_refl|].
    intros m [Hm|Hm]; [|exact Hm]. now apply elem_of_nil in Hm.
  - destruct (Hp q) as [a Ha]; [apply list_elem_of_here|].
    pose proof (collapsedWorld_similar q a w) as Hs.
    destruct (IH (collapsedWorld q a w)) as (w' & Hrun & Hs' & Hattr).
    { intros q' Hq'. rewrite <- (similar_siblingOf _ _ q' Hs).
      apply Hp. now apply list_elem_of_further. }
    exists w'. split.
    { simpl. now rewrite (bind_Return _ _ _ _ _ (closeOne_runs q a w Ha)). }
    split; [now apply (similar_trans _ _ _ Hs)|].
    intros m Hm. apply Hattr.
    destruct (decide (m ∈ qs)) as [Hin|Hnin]; [now left|right].
    apply collapsedWorld_aria; [now apply siblingOf_exists in Ha|].
    destruct Hm as [Hm|Hm]; [|now right].
    apply elem_of_cons in Hm. destruct Hm as [->|Hm]; [now left|contradiction].
Qed.

Lemma expanded_aria_false w q :
  attrOf w q "aria-expanded" = Some "false"%string -> FAQ.expanded w q = false.
Proof. intros H. unfold FAQ.expanded. now rewrite H. Qed.

Lemma expandedWorld_aria_other q a w m :
  m ≠ q ->
  attrOf (expandedWorld q a w) m "aria-expanded" = attrOf w m "aria-expanded".
Proof.
  intros Hne. unfold expandedWorld.
  rewrite attrOf_upd_keeps by reflexivity.
  rewrite !attrOf_upd_class. apply attrOf_upd_set_ne. left. congruence.
Qed.

Lemma expandedWorld_expanded q a w :
  siblingOf w q = Some a -> FAQ.expanded (expandedWorld q a w) q = true.
Proof.
  intros Ha.
  pose proof (siblingOf_exists w q a Ha) as Hq.
  pose proof (siblingOf_sibling_exists w q a Ha) as Hex.
  unfold FAQ.expanded.
  rewrite <- (similar_siblingOf w _ q (expandedWorld_similar q a w)), Ha.
  unfold expandedWorld.
  apply andb_true_intro. split; [apply andb_true_intro; split|].
  - rewrite attrOf_upd_keeps by reflexivity. rewrite !attrOf_upd_class.
    rewrite attrOf_upd_set_eq by exact Hq. reflexivity.
  - rewrite hasClass_upd_keeps by reflexivity.
    apply hasClass_upd_add_mono, hasClass_upd_add_eq. now rewrite upd_exists.
  - rewrite hasClass_upd_keeps by reflexivity.
    apply hasClass_upd_add_eq. now rewrite !upd_exists.
Qed.



(** ** SmoothScrolling: the scroll destination *)

Lemma similar_offsetTopOf w w' n : similar w w' -> offsetTopOf w n = offsetTopOf w' n.
Proof.
  intros H. unfold offsetTopOf. pose proof (similar_lookup _ _ n H) as E.
  destruct (dom w !! n), (dom w' !! n); unfold skeleton in *; simpl in *;
    congruence.
Qed.

Lemma similar_offsetHeightOf w w' n :
  similar w w' -> offsetHeightOf w n = offsetHeightOf w' n.
Proof.
  intros H. unfold offsetHeightOf. pose proof (similar_lookup _ _ n H) as E.
  destruct (dom w !! n), (dom w' !! n); unfold skeleton in *; simpl in *;
    congruence.
Qed.

Lemma matchesAt_class w c n : matchesAt w [ByClass c] n = hasClass w n c.
Proof.
  unfold matchesAt, hasClass. destruct (dom w !! n); [|reflexivity].
  simpl. apply orb_false_r.
Qed.

Lemma selectAll_class_ext w w' c :
  similar w w' -> (∀ n, hasClass w' n c = hasClass w n c) ->
  selectAll w' [ByClass c] = selectAll w [ByClass c].
Proof.
  intros Hs Hc. unfold selectAll. rewrite (similar_positions _ _ Hs).
  apply list_filter_iff. intros n. now rewrite !matchesAt_class, Hc.
Qed.

Lemma closedWorld_hasClass btn menu w n c :
  c ≠ "active"%string -> c ≠ "fa-bars"%string -> c ≠ "fa-times"%string ->
  hasClass (closedWorld btn menu w) n c = hasClass w n c.
Proof.
  intros H1 H2 H3. unfold closedWorld.
  destruct (iconOf _ btn); rewrite hasClass_bodyOverflow;
    repeat first [ rewrite hasClass_upd_remove_ne by (now right)
                 | rewrite hasClass_upd_add_ne by (now right) ];
    apply hasClass_upd_attr.
Qed.

Lemma closedWorld_headerHeight btn menu w :
  SmoothScrolling.headerHeightOf (closedWorld btn menu w)
  = SmoothScrolling.headerHeightOf w.
Proof.
  unfold SmoothScrolling.headerHeightOf.
  pose proof (closedWorld_similar btn menu w) as Hs.
  rewrite (selectAll_class_ext w (closedWorld btn menu w) "header" Hs).
  - destruct (head _); [|reflexivity]. symmetry. now apply similar_offsetHeightOf.
  - intros n. now apply closedWorld_hasClass.
Qed.

Lemma updateFocus_runs tgt w :
  SmoothScrolling.updateFocus tgt w = Return tt (focusedWorld tgt w).
Proof.
  unfold SmoothScrolling.updateFocus, focusedWorld. js_unfold.
  destruct (bool_decide (is_Some (attrOf w tgt "tabindex")));
    match goal with |- context [focusable ?w1 tgt] => destruct (focusable w1 tgt) end;
    reflexivity.
Qed.

Lemma attrOf_dom w w' n k : dom w' = dom w -> attrOf w' n k = attrOf w n k.
Proof. intros H. unfold attrOf. now rewrite H. Qed.

Lemma focusable_dom w w' n : dom w' = dom w -> focusable w' n = focusable w n.
Proof. intros H. unfold focusable. now rewrite H. Qed.

(** An element that carries [tabindex="-1"] can take the focus. *)
Lemma focusable_transient w tgt :
  is_Some (dom w !! tgt) ->
  focusable (upd tgt (el_setAttribute "tabindex" "-1") w) tgt = true.
Proof.
  intros [e He]. unfold focusable, upd. simpl.
  rewrite list_lookup_alter_eq, He. simpl. unfold focusableElement. simpl.
  now rewrite lookup_insert_eq.
Qed.

Lemma focusedWorld_dom_new tgt w :
  attrOf w tgt "tabindex" = None ->
  dom (focusedWorld tgt w) = dom (upd tgt (el_setAttribute "tabindex" "-1") w).
Proof.
  intros H. unfold focusedWorld. rewrite H. simpl.
  now destruct (focusable _ tgt).
Qed.

Lemma focusedWorld_dom_old tgt w :
  is_Some (attrOf w tgt "tabindex") -> dom (focusedWorld tgt w) = dom w.
Proof.
  intros H. unfold focusedWorld. rewrite bool_decide_eq_true_2 by exact H.
  now destruct (focusable w tgt).
Qed.

Lemma focusedWorld_timers tgt w :
  timers (focusedWorld tgt w)
  = timers w ++ [mkTimer (clock w + 1000) (RemoveTransientTabindex tgt)].
Proof.
  unfold focusedWorld.
  destruct (bool_decide (is_Some (attrOf w tgt "tabindex")));
    match goal with |- context [focusable ?w1 tgt] => destruct (focusable w1 tgt) end;
    reflexivity.
Qed.

Lemma focusedWorld_active_new tgt w :
  is_Some (dom w !! tgt) -> attrOf w tgt "tabindex" = None ->
  activeElement (focusedWorld tgt w) = Some tgt.
Proof.
  intros Hex H. unfold focusedWorld. rewrite H. simpl.
  now rewrite (focusable_transient w tgt Hex).
Qed.

Lemma focusedWorld_active_old tgt w :
  is_Some (attrOf w tgt "tabindex") ->
  activeElement (focusedWorld tgt w)
  = if focusable w tgt then Some tgt else activeElement w.
Proof.
  intros H. unfold focusedWorld. rewrite bool_decide_eq_true_2 by exact H.
  now destruct (focusable w tgt).
Qed.

Lemma focusedWorld_scrollRequests tgt w :
  scrollRequests (focusedWorld tgt w) = scrollRequests w.
Proof.
  unfold focusedWorld.
  destruct (bool_decide (is_Some (attrOf w tgt "tabindex")));
    match goal with |- context [focusable ?w1 tgt] => destruct (focusable w1 tgt) end;
    reflexivity.
Qed.

Lemma closedWorld_scrollRequests btn menu w :
  scrollRequests (closedWorld btn menu w) = scrollRequests w.
Proof. now rewrite closedWorld_unfold. Qed.

Lemma getOffsetTop_root w n :
  is_Some (dom w !! n) -> offsetParentOf w n = None ->
  Utils.getOffsetTop w n = offsetTopOf w n.
Proof.
  intros Hn Hp. unfold Utils.getOffsetTop.
  apply lookup_lt_is_Some in Hn.
  destruct (length (dom w)) as [|k]; [lia|].
  simpl. rewrite Hp. destruct k; simpl; lia.
Qed.

Lemma handleAnchorClick_runs btn mn links w anchor tgt href :
  attrOf w anchor "href" = Some href ->
  resolveSelector w href = QueryElement tgt ->
  ∃ w',
    SmoothScrolling.handleAnchorClick (MobileMenu.mk (Some btn) (Some mn) links)
      anchor w = Return tt w'
    ∧ scrollRequests w' = scrollRequests w ++ [scrollTarget w tgt].
Proof.
  intros Hhref Hres.
  set (w0 := set_defaultPrevented true w).
  set (wc := closedWorld btn mn w0).
  assert (Hq : querySelectorString href w0 = Return (Some tgt) w0).
  { unfold querySelectorString.
    change (resolveSelector w0 href) with (resolveSelector w href).
    now rewrite Hres. }
  assert (Hs : similar w wc) by exact (closedWorld_similar btn mn w0).
  assert (Htop : scrollTarget wc tgt = scrollTarget w tgt).
  { unfold scrollTarget. rewrite <- (similar_offsetTopOf w wc tgt Hs).
    unfold wc. rewrite closedWorld_headerHeight. reflexivity. }
  unfold SmoothScrolling.handleAnchorClick.
  unfold preventDefault, modify, getAttribute, gets.
  unfold mbind at 1 2 3, Js_bind at 1 2 3.
  change (attrOf (set_defaultPrevented true w) anchor "href")
    with (attrOf w anchor "href").
  rewrite Hhref. simpl SmoothScrolling.selectorText. fold w0. rewrite Hq.
  rewrite (bind_Return _ _ _ _ _ (closeMenu_runs btn mn links w0)). fold wc.
  unfold scrollTo, modify.
  unfold mbind at 1 2 3, Js_bind at 1 2 3.
  fold (scrollTarget wc tgt). rewrite Htop.
  rewrite (bind_Return _ _ _ _ _ (updateFocus_runs tgt _)).
  assert (Hlog : ∀ w1, scrollRequests w1 = scrollRequests w ++ [scrollTarget w tgt] ->
            ∃ w', Return tt w1 = Return tt w'
                  ∧ scrollRequests w' = scrollRequests w ++ [scrollTarget w tgt]).
  { intros w1 H1. exists w1. split; [reflexivity|exact H1]. }
  destruct (bool_decide (Some href = Some "#"%string)); apply Hlog;
    cbn [scrollRequests set_historyEntries];
    rewrite focusedWorld_scrollRequests;
    cbn [scrollRequests set_scrollRequests];
    unfold wc; now rewrite closedWorld_scrollRequests.
Qed.

(** What the handler computes.  When the fragment of the clicked anchor
    resolves to a target and the mobile menu's trigger and container exist,
    the handler asks for exactly one smooth scroll, whose destination is the
    target's [offsetTop] minus the height of the header minus 20, the height
    being 0 when the page has no header.  [offsetTop] is the offset from the
    target's [offsetParent]; it is the offset in the document only when the
    target has no [offsetParent]. *)
Lemma handleAnchorClick_scroll_target (menu : MobileMenu.t) (w : World)
    (anchor tgt btn mn : nat) (href : string) :
  MobileMenu.mobileMenuButton menu = Some btn ->
  MobileMenu.mobileMenu menu = Some mn ->
  attrOf w anchor "href" = Some href ->
  resolveSelector w href = QueryElement tgt ->
  ∃ w',
    SmoothScrolling.handleAnchorClick menu anchor w = Return tt w'
    ∧ scrollRequests w'
      = scrollRequests w
        ++ [mkScroll (offsetTopOf w tgt - SmoothScrolling.headerHeightOf w - 20)
              "smooth"]
    ∧ (selectAll w [ByClass "header"] = [] -> SmoothScrolling.headerHeightOf w = 0%Z)
    ∧ (is_Some (dom w !! tgt) -> offsetParentOf w tgt = None ->
       offsetTopOf w tgt = Utils.getOffsetTop w tgt).
Proof.
  destruct menu as [b m links]. simpl. intros -> -> Hhref Hres.
  destruct (handleAnchorClick_runs btn mn links w anchor tgt href Hhref Hres)
    as (w' & Hrun & Hlog).
  exists w'. split; [exact Hrun|]. split; [exact Hlog|]. split.
  - intros Hnone. unfold SmoothScrolling.headerHeightOf. now rewrite Hnone.
  - intros Hex Hroot. symmetry. now apply getOffsetTop_root.
Qed.

(** ** ScrollAnimations: one-shot reveals *)

Lemma stagger_runs items : ∀ index w,
  ∃ w', ScrollAnimations.stagger index items w = Return tt w'
        ∧ dom w' = dom w ∧ observed w' = observed w ∧ clock w' = clock w
        ∧ timers w' = timers w ++ staggered (clock w) index items.
Proof.
  induction items as [|item items IH]; intros index w.
  - exists w. unfold staggered. simpl. rewrite app_nil_r. repeat split; reflexivity.
  - set (w1 := set_timers
                 (fun l => l ++ [mkTimer (clock w + index * 100) (RevealGridItem item)]) w).
    destruct (IH (S index) w1) as (w' & Hr & Hd & Ho & Hc & Ht).
    exists w'. split.
    { simpl. unfold setTimeout, modify. unfold mbind at 1, Js_bind at 1.
      fold w1. exact Hr. }
    split; [exact Hd|]. split; [exact Ho|]. split; [exact Hc|].
    rewrite Ht. unfold w1, staggered. simpl. rewrite <- app_assoc. simpl.
    f_equal. f_equal.
    + now rewrite Nat.add_0_r.
    + apply imap_ext. intros i x _. simpl. f_equal. f_equal. lia.
Qed.

Lemma selectAllIn_gridItems_add w n root :
  selectAllIn (upd n (el_setClassList (tokens_add "animate-fade-in")) w) root
    ScrollAnimations.gridItemSelector
  = selectAllIn w root ScrollAnimations.gridItemSelector.
Proof.
  pose proof (similar_upd (el_setClassList (tokens_add "animate-fade-in")) n w) as Hs.
  unfold selectAllIn, selectAll. rewrite <- (similar_positions _ _ Hs).
  rewrite (list_filter_iff
             (fun m => matchesAt (upd n _ w) ScrollAnimations.gridItemSelector m = true)
             (fun m => matchesAt w ScrollAnimations.gridItemSelector m = true)).
  - apply list_filter_iff. intros m. now rewrite <- (similar_contains _ _ root m Hs).
  - intros m. unfold matchesAt, upd. simpl. rewrite list_lookup_alter.
    destruct (decide (n = m)) as [->|]; [|reflexivity].
    destruct (dom w !! m); simpl; [|reflexivity].
    now rewrite !tokens_contains_add_ne by done.
Qed.

(** One intersecting entry: the class, the staggered timers, the unobserve. *)
Lemma handleEntry_runs tgt w :
  ∃ w', ScrollAnimations.handleEntry (ScrollAnimations.mkEntry tgt true) w
        = Return tt w'
        ∧ dom w' = dom (upd tgt (el_setClassList (tokens_add "animate-fade-in")) w)
        ∧ observed w' = filter (fun x => x ≠ tgt) (observed w)
        ∧ clock w' = clock w
        ∧ timers w'
          = timers w ++ staggered (clock w) 0
                          (selectAllIn w tgt ScrollAnimations.gridItemSelector).
Proof.
  set (w1 := upd tgt (el_setClassList (tokens_add "animate-fade-in")) w).
  destruct (stagger_runs (selectAllIn w tgt ScrollAnimations.gridItemSelector) 0 w1)
    as (w2 & Hr & Hd & Ho & Hc & Ht).
  exists (set_observed (filter (fun x => x ≠ tgt)) w2). split.
  { unfold ScrollAnimations.handleEntry, ScrollAnimations.addStaggeredAnimation.
    simpl. unfold classList_add, updateElement, modify, querySelectorAllIn, gets.
    unfold mbind at 1 2 3, Js_bind at 1 2 3. fold w1.
    unfold w1 at 1. rewrite selectAllIn_gridItems_add. rewrite Hr. reflexivity. }
  simpl. rewrite Hd, Ho, Hc, Ht. repeat split; reflexivity.
Qed.

Lemma hasClass_dom w w' n c : dom w' = dom w -> hasClass w' n c = hasClass w n c.
Proof. intros H. unfold hasClass. now rewrite H. Qed.

Lemma keepsRevealed_refl w : keepsRevealed w w.
Proof. now intros n. Qed.

Lemma keepsRevealed_trans w1 w2 w3 :
  keepsRevealed w1 w2 -> keepsRevealed w2 w3 -> keepsRevealed w1 w3.
Proof. intros H1 H2 n H. apply H2, H1, H. Qed.

Lemma handleEntry_keeps entry w :
  ∃ w', ScrollAnimations.handleEntry entry w = Return tt w'
        ∧ keepsRevealed w w'
        ∧ length (dom w') = length (dom w)
        ∧ (∀ x, x ∈ observed w' -> x ∈ observed w)
        ∧ (ScrollAnimations.isIntersecting entry = true ->
           (is_Some (dom w !! ScrollAnimations.target entry) ->
            ScrollAnimations.revealed w' (ScrollAnimations.target entry) = true)
           ∧ ScrollAnimations.target entry ∉ observed w').
Proof.
  destruct entry as [tgt [|]].
  - destruct (handleEntry_runs tgt w) as (w' & Hr & Hd & Ho & _ & _).
    exists w'. split; [exact Hr|]. split.
    { intros n Hn. unfold ScrollAnimations.revealed in *.
      rewrite (hasClass_dom _ _ n _ Hd). now apply hasClass_upd_add_mono. }
    split.
    { rewrite Hd. unfold upd. simpl. apply length_alter. }
    split.
    { intros x. rewrite Ho, list_elem_of_filter. tauto. }
    intros _. simpl. split.
    + intros Hex. unfold ScrollAnimations.revealed.
      rewrite (hasClass_dom _ _ tgt _ Hd). now apply hasClass_upd_add_eq.
    + rewrite Ho, list_elem_of_filter. intros [Hne _]. now apply Hne.
  - exists w. split; [reflexivity|]. split; [apply keepsRevealed_refl|].
    split; [reflexivity|]. split; [tauto|discriminate].
Qed.

Lemma handleIntersection_runs entries : ∀ w,
  ∃ w', ScrollAnimations.handleIntersection entries w = Return tt w'
        ∧ keepsRevealed w w'
        ∧ length (dom w') = length (dom w)
        ∧ (∀ x, x ∈ observed w' -> x ∈ observed w)
        ∧ ∀ tgt, ScrollAnimations.mkEntry tgt true ∈ entries ->
            (is_Some (dom w !! tgt) -> ScrollAnimations.revealed w' tgt = true)
            ∧ tgt ∉ observed w'.
Proof.
  induction entries as [|entry entries IH]; intros w.
  - exists w. split; [reflexivity|]. split; [apply keepsRevealed_refl|].
    split; [reflexivity|]. split; [tauto|].
    intros tgt H. now apply elem_of_nil in H.
  - destruct (handleEntry_keeps entry w) as (w1 & Hr1 & Hk1 & Hl1 & Ho1 & Hf1).
    destruct (IH w1) as (w' & Hr & Hk & Hl & Ho & Hf).
    exists w'. split.
    { unfold ScrollAnimations.handleIntersection in *. simpl.
      now rewrite (bind_Return _ _ _ _ _ Hr1). }
    split; [exact (keepsRevealed_trans _ _ _ Hk1 Hk)|].
    split; [congruence|]. split; [auto|].
    intros tgt Hin. apply elem_of_cons in Hin. destruct Hin as [<-|Hin].
    + destruct (Hf1 eq_refl) as [Hrev Hobs]. simpl in *. split.
      * intros Hex. apply Hk. now apply Hrev.
      * intros Habs. apply Hobs. now apply Ho.
    + destruct (Hf tgt Hin) as [Hrev Hobs]. split; [|exact Hobs].
      intros Hex. apply Hrev. apply lookup_lt_is_Some. rewrite Hl1.
      now apply lookup_lt_is_Some.
Qed.

Lemma runCallback_keeps cb w :
  ∃ w', runCallback cb w = Return tt w' ∧ keepsRevealed w w'.
Proof.
  destruct cb as [tgt|item]; simpl.
  - unfold SmoothScrolling.removeTransientTabindex. js_unfold.
    destruct (bool_decide (attrOf w tgt "tabindex" = Some "-1"%string)).
    + eexists. split; [reflexivity|]. intros n Hn.
      unfold ScrollAnimations.revealed in *.
      now rewrite hasClass_upd_keeps by reflexivity.
    + exists w. split; [reflexivity|apply keepsRevealed_refl].
  - unfold ScrollAnimations.revealGridItem. js_unfold.
    eexists. split; [reflexivity|]. intros n Hn.
    now apply hasClass_upd_add_mono.
Qed.

Lemma react_keeps ev w :
  ∃ w', react ev w = Return tt w' ∧ keepsRevealed w w'.
Proof.
  destruct ev as [entries|i|ms]; simpl.
  - destruct (handleIntersection_runs entries w) as (w' & Hr & Hk & _).
    now exists w'.
  - unfold fireTimer. destruct (timers w !! i) as [tm|];
      [|exists w; split; [reflexivity|apply keepsRevealed_refl]].
    destruct (due tm <=? clock w);
      [|exists w; split; [reflexivity|apply keepsRevealed_refl]].
    destruct (runCallback_keeps (callback tm) (set_timers (delete i) w))
      as (w' & Hr & Hk).
    exists w'. split; [exact Hr|]. intros n Hn. now apply Hk.
  - eexists. split; [reflexivity|]. now intros n Hn.
Qed.

Lemma worlds_revealed evs : ∀ w n,
  ScrollAnimations.revealed w n = true ->
  Forall (fun w' => ScrollAnimations.revealed w' n = true) (worlds evs w).
Proof.
  induction evs as [|ev evs IH]; intros w n Hn; simpl.
  - now repeat constructor.
  - constructor; [exact Hn|]. apply IH.
    destruct (react_keeps ev w) as (w' & Hr & Hk). rewrite Hr. simpl. now apply Hk.
Qed.

Lemma rises_all_true l : Forall (fun b => b = true) l -> rises l = 0.
Proof.
  induction 1 as [|b l Hb Hl IH]; [reflexivity|].
  destruct l as [|b' l']; [reflexivity|].
  change (rises (b :: b' :: l')) with
    ((if negb b && b' then 1 else 0) + rises (b' :: l')).
  rewrite IH, Hb. reflexivity.
Qed.

Lemma settles_true l : settles (true :: l) -> Forall (fun b => b = true) (true :: l).
Proof.
  revert l. induction l as [|b l IH]; intros H.
  - now repeat constructor.
  - destruct H as [Hb H]. constructor; [reflexivity|].
    rewrite (Hb eq_refl) in *. now apply IH.
Qed.

Lemma rises_settles l : settles l -> rises l <= 1.
Proof.
  induction l as [|a l IH]; intros H; [simpl; lia|].
  destruct l as [|b l]; [simpl; lia|].
  destruct H as [Hab H].
  change (rises (a :: b :: l)) with ((if negb a && b then 1 else 0) + rises (b :: l)).
  destruct a, b; simpl negb; simpl andb; cbv iota.
  - specialize (IH H). lia.
  - specialize (Hab eq_refl). discriminate.
  - rewrite (rises_all_true (true :: l)) by now apply settles_true. lia.
  - specialize (IH H). lia.
Qed.

Lemma worlds_settles evs : ∀ w n,
  settles ((fun w' => ScrollAnimations.revealed w' n) <$> worlds evs w).
Proof.
  induction evs as [|ev evs IH]; intros w n; [exact I|].
  specialize (IH (world_of (react ev w)) n).
  destruct (react_keeps ev w) as (w1 & Hr & Hk).
  change (worlds (ev :: evs) w) with (w :: worlds evs (world_of (react ev w))).
  rewrite Hr in *. simpl world_of in *.
  destruct evs as [|ev' evs']; (split; [apply Hk|exact IH]).
Qed.

Lemma rises_worlds evs w n :
  rises ((fun w' => ScrollAnimations.revealed w' n) <$> worlds evs w) <= 1.
Proof. apply rises_settles, worlds_settles. Qed.

Lemma fireTimer_reveal w k t item :
  timers w !! k = Some (mkTimer t (RevealGridItem item)) ->
  is_Some (dom w !! item) ->
  (clock w < t -> fireTimer k w = Return tt w)
  ∧ (t <= clock w ->
     ∃ w', fireTimer k w = Return tt w' ∧ ScrollAnimations.revealed w' item = true).
Proof.
  intros Hk Hex. unfold fireTimer. rewrite Hk. simpl. split; intros Ht.
  - apply Nat.leb_gt in Ht. now rewrite Ht.
  - apply Nat.leb_le in Ht. rewrite Ht.
    unfold ScrollAnimations.revealGridItem. js_unfold.
    eexists. split; [reflexivity|].
    unfold ScrollAnimations.revealed. now apply hasClass_upd_add_eq.
Qed.

(** C6. Along every sequence of observer callbacks, timer runs and lapses of
    time an element goes at most once from unrevealed to revealed, and once
    it bears [animate-fade-in] it bears it ever after.  An intersecting entry
    for the element reveals it and unobserves it.  For each grid-item card
    inside it, the card at index [i] gets a timer due [i * 100] ms later (the
    first card with no delay); that timer does nothing before it is due and
    reveals the card when it runs. *)
Theorem reveal_one_shot (w : World) (tgt : nat) (evs : list PageEvent) :
  is_Some (dom w !! tgt) ->
  rises ((fun w' => ScrollAnimations.revealed w' tgt) <$> worlds evs w) <= 1
  ∧ settles ((fun w' => ScrollAnimations.revealed w' tgt) <$> worlds evs w)
  ∧ (∀ entries, ScrollAnimations.mkEntry tgt true ∈ entries ->
       ∃ w', ScrollAnimations.handleIntersection entries w = Return tt w'
             ∧ ScrollAnimations.revealed w' tgt = true
             ∧ tgt ∉ observed w')
  ∧ ∃ w', ScrollAnimations.handleIntersection [ScrollAnimations.mkEntry tgt true] w
          = Return tt w'
      ∧ ∀ i item,
          selectAllIn w tgt ScrollAnimations.gridItemSelector !! i = Some item ->
          timers w' !! (length (timers w) + i)
          = Some (mkTimer (clock w + i * 100) (RevealGridItem item))
          ∧ ∀ w2 k,
              timers w2 !! k = Some (mkTimer (clock w + i * 100) (RevealGridItem item)) ->
              is_Some (dom w2 !! item) ->
              (clock w2 < clock w + i * 100 -> fireTimer k w2 = Return tt w2)
              ∧ (clock w + i * 100 <= clock w2 ->
                 ∃ w3, fireTimer k w2 = Return tt w3
                       ∧ ScrollAnimations.revealed w3 item = true).
Proof.
  intros Hex. split; [apply rises_worlds|]. split; [apply worlds_settles|]. split.
  - intros entries Hin.
    destruct (handleIntersection_runs entries w) as (w' & Hr & _ & _ & _ & Hf).
    destruct (Hf tgt Hin) as [Hrev Hobs].
    exists w'. split; [exact Hr|]. split; [now apply Hrev|exact Hobs].
  - destruct (handleEntry_runs tgt w) as (w' & Hr & _ & _ & _ & Ht).
    exists w'. split.
    { unfold ScrollAnimations.handleIntersection. simpl.
      now rewrite (bind_Return _ _ _ _ _ Hr). }
    intros i item Hi. split.
    + rewrite Ht, lookup_app_r by lia.
      replace (length (timers w) + i - length (timers w)) with i by lia.
      unfold staggered. rewrite list_lookup_imap, Hi. reflexivity.
    + intros w2 k Hk Hitem. now apply (fireTimer_reveal w2 k _ item).
Qed.

(** ** Throttle: at most once per interval *)

Section ThrottleFacts.
Context {St : Type}.
Variable func : St -> Throttle.Body St.
Variable limit stack : nat.

Lemma spaced_snoc l x :
  Throttle.spaced limit l ->
  (∀ t, last l = Some t -> t + limit <= x) ->
  Throttle.spaced limit (l ++ [x]).
Proof.
  induction l as [|a l IH]; intros Hs Hl; [exact I|].
  destruct l as [|b l].
  - simpl. split; [|exact I]. now apply Hl.
  - destruct Hs as [Hab Hs]. split; [exact Hab|].
    apply IH; [exact Hs|]. intros t Ht. apply Hl. exact Ht.
Qed.

(** *** One call of the wrapper *)

Lemma throttle_in_cooldown c :
  Throttle.inThrottle c = true -> Throttle.throttle func limit stack c = (c, false).
Proof.
  intros H. unfold Throttle.throttle. destruct stack; simpl; now rewrite H.
Qed.

Lemma throttle_returns c y :
  0 < stack -> Throttle.inThrottle c = false ->
  func (Throttle.user c) = Throttle.Returns y ->
  Throttle.throttle func limit stack c
  = (Throttle.mk true (Throttle.resets c ++ [Throttle.now c + limit])
       (Throttle.now c) y (Throttle.invocations c ++ [Throttle.now c]), false).
Proof.
  intros Hs Hin Hf. unfold Throttle.throttle. destruct stack; [lia|].
  simpl. now rewrite Hin, Hf.
Qed.

Lemma throttle_throws c y :
  0 < stack -> Throttle.inThrottle c = false ->
  func (Throttle.user c) = Throttle.Throws y ->
  Throttle.throttle func limit stack c
  = (Throttle.mk false (Throttle.resets c) (Throttle.now c) y
       (Throttle.invocations c ++ [Throttle.now c]), true).
Proof.
  intros Hs Hin Hf. unfold Throttle.throttle. destruct stack; [lia|].
  simpl. rewrite Hin, Hf. simpl. unfold Throttle.withUser. simpl. now rewrite Hin.
Qed.

(** *** What every run of the wrapper keeps *)

Lemma runBody_inv (P : @Throttle.t St -> Prop) (call : @Throttle.t St -> @Throttle.t St * bool) :
  (∀ c s, P c -> P (Throttle.withUser s c)) ->
  (∀ c, P c -> P (fst (call c))) ->
  ∀ b c, P c -> P (fst (Throttle.runBody call b c)).
Proof.
  intros Hu Hc. induction b as [s|s|s k IH]; intros c Hp; simpl;
    [now apply Hu|now apply Hu|].
  pose proof (Hc _ (Hu c s Hp)) as H.
  destruct (call (Throttle.withUser s c)) as [c' threw]. now apply IH.
Qed.

Lemma throttleAt_inv (P : @Throttle.t St -> Prop) :
  (∀ c s, P c -> P (Throttle.withUser s c)) ->
  (∀ c, P c -> P (Throttle.entered c)) ->
  (∀ c, P c -> P (Throttle.cooled limit c)) ->
  ∀ depth c, P c -> P (fst (Throttle.throttleAt func limit depth c)).
Proof.
  intros Hu He Hc. induction depth as [|d IH]; intros c Hp; simpl;
    destruct (Throttle.inThrottle c); try exact Hp.
  pose proof (runBody_inv P (Throttle.throttleAt func limit d) Hu IH
                (func (Throttle.user c)) (Throttle.entered c) (He _ Hp)) as H.
  destruct (Throttle.runBody _ _ _) as [c' [|]]; simpl in *; [exact H|].
  now apply Hc.
Qed.

(** A call outside the cooldown enters [func] at once, whatever [func]
    does then. *)
Lemma throttle_enters c :
  0 < stack -> Throttle.inThrottle c = false ->
  ∃ l, Throttle.invocations (fst (Throttle.throttle func limit stack c))
       = Throttle.invocations c ++ Throttle.now c :: l.
Proof.
  intros Hs Hin. unfold Throttle.throttle. destruct stack as [|d]; [lia|].
  simpl. rewrite Hin.
  set (P := fun c' : @Throttle.t St =>
              ∃ l, Throttle.invocations c'
                   = Throttle.invocations c ++ Throttle.now c :: l).
  assert (Hu : ∀ c' s, P c' -> P (Throttle.withUser s c')) by (intros c' s H; exact H).
  assert (He : ∀ c', P c' -> P (Throttle.entered c')).
  { intros c' [l Hl]. exists (l ++ [Throttle.now c']). simpl.
    now rewrite Hl, <- app_assoc. }
  assert (Hc : ∀ c', P c' -> P (Throttle.cooled limit c')) by (intros c' H; exact H).
  assert (H0 : P (Throttle.entered c)) by (exists []; reflexivity).
  pose proof (runBody_inv P (Throttle.throttleAt func limit d) Hu
                (throttleAt_inv P Hu He Hc d) (func (Throttle.user c)) _ H0) as H.
  destruct (Throttle.runBody _ _ _) as [c' [|]]; exact H.
Qed.

Lemma throttle_recovering c :
  Throttle.recovering limit c ->
  Throttle.recovering limit (fst (Throttle.throttle func limit stack c)).
Proof.
  unfold Throttle.throttle. revert c. apply throttleAt_inv.
  - intros c s H. exact H.
  - intros c H. exact H.
  - intros c [_ H]. split; simpl.
    + intros _ E. now apply app_eq_nil in E as [_ E].
    + apply Forall_app. split; [exact H|]. now apply Forall_singleton.
Qed.

Lemma step_recovering ev c c' :
  Throttle.recovering limit c -> Throttle.step func limit stack ev c = Some c' ->
  Throttle.recovering limit c'.
Proof.
  intros Hc. destruct ev as [|ms|]; simpl.
  - intros [= <-]. now apply throttle_recovering.
  - intros [= <-]. destruct Hc as [H1 H2]. split; [exact H1|]. simpl.
    eapply Forall_impl; [exact H2|]. simpl. intros d Hd. lia.
  - destruct Hc as [H1 H2].
    destruct (Throttle.resets c) as [|d rest]; [discriminate|].
    destruct (d <=? Throttle.now c); [|discriminate].
    intros [= <-]. split; [discriminate|]. simpl.
    now apply Forall_cons in H2 as [_ H2].
Qed.

Lemma run_recovering evs : ∀ c c',
  Throttle.recovering limit c -> Throttle.run func limit stack evs c = Some c' ->
  Throttle.recovering limit c'.
Proof.
  induction evs as [|ev evs IH]; intros c c' Hc; simpl.
  - now intros [= <-].
  - destruct (Throttle.step func limit stack ev c) as [c1|] eqn:E; [|discriminate].
    simpl. apply IH. exact (step_recovering ev c c1 Hc E).
Qed.

(** After one [limit] every pending timer may run; when all have run the
    flag is unset. *)
Lemma run_fire_all : ∀ n c,
  length (Throttle.resets c) = n ->
  Forall (fun d => d <= Throttle.now c) (Throttle.resets c) ->
  (Throttle.inThrottle c = true -> Throttle.resets c ≠ []) ->
  ∃ c1, Throttle.run func limit stack (replicate n Throttle.Fire) c = Some c1
        ∧ Throttle.inThrottle c1 = false ∧ Throttle.resets c1 = []
        ∧ Throttle.invocations c1 = Throttle.invocations c
        ∧ Throttle.now c1 = Throttle.now c.
Proof.
  induction n as [|n IH]; intros c Hlen Hdue Hflag.
  - exists c. apply length_zero_iff_nil in Hlen.
    split; [reflexivity|]. split; [|auto].
    destruct (Throttle.inThrottle c); [|reflexivity]. now destruct Hflag.
  - destruct (Throttle.resets c) as [|d rest] eqn:Er; [discriminate|].
    apply Forall_cons in Hdue as [Hd Hrest].
    simpl. rewrite Er. apply Nat.leb_le in Hd. rewrite Hd. simpl.
    destruct (IH (Throttle.mk false rest (Throttle.now c) (Throttle.user c)
                    (Throttle.invocations c)))
      as (c1 & Hr & H1 & H2 & H3 & H4);
      [simpl in *; lia|exact Hrest|discriminate|].
    exists c1. auto.
Qed.

(** *** A function that throws in the end *)

Lemma runBody_throwing (call : @Throttle.t St -> @Throttle.t St * bool) b :
  Throttle.throwing b ->
  (∀ c, Throttle.inThrottle c = false ∧ Throttle.resets c = [] ->
        Throttle.inThrottle (fst (call c)) = false
        ∧ Throttle.resets (fst (call c)) = []) ->
  ∀ c, Throttle.inThrottle c = false ∧ Throttle.resets c = [] ->
    (Throttle.inThrottle (fst (Throttle.runBody call b c)) = false
     ∧ Throttle.resets (fst (Throttle.runBody call b c)) = [])
    ∧ snd (Throttle.runBody call b c) = true.
Proof.
  intros Hb Hc. induction Hb as [s|s k Hk IH]; intros c Hq; simpl.
  - split; [exact Hq|reflexivity].
  - pose proof (Hc (Throttle.withUser s c) Hq) as H.
    destruct (call (Throttle.withUser s c)) as [c' threw]. now apply IH.
Qed.

Lemma throttleAt_throwing :
  (∀ x, Throttle.throwing (func x)) ->
  ∀ depth c, Throttle.inThrottle c = false ∧ Throttle.resets c = [] ->
    Throttle.inThrottle (fst (Throttle.throttleAt func limit depth c)) = false
    ∧ Throttle.resets (fst (Throttle.throttleAt func limit depth c)) = [].
Proof.
  intros Hf. induction depth as [|d IH]; intros c Hq; simpl;
    destruct Hq as [Hin Hr]; rewrite Hin; [now split|].
  destruct (runBody_throwing (Throttle.throttleAt func limit d)
              (func (Throttle.user c)) (Hf _) IH (Throttle.entered c))
    as [Hq' Hthrew]; [now split|].
  destruct (Throttle.runBody _ _ _) as [c' threw]. simpl in *.
  now rewrite Hthrew.
Qed.

Lemma run_throwing evs :
  (∀ x, Throttle.throwing (func x)) -> 0 < stack ->
  ∀ c c', Throttle.inThrottle c = false -> Throttle.resets c = [] ->
    Throttle.run func limit stack evs c = Some c' ->
    Throttle.inThrottle c' = false ∧ Throttle.resets c' = []
    ∧ length (Throttle.invocations c) + Throttle.calls evs
      <= length (Throttle.invocations c')
    ∧ ((∀ x, ∃ y, func x = Throttle.Throws y) ->
       length (Throttle.invocations c')
       = length (Throttle.invocations c) + Throttle.calls evs).
Proof.
  intros Hf Hs. induction evs as [|ev evs IH]; intros c c' Hin Hr; simpl.
  - intros [= <-]. repeat split; auto; lia.
  - destruct ev as [|ms|]; simpl.
    + destruct (throttleAt_throwing Hf stack c (conj Hin Hr)) as [Hin1 Hr1].
      fold (Throttle.throttle func limit stack c) in Hin1, Hr1.
      destruct (throttle_enters c Hs Hin) as [l Hl].
      intros H. destruct (IH _ c' Hin1 Hr1 H) as (H1 & H2 & H3 & H4).
      split; [exact H1|]. split; [exact H2|].
      rewrite Hl, length_app in H3. simpl in H3. split; [lia|].
      intros Hd. rewrite (H4 Hd).
      destruct (Hd (Throttle.user c)) as [y Hy].
      rewrite (throttle_throws c y Hs Hin Hy). simpl.
      rewrite length_app. simpl. lia.
    + intros H. apply IH in H; [exact H|exact Hin|exact Hr].
    + rewrite Hr. discriminate.
Qed.

(** *** A function that returns without calling the wrapper *)

Hypothesis func_returns : ∀ x, ∃ y, func x = Throttle.Returns y.
Hypothesis stack_room : 0 < stack.

Lemma throttle_cooling c :
  Throttle.cooling limit c ->
  Throttle.cooling limit (fst (Throttle.throttle func limit stack c)).
Proof.
  intros [Hs Hl].
  destruct (Throttle.inThrottle c) eqn:E.
  { rewrite (throttle_in_cooldown c E). split; [exact Hs|]. simpl. now rewrite E. }
  destruct (func_returns (Throttle.user c)) as [y Hy].
  rewrite (throttle_returns c y stack_room E Hy).
  unfold Throttle.cooling.
  cbn [fst Throttle.invocations Throttle.inThrottle Throttle.resets Throttle.now].
  split.
  - apply spaced_snoc; [exact Hs|]. intros t Ht. rewrite Ht in Hl. tauto.
  - rewrite last_snoc. split; [|lia].
    destruct (last (Throttle.invocations c)); destruct Hl as [H1 H2];
      [rewrite H1|rewrite H2]; reflexivity.
Qed.

Lemma step_cooling ev c c' :
  Throttle.cooling limit c -> Throttle.step func limit stack ev c = Some c' ->
  Throttle.cooling limit c'.
Proof.
  intros Hc. destruct ev as [|ms|]; simpl.
  - intros [= <-]. now apply throttle_cooling.
  - intros [= <-]. destruct Hc as [Hs Hl]. split; [exact Hs|]. simpl.
    destruct (last (Throttle.invocations c)); [|exact Hl].
    destruct (Throttle.inThrottle c); destruct Hl; split; auto; lia.
  - destruct Hc as [Hs Hl].
    destruct (Throttle.resets c) as [|d rest] eqn:Er; [discriminate|].
    destruct (d <=? Throttle.now c) eqn:Ed; [|discriminate].
    intros [= <-]. apply Nat.leb_le in Ed. split; [exact Hs|]. simpl.
    destruct (last (Throttle.invocations c)).
    + destruct (Throttle.inThrottle c); destruct Hl as [Hr Hn]; [|discriminate].
      injection Hr as -> ->. split; [reflexivity|exact Ed].
    + destruct Hl; discriminate.
Qed.

Lemma run_cooling evs : ∀ c c',
  Throttle.cooling limit c -> Throttle.run func limit stack evs c = Some c' ->
  Throttle.cooling limit c'.
Proof.
  induction evs as [|ev evs IH]; intros c c' Hc; simpl.
  - now intros [= <-].
  - destruct (Throttle.step func limit stack ev c) as [c1|] eqn:E; [|discriminate].
    simpl. apply IH. exact (step_cooling ev c c1 Hc E).
Qed.

(** [func] is entered by calls only, and its log only grows. *)
Lemma step_invocations ev c c' :
  Throttle.step func limit stack ev c = Some c' ->
  ∃ l, Throttle.invocations c' = Throttle.invocations c ++ l
       ∧ (ev ≠ Throttle.Call -> l = []).
Proof.
  destruct ev as [|ms|]; simpl.
  - intros [= <-]. destruct (Throttle.inThrottle c) eqn:E.
    + rewrite (throttle_in_cooldown c E). exists []. now rewrite app_nil_r.
    + destruct (throttle_enters c stack_room E) as [l Hl].
      eexists. split; [exact Hl|congruence].
  - intros [= <-]. exists []. simpl. now rewrite app_nil_r.
  - destruct (Throttle.resets c) as [|d rest]; [discriminate|].
    destruct (d <=? Throttle.now c); [|discriminate].
    intros [= <-]. exists []. simpl. now rewrite app_nil_r.
Qed.

(** While the reset timer cannot run yet, nothing enters [func]. *)
Lemma run_in_cooldown evs : ∀ c c' d,
  Throttle.inThrottle c = true -> Throttle.resets c = [d] ->
  Throttle.now c + Throttle.elapsed evs < d ->
  Throttle.run func limit stack evs c = Some c' ->
  Throttle.invocations c' = Throttle.invocations c.
Proof.
  induction evs as [|ev evs IH]; intros c c' d Hin Hr Ht; simpl.
  - now intros [= <-].
  - destruct ev as [|ms|]; simpl in *.
    + rewrite (throttle_in_cooldown c Hin). now apply (IH c c' d).
    + intros H. apply (IH _ c' d) in H; [exact H|exact Hin|exact Hr|simpl; lia].
    + rewrite Hr. destruct (d <=? Throttle.now c) eqn:Ed; [|discriminate].
      apply Nat.leb_le in Ed. lia.
Qed.

Lemma run_burst evs : ∀ c c',
  Throttle.inThrottle c = false -> Throttle.resets c = [] ->
  Throttle.elapsed evs < limit ->
  Throttle.run func limit stack evs c = Some c' ->
  length (Throttle.invocations c')
  = length (Throttle.invocations c) + Nat.min 1 (Throttle.calls evs).
Proof.
  induction evs as [|ev evs IH]; intros c c' Hin Hr Ht; simpl.
  - intros [= <-]. lia.
  - destruct ev as [|ms|]; simpl in *.
    + destruct (func_returns (Throttle.user c)) as [y Hy].
      rewrite (throttle_returns c y stack_room Hin Hy). intros H.
      apply (run_in_cooldown evs _ c' (Throttle.now c + limit)) in H;
        [|reflexivity|simpl; now rewrite Hr|simpl; lia].
      rewrite H. simpl. rewrite length_app. simpl. lia.
    + intros H. apply IH in H; [exact H|exact Hin|exact Hr|lia].
    + rewrite Hr. discriminate.
Qed.

(** In the cooldown the one reset timer is that of the last entry; once it
    has run, the next call enters [func]. *)
Lemma cooling_ends c :
  Throttle.cooling limit c -> Throttle.inThrottle c = true ->
  ∃ t,
    last (Throttle.invocations c) = Some t
    ∧ Throttle.resets c = [t + limit]
    ∧ (∀ ms, Throttle.now c + ms < t + limit ->
         Throttle.run func limit stack [Throttle.Wait ms; Throttle.Fire] c = None)
    ∧ (∀ ms, t + limit <= Throttle.now c + ms ->
         ∃ c', Throttle.run func limit stack
                 [Throttle.Wait ms; Throttle.Fire; Throttle.Call] c = Some c'
               ∧ Throttle.invocations c'
                 = Throttle.invocations c ++ [Throttle.now c + ms]).
Proof.
  intros [_ Hl] Hin. rewrite Hin in Hl.
  destruct (last (Throttle.invocations c)) as [t|]; [|destruct Hl; discriminate].
  destruct Hl as [Hr Ht]. exists t. split; [reflexivity|]. split; [exact Hr|].
  split.
  - intros ms Hms. simpl. rewrite Hr.
    destruct (t + limit <=? Throttle.now c + ms) eqn:E; [|reflexivity].
    apply Nat.leb_le in E. lia.
  - intros ms Hms.
    set (c1 := Throttle.mk false [] (Throttle.now c + ms) (Throttle.user c)
                 (Throttle.invocations c)).
    destruct (func_returns (Throttle.user c)) as [y Hy].
    pose proof (throttle_returns c1 y stack_room eq_refl Hy) as Hc1.
    assert (Hrun : Throttle.run func limit stack
                     [Throttle.Wait ms; Throttle.Fire; Throttle.Call] c
                   = Some (fst (Throttle.throttle func limit stack c1))).
    { simpl. rewrite Hr. apply Nat.leb_le in Hms. now rewrite Hms. }
    rewrite Hrun, Hc1. eexists. split; reflexivity.
Qed.

End ThrottleFacts.

(** C5, amended.  For every function that returns normally whenever it is
    called and does not itself call the wrapper, and every interval: two
    consecutive entries of the function through the wrapper are at least one
    interval apart; a call outside the cooldown enters the function at once
    and starts the cooldown; a call during the cooldown changes nothing; the
    reset timer does not enter the function; a burst that lasts less than one
    interval enters the function once if it contains a call at all (five
    calls within 50 ms of [throttle(fn, 100)]: once); and the cooldown ends:
    its one reset timer is due one interval after the last entry, and once it
    has run the next call, the first of a later burst, enters the function
    again. *)
Theorem throttle_once_per_interval {St : Type} (func : St -> Throttle.Body St)
    (limit stack t0 : nat) (s : St) (evs : list Throttle.Event) (c : Throttle.t) :
  (∀ x, ∃ y, func x = Throttle.Returns y) ->
  0 < stack ->
  Throttle.run func limit stack evs (Throttle.start t0 s) = Some c ->
  Throttle.spaced limit (Throttle.invocations c)
  ∧ (Throttle.inThrottle c = false ->
     Throttle.invocations (fst (Throttle.throttle func limit stack c))
     = Throttle.invocations c ++ [Throttle.now c]
     ∧ Throttle.inThrottle (fst (Throttle.throttle func limit stack c)) = true)
  ∧ (Throttle.inThrottle c = true ->
     Throttle.throttle func limit stack c = (c, false))
  ∧ (∀ c', Throttle.step func limit stack Throttle.Fire c = Some c' ->
           Throttle.invocations c' = Throttle.invocations c)
  ∧ (Throttle.elapsed evs < limit ->
     length (Throttle.invocations c) = Nat.min 1 (Throttle.calls evs))
  ∧ (Throttle.inThrottle c = true ->
     ∃ t,
       last (Throttle.invocations c) = Some t
       ∧ Throttle.resets c = [t + limit]
       ∧ (∀ ms, Throttle.now c + ms < t + limit ->
            Throttle.run func limit stack [Throttle.Wait ms; Throttle.Fire] c = None)
       ∧ (∀ ms, t + limit <= Throttle.now c + ms ->
            ∃ c', Throttle.run func limit stack
                    [Throttle.Wait ms; Throttle.Fire; Throttle.Call] c = Some c'
                  ∧ Throttle.invocations c'
                    = Throttle.invocations c ++ [Throttle.now c + ms])).
Proof.
  intros Hf Hst Hrun.
  assert (H0 : Throttle.cooling limit (Throttle.start t0 s)).
  { split; [exact I|]. simpl. split; reflexivity. }
  pose proof (run_cooling func limit stack Hf Hst evs _ _ H0 Hrun) as Hcool.
  split; [exact (proj1 Hcool)|]. split.
  { intros Hin. destruct (Hf (Throttle.user c)) as [y Hy].
    rewrite (throttle_returns func limit stack c y Hst Hin Hy). split; reflexivity. }
  split; [apply throttle_in_cooldown|].
  split.
  { intros c' Hstep.
    destruct (step_invocations func limit stack Hst Throttle.Fire c c' Hstep)
      as (l & Hl & Hnil).
    rewrite Hl, Hnil by discriminate. apply app_nil_r. }
  split.
  { intros Ht.
    exact (run_burst func limit stack Hf Hst evs (Throttle.start t0 s) c
             eq_refl eq_refl Ht Hrun). }
  exact (cooling_ends func limit stack Hf Hst c Hcool).
Qed.

(** ** The sample pages, initialised and exercised *)

Example page_init_menu : MobileMenu.init page = Return pageMenu page.
Proof. vm_compute. reflexivity. Qed.

Example page_init_faq : FAQ.init page = Return pageFAQ page.
Proof. vm_compute. reflexivity. Qed.

Example page_init_header : HeaderScroll.init page = Return pageHeader page.
Proof. vm_compute. reflexivity. Qed.

Example pageWithoutMenu_init :
  MobileMenu.init pageWithoutMenu = Return (MobileMenu.mk None None []) pageWithoutMenu
  ∧ FAQ.init pageWithoutMenu = Return (FAQ.mk [4]) pageWithoutMenu.
Proof. split; vm_compute; reflexivity. Qed.

(** Sections first, then cards, are registered with the observer; the
    first intersection of a section takes it out again. *)
Example page_observed :
  ∃ w1 w2,
    ScrollAnimations.observeElements page = Return tt w1
    ∧ observed w1 = [7; 10; 8; 9]
    ∧ ScrollAnimations.handleIntersection [ScrollAnimations.mkEntry 7 true] w1
      = Return tt w2
    ∧ observed w2 = [10; 8; 9]
    ∧ map (ScrollAnimations.revealed w2) [7; 8; 9; 10] = [true; false; false; false].
Proof.
  eexists _, _. split; [vm_compute; reflexivity|]. split; [reflexivity|].
  split; [vm_compute; reflexivity|]. split; reflexivity.
Qed.

(** The scenario of the header: 1000 px down, header of 80 px. *)
Example scroll_to_section2 :
  ∃ w', SmoothScrolling.handleAnchorClick pageMenu 5 page = Return tt w'
        ∧ scrollRequests w' = [mkScroll 900 "smooth"]
        ∧ historyEntries w' = [Some "#section2"%string]
        ∧ activeElement w' = Some 7.
Proof. eexists. split; [vm_compute; reflexivity|]. repeat split. Qed.

(** The scenario of the accordion: three questions, the second is clicked. *)
Example click_second_question :
  let w' := FAQ.serve pageFAQ [FAQ.Click 14] page in
  map (FAQ.expanded w') [12; 14; 16] = [false; true; false]
  ∧ map (fun a => (hasClass w' a "active", maxHeight <$> dom w' !! a)) [13; 15; 17]
    = [(false, Some (Some 0%Z)); (true, Some (Some 120%Z)); (false, Some (Some 0%Z))].
Proof. vm_compute. split; reflexivity. Qed.

Example click_second_question_twice :
  let w' := FAQ.serve pageFAQ [FAQ.Click 14; FAQ.Keydown 14 " "] page in
  map (FAQ.expanded w') [12; 14; 16] = [false; false; false].
Proof. vm_compute. reflexivity. Qed.

(** ** Absent elements *)

Lemma closeMenu_without_button this w :
  MobileMenu.mobileMenuButton this = None ->
  MobileMenu.closeMenu this w = Raise TypeError w.
Proof. intros H. unfold MobileMenu.closeMenu. now rewrite H. Qed.

Lemma handleAnchorClick_without_button this w anchor href tgt :
  MobileMenu.mobileMenuButton this = None ->
  attrOf w anchor "href" = Some href ->
  resolveSelector w href = QueryElement tgt ->
  SmoothScrolling.handleAnchorClick this anchor w
  = Raise TypeError (set_defaultPrevented true w).
Proof.
  intros Hb Hhref Hres. unfold SmoothScrolling.handleAnchorClick.
  unfold preventDefault, modify, getAttribute, gets.
  unfold mbind at 1 2 3, Js_bind at 1 2 3.
  change (attrOf (set_defaultPrevented true w) anchor "href")
    with (attrOf w anchor "href").
  rewrite Hhref. simpl SmoothScrolling.selectorText. unfold querySelectorString.
  change (resolveSelector (set_defaultPrevented true w) href)
    with (resolveSelector w href).
  rewrite Hres.
  now rewrite (bind_Raise _ _ _ _ _ (closeMenu_without_button this _ Hb)).
Qed.

Lemma closeOne_without_answer w q :
  siblingOf w q = None ->
  FAQ.closeOne q w
  = Raise TypeError
      (upd q (el_setClassList (tokens_remove "active"))
         (upd q (el_setAttribute "aria-expanded" "false") w)).
Proof.
  intros Hs. unfold FAQ.closeOne. js_unfold. now rewrite Hs.
Qed.

Lemma toggleFAQ_without_answer qs w q :
  siblingOf w q = None ->
  ∃ w', FAQ.toggleFAQ (FAQ.mk (q :: qs)) q w = Raise TypeError w'.
Proof.
  intros Hs. unfold FAQ.toggleFAQ, FAQ.closeAllFAQs.
  unfold nextElementSibling, getAttribute, gets.
  unfold mbind at 1 2, Js_bind at 1 2.
  eexists. apply bind_Raise. simpl.
  apply bind_Raise. now apply closeOne_without_answer.
Qed.

(** C2. The code at the absences the claim names.  On a page without the
    mobile menu, and on one with the trigger but without the container, a
    click on an anchor whose target exists raises a [TypeError] out of
    [closeMenu], before any scroll, focus or history change (in the second
    case after [aria-expanded] was written on the trigger).  On a page whose
    FAQ question has no following sibling, [toggleFAQ] raises a [TypeError]
    out of [closeAllFAQs]. *)
Theorem missing_element_throws :
  (MobileMenu.init pageWithoutMenu
   = Return (MobileMenu.mk None None []) pageWithoutMenu
   ∧ ∃ w', SmoothScrolling.handleAnchorClick (MobileMenu.mk None None []) 1
             pageWithoutMenu
           = Raise TypeError w'
           ∧ defaultPrevented w' = true
           ∧ scrollRequests w' = [] ∧ activeElement w' = None
           ∧ historyEntries w' = [])
  ∧ (MobileMenu.init pageWithoutContainer
     = Return (MobileMenu.mk (Some 1) None []) pageWithoutContainer
     ∧ ∃ w', SmoothScrolling.handleAnchorClick (MobileMenu.mk (Some 1) None []) 2
               pageWithoutContainer
             = Raise TypeError w'
             ∧ attrOf w' 1 "aria-expanded" = Some "false"%string
             ∧ scrollRequests w' = [] ∧ activeElement w' = None
             ∧ historyEntries w' = [])
  ∧ (FAQ.init pageWithoutMenu = Return (FAQ.mk [4]) pageWithoutMenu
     ∧ siblingOf pageWithoutMenu 4 = None
     ∧ ∃ w', FAQ.toggleFAQ (FAQ.mk [4]) 4 pageWithoutMenu = Raise TypeError w'
             ∧ FAQ.expanded w' 4 = false).
Proof.
  split; [|split].
  - split; [vm_compute; reflexivity|].
    eexists; (split; [vm_compute; reflexivity|]); repeat split.
  - split; [vm_compute; reflexivity|].
    eexists; (split; [vm_compute; reflexivity|]); repeat split.
  - split; [vm_compute; reflexivity|]. split; [reflexivity|].
    eexists; (split; [vm_compute; reflexivity|]); repeat split.
Qed.

(** ** Anchors that resolve to nothing *)

Lemma handleAnchorClick_unresolved this w anchor href :
  attrOf w anchor "href" = Some href ->
  resolveSelector w href = QueryNull ->
  SmoothScrolling.handleAnchorClick this anchor w
  = Return tt (set_defaultPrevented true w).
Proof.
  intros Hhref Hres. unfold SmoothScrolling.handleAnchorClick.
  unfold preventDefault, modify, getAttribute, gets.
  unfold mbind at 1 2 3, Js_bind at 1 2 3.
  change (attrOf (set_defaultPrevented true w) anchor "href")
    with (attrOf w anchor "href").
  rewrite Hhref. simpl SmoothScrolling.selectorText. unfold querySelectorString.
  change (resolveSelector (set_defaultPrevented true w) href)
    with (resolveSelector w href).
  now rewrite Hres.
Qed.

Lemma handleAnchorClick_bare_hash this w anchor :
  attrOf w anchor "href" = Some "#"%string ->
  SmoothScrolling.handleAnchorClick this anchor w
  = Raise SyntaxError (set_defaultPrevented true w).
Proof.
  intros Hhref. unfold SmoothScrolling.handleAnchorClick.
  unfold preventDefault, modify, getAttribute, gets.
  unfold mbind at 1 2 3, Js_bind at 1 2 3.
  change (attrOf (set_defaultPrevented true w) anchor "href")
    with (attrOf w anchor "href").
  now rewrite Hhref.
Qed.

Example click_missing_fragment :
  SmoothScrolling.handleAnchorClick pageMenu 19 page
  = Return tt (set_defaultPrevented true page).
Proof. now apply (handleAnchorClick_unresolved pageMenu page 19 "#missing"). Qed.

(** C3. The code at the bare fragment: a click on an anchor with
    [href="#"] suppresses the default navigation and then raises the
    [SyntaxError] of [document.querySelector('#')]. *)
Theorem bare_hash_click_throws :
  attrOf page 6 "href" = Some "#"%string
  ∧ SmoothScrolling.handleAnchorClick pageMenu 6 page
    = Raise SyntaxError (set_defaultPrevented true page).
Proof. split; [reflexivity|]. now apply handleAnchorClick_bare_hash. Qed.

(** ** Focus and the transient [tabindex] *)

Lemma updateFocus_transient w tgt :
  is_Some (dom w !! tgt) -> attrOf w tgt "tabindex" = None ->
  ∃ w1 w2,
    SmoothScrolling.updateFocus tgt w = Return tt w1
    ∧ attrOf w1 tgt "tabindex" = Some "-1"%string
    ∧ last (timers w1) = Some (mkTimer (clock w + 1000) (RemoveTransientTabindex tgt))
    ∧ SmoothScrolling.removeTransientTabindex tgt w1 = Return tt w2
    ∧ attrOf w2 tgt "tabindex" = None.
Proof.
  intros Hex Hnone.
  assert (H1 : attrOf (focusedWorld tgt w) tgt "tabindex" = Some "-1"%string).
  { rewrite (attrOf_dom _ _ tgt "tabindex" (focusedWorld_dom_new tgt w Hnone)).
    exact (attrOf_upd_set_eq w tgt "tabindex" "-1" Hex). }
  eexists _, _. split; [apply updateFocus_runs|]. split; [exact H1|]. split.
  { rewrite focusedWorld_timers. apply last_snoc. }
  unfold SmoothScrolling.removeTransientTabindex. js_unfold. rewrite H1.
  rewrite bool_decide_eq_true_2 by reflexivity.
  split; [reflexivity|].
  unfold attrOf, upd, set_dom. cbn [dom]. rewrite list_lookup_alter_eq.
  destruct (dom (focusedWorld tgt w) !! tgt); [|reflexivity].
  apply lookup_delete_eq.
Qed.

Lemma updateFocus_keeps_tabindex w tgt v :
  attrOf w tgt "tabindex" = Some v -> v ≠ "-1"%string ->
  ∃ w1,
    SmoothScrolling.updateFocus tgt w = Return tt w1
    ∧ attrOf w1 tgt "tabindex" = Some v
    ∧ SmoothScrolling.removeTransientTabindex tgt w1 = Return tt w1.
Proof.
  intros Hv Hne.
  assert (H1 : attrOf (focusedWorld tgt w) tgt "tabindex" = Some v).
  { rewrite (attrOf_dom _ _ tgt "tabindex"
               (focusedWorld_dom_old tgt w ltac:(rewrite Hv; eauto))).
    exact Hv. }
  eexists. split; [apply updateFocus_runs|]. split; [exact H1|].
  unfold SmoothScrolling.removeTransientTabindex. js_unfold. rewrite H1.
  rewrite bool_decide_eq_false_2; [reflexivity|congruence].
Qed.

(** C9. The code at a target that already carries [tabindex="-1"]: the
    click on its anchor leaves the attribute in place, moves the focus and
    sets the timer, and one second later the timer removes the attribute
    that was there before the click. *)
Theorem updateFocus_drops_existing_tabindex :
  attrOf page 18 "href" = Some "#details"%string
  ∧ resolveSelector page "#details" = QueryElement 11
  ∧ attrOf page 11 "tabindex" = Some "-1"%string
  ∧ ∃ w1 w2,
      SmoothScrolling.handleAnchorClick pageMenu 18 page = Return tt w1
      ∧ attrOf w1 11 "tabindex" = Some "-1"%string
      ∧ activeElement w1 = Some 11
      ∧ timers w1 = [mkTimer 1000 (RemoveTransientTabindex 11)]
      ∧ (advance 1000 ;; fireTimer 0) w1 = Return tt w2
      ∧ attrOf w2 11 "tabindex" = None.
Proof.
  split; [reflexivity|]. split; [reflexivity|]. split; [reflexivity|].
  eexists _, _.
  split; [vm_compute; reflexivity|].
  split; [reflexivity|]. split; [reflexivity|]. split; [reflexivity|].
  split; [vm_compute; reflexivity|]. reflexivity.
Qed.

(** ** Where the code leaves the claims *)

(** C4.  The code at a target that lies inside a positioned container.  The
    target is 100 px down its container, which is 900 px down the document:
    1000 px down in all, as [Utils.getOffsetTop] computes; the header is
    80 px high.  The handler reads [target.offsetTop], the offset from the
    container, and asks for a scroll to 0, not to 900. *)
Theorem handleAnchorClick_not_document_offset :
  Utils.getOffsetTop page 11 = 1000%Z
  ∧ offsetTopOf page 11 = 100%Z
  ∧ offsetParentOf page 11 = Some 10
  ∧ SmoothScrolling.headerHeightOf page = 80%Z
  ∧ resolveSelector page "#details" = QueryElement 11
  ∧ ∃ w', SmoothScrolling.handleAnchorClick pageMenu 18 page = Return tt w'
          ∧ scrollRequests w' = [mkScroll 0 "smooth"]
          ∧ ¬ ∃ r, last (scrollRequests w') = Some r
                   ∧ top r = (Utils.getOffsetTop page 11
                              - SmoothScrolling.headerHeightOf page - 20)%Z.
Proof.
  split; [reflexivity|]. split; [reflexivity|]. split; [reflexivity|].
  split; [reflexivity|]. split; [reflexivity|].
  eexists. split; [vm_compute; reflexivity|]. split; [reflexivity|].
  intros (r & Hr & Htop). simpl in Hr. injection Hr as <-.
  vm_compute in Htop. discriminate.
Qed.

(** C5, as written: for every function.  A function that throws leaves the
    wrapper out of its cooldown, and each of five calls within 40 ms enters
    it again. *)
Lemma throttle_throwing_func_reenters :
  ∃ c, Throttle.run failing 100 64
         [Throttle.Call; Throttle.Wait 10; Throttle.Call; Throttle.Wait 10;
          Throttle.Call; Throttle.Wait 10; Throttle.Call; Throttle.Wait 10;
          Throttle.Call]
         (Throttle.start 0 0)
       = Some c
       ∧ Throttle.invocations c = [0; 10; 20; 30; 40]
       ∧ Throttle.user c = 5
       ∧ ¬ Throttle.spaced 100 (Throttle.invocations c).
Proof.
  eexists. split; [reflexivity|]. split; [reflexivity|]. split; [reflexivity|].
  simpl. intros [H _]. lia.
Qed.

(** The same for a function that returns normally but calls the wrapper
    itself: the flag is written only after [func.apply] has returned, so the
    nested calls find it unset; one call from the event loop enters the
    function three times at once and leaves three reset timers. *)
Lemma throttle_reentrant_func_reenters :
  ∃ c, Throttle.run nesting 100 64 [Throttle.Call] (Throttle.start 0 0) = Some c
       ∧ Throttle.invocations c = [0; 0; 0]
       ∧ Throttle.resets c = [100; 100; 100]
       ∧ ¬ Throttle.spaced 100 (Throttle.invocations c).
Proof.
  eexists. split; [reflexivity|]. split; [reflexivity|]. split; [reflexivity|].
  simpl. intros [H _]. lia.
Qed.

(** ** The theorems at work on the sample page *)

Lemma handleScroll_scrolled_iff_witness :
  HeaderScroll.header pageHeader = Some 1
  ∧ is_Some (dom (scrolledTo 11 page) !! 1)
  ∧ pageYOffset (scrolledTo 11 page) = 11%Z
  ∧ hasClass (scrolledTo 11 page) 1 "scrolled" = false
  ∧ ∃ this' w',
      HeaderScroll.handleScroll pageHeader (scrolledTo 11 page) = Return this' w'
      ∧ hasClass w' 1 "scrolled" = true.
Proof.
  assert (H1 : HeaderScroll.header pageHeader = Some 1) by reflexivity.
  assert (H2 : is_Some (dom (scrolledTo 11 page) !! 1)) by (eexists; reflexivity).
  split; [exact H1|]. split; [exact H2|]. split; [reflexivity|]. split; [reflexivity|].
  destruct (handleScroll_scrolled_iff pageHeader (scrolledTo 11 page) 1 H1 H2)
    as (this' & w' & Hr & Hiff & _).
  exists this', w'. split; [exact Hr|].
  apply Hiff. left. simpl. lia.
Defined.

Lemma closeMenu_idempotent_witness :
  MobileMenu.mobileMenuButton pageMenu = Some 2
  ∧ MobileMenu.mobileMenu pageMenu = Some 4
  ∧ is_Some (dom page !! 2)
  ∧ ∃ w',
      MobileMenu.closeMenu pageMenu page = Return tt w'
      ∧ closedConfiguration pageMenu w'
      ∧ MobileMenu.closeMenu pageMenu w' = Return tt w'
      ∧ (∀ n, repeatedly (S n) (MobileMenu.closeMenu pageMenu) page = Return tt w')
      ∧ MobileMenu.onDocumentKeydown pageMenu "Escape" page = Return tt w'
      ∧ MobileMenu.onDocumentKeydown pageMenu "Escape" w' = Return tt w'
      ∧ (∀ target, contains w' 2 target = false ->
           contains w' 4 target = false ->
           MobileMenu.onDocumentClick pageMenu target w' = Return tt w').
Proof.
  assert (H1 : MobileMenu.mobileMenuButton pageMenu = Some 2) by reflexivity.
  assert (H2 : MobileMenu.mobileMenu pageMenu = Some 4) by reflexivity.
  assert (H3 : is_Some (dom page !! 2)) by (eexists; reflexivity).
  split; [exact H1|]. split; [exact H2|]. split; [exact H3|].
  exact (closeMenu_idempotent pageMenu page 2 4 H1 H2 H3).
Defined.

Lemma toggleMenu_twice_reverts_witness :
  MobileMenu.mobileMenuButton pageMenu = Some 2
  ∧ MobileMenu.mobileMenu pageMenu = Some 4
  ∧ is_Some (dom page !! 2)
  ∧ is_Some (dom page !! 4)
  ∧ contains page 2 3 = true
  ∧ attrOf page 2 "aria-expanded" = Some "false"%string
  ∧ hasClass page 4 "active" = false
  ∧ bodyOverflow page = ""%string
  ∧ ∃ w1 w2,
      MobileMenu.clickTrigger pageMenu 3 page = Return tt w1
      ∧ attrOf w1 2 "aria-expanded" = Some "true"%string
      ∧ hasClass w1 4 "active" = true
      ∧ bodyOverflow w1 = "hidden"%string
      ∧ MobileMenu.clickTrigger pageMenu 3 w1 = Return tt w2
      ∧ attrOf w2 2 "aria-expanded" = Some "false"%string
      ∧ hasClass w2 4 "active" = false
      ∧ bodyOverflow w2 = ""%string
      ∧ mirrors w2 2 4 = mirrors page 2 4.
Proof.
  assert (H1 : MobileMenu.mobileMenuButton pageMenu = Some 2) by reflexivity.
  assert (H2 : MobileMenu.mobileMenu pageMenu = Some 4) by reflexivity.
  assert (H3 : is_Some (dom page !! 2)) by (eexists; reflexivity).
  assert (H4 : is_Some (dom page !! 4)) by (eexists; reflexivity).
  assert (H5 : contains page 2 3 = true) by reflexivity.
  assert (H6 : attrOf page 2 "aria-expanded" = Some "false"%string) by reflexivity.
  assert (H7 : hasClass page 4 "active" = false) by reflexivity.
  assert (H8 : bodyOverflow page = ""%string) by reflexivity.
  split; [exact H1|]. split; [exact H2|]. split; [exact H3|]. split; [exact H4|].
  split; [exact H5|]. split; [exact H6|]. split; [exact H7|]. split; [exact H8|].
  exact (toggleMenu_twice_reverts pageMenu page 2 4 3 H1 H2 H3 H4 H5 H6 H7 H8).
Defined.

Lemma throttle_once_per_interval_witness :
  let evs := [Throttle.Call; Throttle.Wait 10; Throttle.Call; Throttle.Wait 10;
              Throttle.Call; Throttle.Wait 10; Throttle.Call; Throttle.Wait 10;
              Throttle.Call] in
  let c := Throttle.mk true [100] 40 1 [0] in
  (∀ x, ∃ y, counting x = Throttle.Returns y)
  ∧ 0 < 64
  ∧ Throttle.run counting 100 64 evs (Throttle.start 0 0) = Some c
  ∧ Throttle.elapsed evs < 100
  ∧ Throttle.calls evs = 5
  ∧ length (Throttle.invocations c) = 1
  ∧ Throttle.spaced 100 (Throttle.invocations c)
  ∧ ∃ c', Throttle.run counting 100 64
            [Throttle.Wait 60; Throttle.Fire; Throttle.Call] c = Some c'
          ∧ Throttle.invocations c' = [0; 100].
Proof.
  intros evs c.
  assert (Hf : ∀ x, ∃ y, counting x = Throttle.Returns y)
    by (intros x; eexists; reflexivity).
  assert (Hst : 0 < 64) by lia.
  assert (Hrun : Throttle.run counting 100 64 evs (Throttle.start 0 0) = Some c)
    by reflexivity.
  assert (Ht : Throttle.elapsed evs < 100) by (simpl; lia).
  destruct (throttle_once_per_interval counting 100 64 0 0 evs c Hf Hst Hrun)
    as (Hs & _ & _ & _ & Hone & Hend).
  split; [exact Hf|]. split; [exact Hst|]. split; [exact Hrun|]. split; [exact Ht|].
  split; [reflexivity|]. split; [exact (Hone Ht)|]. split; [exact Hs|].
  destruct (Hend eq_refl) as (t & Hlast & _ & _ & Hlate).
  injection Hlast as <-.
  exact (Hlate 60 ltac:(simpl; lia)).
Defined.

Lemma reveal_one_shot_witness :
  let evs := [Intersection [ScrollAnimations.mkEntry 7 true];
              TimerRuns 0; TimePasses 100; TimerRuns 0;
              Intersection [ScrollAnimations.mkEntry 7 true;
                            ScrollAnimations.mkEntry 8 false]] in
  is_Some (dom page !! 7)
  ∧ (fun w' => ScrollAnimations.revealed w' 7) <$> worlds evs page
    = [false; true; true; true; true; true]
  ∧ rises ((fun w' => ScrollAnimations.revealed w' 7) <$> worlds evs page) <= 1
  ∧ selectAllIn page 7 ScrollAnimations.gridItemSelector = [8; 9]
  ∧ ∃ w', ScrollAnimations.handleIntersection [ScrollAnimations.mkEntry 7 true] page
          = Return tt w'
          ∧ timers w' = [mkTimer 0 (RevealGridItem 8); mkTimer 100 (RevealGridItem 9)].
Proof.
  intros evs.
  assert (H1 : is_Some (dom page !! 7)) by (eexists; reflexivity).
  destruct (reveal_one_shot page 7 evs H1) as (Hrises & _ & _ & w' & Hrun & Htimers).
  split; [exact H1|]. split; [vm_compute; reflexivity|]. split; [exact Hrises|].
  split; [vm_compute; reflexivity|].
  exists w'. split; [exact Hrun|].
  assert (E : ∃ w0,
             ScrollAnimations.handleIntersection [ScrollAnimations.mkEntry 7 true] page
             = Return tt w0
             ∧ timers w0 = [mkTimer 0 (RevealGridItem 8); mkTimer 100 (RevealGridItem 9)])
    by (eexists; split; [vm_compute; reflexivity|reflexivity]).
  destruct E as (w0 & E1 & E2). rewrite Hrun in E1. injection E1 as <-. exact E2.
Defined.

(** * The controllers, function by function *)

(** ** Repeated updates of one element *)

Lemma upd_compose n f g w : upd n f (upd n g w) = upd n (fun e => f (g e)) w.
Proof. unfold upd, set_dom. simpl. now rewrite list_alter_alter_eq. Qed.

Lemma upd_ext n f g w : (∀ e, f e = g e) -> upd n f w = upd n g w.
Proof.
  intros H. unfold upd, set_dom. simpl.
  rewrite (list_alter_ext f g (dom w) (dom w) n); [reflexivity|auto|reflexivity].
Qed.

Lemma upd_idem n f w : (∀ e, f (f e) = f e) -> upd n f (upd n f w) = upd n f w.
Proof. intros H. rewrite upd_compose. now apply upd_ext. Qed.

(** ** Document order *)

Lemma head_filter_seq (P : nat -> Prop) `{!∀ x, Decision (P x)} n : ∀ s a,
  head (filter P (seq s n)) = Some a ->
  P a ∧ s <= a < s + n ∧ ∀ j, s <= j < a -> ¬ P j.
Proof.
  induction n as [|n IH]; intros s a; [discriminate|].
  simpl. rewrite filter_cons. destruct (decide (P s)) as [Hs|Hs]; simpl.
  - intros [= <-]. split; [exact Hs|]. split; [lia|]. intros j Hj. lia.
  - intros Hh. destruct (IH (S s) a Hh) as (Ha & Hr & Hmin).
    split; [exact Ha|]. split; [lia|]. intros j Hj.
    destruct (decide (j = s)) as [->|]; [exact Hs|]. apply Hmin. lia.
Qed.

Lemma elem_of_selectAll w sel x : x ∈ selectAll w sel ↔ matchesAt w sel x = true.
Proof.
  unfold selectAll. rewrite list_elem_of_filter. split; [tauto|].
  intros H. split; [exact H|]. unfold positions. apply elem_of_seq.
  split; [lia|]. simpl. unfold matchesAt in H.
  destruct (dom w !! x) eqn:E; [|discriminate]. now apply lookup_lt_Some in E.
Qed.

(** [querySelector('.c')] is the first element of the document that bears
    the class. *)
Lemma head_selectAll_class w c s :
  hasClass w s c = true -> (∀ m, m < s -> hasClass w m c = false) ->
  head (selectAll w [ByClass c]) = Some s.
Proof.
  intros Hs Hmin.
  destruct (head (selectAll w [ByClass c])) as [a|] eqn:E.
  - unfold selectAll, positions in E. apply head_filter_seq in E.
    destruct E as (Ha & _ & Hfirst). rewrite matchesAt_class in Ha.
    destruct (Nat.lt_trichotomy a s) as [H|[H|H]]; [|now subst|].
    + rewrite (Hmin a H) in Ha. discriminate.
    + exfalso. apply (Hfirst s); [lia|]. now rewrite matchesAt_class.
  - apply head_None in E.
    assert (Hin : s ∈ selectAll w [ByClass c])
      by (apply elem_of_selectAll; now rewrite matchesAt_class).
    rewrite E in Hin. now apply elem_of_nil in Hin.
Qed.

Lemma selectAll_class_none w c :
  (∀ m, hasClass w m c = false) -> selectAll w [ByClass c] = [].
Proof.
  intros H. destruct (selectAll w [ByClass c]) as [|a l] eqn:E; [reflexivity|].
  assert (Hin : a ∈ selectAll w [ByClass c]) by (rewrite E; apply list_elem_of_here).
  apply elem_of_selectAll in Hin. rewrite matchesAt_class, H in Hin. discriminate.
Qed.

(** ** ScrollToTop *)

Lemma shownButton_idem v e : shownButton v (shownButton v e) = shownButton v e.
Proof.
  unfold shownButton. apply element_ext; simpl; try reflexivity.
  - apply insert_insert_eq.
  - destruct v; [apply tokens_add_add|apply tokens_remove_remove].
Qed.

Lemma toggleVisibility_runs b w :
  ScrollToTop.toggleVisibility (ScrollToTop.mk (Some b)) w
  = Return tt (upd b (shownButton (300 <? pageYOffset w)%Z) w).
Proof.
  unfold ScrollToTop.toggleVisibility. js_unfold. simpl.
  destruct (300 <? pageYOffset w)%Z; simpl; now rewrite upd_compose.
Qed.

(** X1. [ScrollToTop.toggleVisibility], on a page that has the button: the
    button bears the class [visible] exactly when [window.pageYOffset] is
    above 300, [aria-hidden] is ["false"] exactly when it is visible, and a
    second call at the same offset leaves the page as the first one left
    it. *)
Theorem toggleVisibility_threshold (this : ScrollToTop.t) (w : World) (b : nat) :
  ScrollToTop.scrollTopBtn this = Some b ->
  is_Some (dom w !! b) ->
  ∃ w',
    ScrollToTop.toggleVisibility this w = Return tt w'
    ∧ (hasClass w' b "visible" = true ↔ (300 < pageYOffset w)%Z)
    ∧ attrOf w' b "aria-hidden"
      = Some (if hasClass w' b "visible" then "false" else "true")%string
    ∧ ScrollToTop.toggleVisibility this w' = Return tt w'.
Proof.
  destruct this as [r]. simpl. intros -> Hex.
  exists (upd b (shownButton (300 <? pageYOffset w)%Z) w).
  split; [apply toggleVisibility_runs|].
  assert (Hc : hasClass (upd b (shownButton (300 <? pageYOffset w)%Z) w) b "visible"
               = (300 <? pageYOffset w)%Z).
  { rewrite hasClass_alter_eq. destruct Hex as [e ->]. unfold shownButton. simpl.
    destruct (300 <? pageYOffset w)%Z;
      [apply tokens_contains_add|apply tokens_contains_remove]. }
  split; [rewrite Hc; apply Z.ltb_lt|]. split.
  - rewrite Hc. unfold shownButton, attrOf, upd. simpl.
    rewrite list_lookup_alter_eq. destruct Hex as [e ->]. simpl.
    apply lookup_insert_eq.
  - rewrite toggleVisibility_runs.
    change (pageYOffset (upd b _ w)) with (pageYOffset w).
    rewrite upd_idem; [reflexivity|apply shownButton_idem].
Qed.

(** X2. The click listener of the scroll-to-top button never throws.  It
    suppresses the default action, asks for one smooth scroll to the top and
    changes no element.  The focus goes to the first element of the document
    that bears the class [skip-link], provided that element can take the
    focus; if it cannot, the focus stays where it was, and a later
    [skip-link] is never tried; without any [skip-link] the focus stays as
    well. *)
Theorem scrollToTop_focuses_skip_link (this : ScrollToTop.t) (w : World) :
  ∃ w',
    ScrollToTop.onClick this w = Return tt w'
    ∧ defaultPrevented w' = true
    ∧ scrollRequests w' = scrollRequests w ++ [mkScroll 0 "smooth"]
    ∧ dom w' = dom w
    ∧ (∀ s, hasClass w s "skip-link" = true ->
            (∀ m, m < s -> hasClass w m "skip-link" = false) ->
            activeElement w' = if focusable w s then Some s else activeElement w)
    ∧ ((∀ m, hasClass w m "skip-link" = false) -> activeElement w' = activeElement w).
Proof.
  set (w0 := set_scrollRequests (fun l => l ++ [mkScroll 0 "smooth"])
               (set_defaultPrevented true w)).
  assert (Hsel : selectAll w0 [ByClass "skip-link"] = selectAll w [ByClass "skip-link"])
    by reflexivity.
  assert (Hrun : ScrollToTop.onClick this w
                 = match head (selectAll w [ByClass "skip-link"]) with
                   | Some s => Return tt (if focusable w s
                                          then set_activeElement (Some s) w0 else w0)
                   | None => Return tt w0
                   end).
  { unfold ScrollToTop.onClick, ScrollToTop.scrollToTop. js_unfold. fold w0.
    rewrite Hsel. destruct (head (selectAll w [ByClass "skip-link"])); reflexivity. }
  destruct (head (selectAll w [ByClass "skip-link"])) as [a|] eqn:E.
  - exists (if focusable w a then set_activeElement (Some a) w0 else w0).
    split; [exact Hrun|].
    split; [now destruct (focusable w a)|].
    split; [now destruct (focusable w a)|].
    split; [now destruct (focusable w a)|].
    split.
    + intros s Hs Hmin. rewrite (head_selectAll_class w _ s Hs Hmin) in E.
      injection E as <-. now destruct (focusable w s).
    + intros Hnone. rewrite (selectAll_class_none w _ Hnone) in E. discriminate.
  - exists w0. split; [exact Hrun|]. repeat split.
    intros s Hs Hmin. rewrite (head_selectAll_class w _ s Hs Hmin) in E.
    discriminate.
Qed.

(** ** HeaderScroll: repeated scroll events *)

(** X3. [HeaderScroll.handleScroll] is idempotent: it records the offset it
    read in [lastScrollTop], keeps [header] and [scrollThreshold], and a
    second run without a scroll in between returns the same object and the
    same page. *)
Theorem handleScroll_idempotent (this : HeaderScroll.t) (w : World) (h : nat) :
  HeaderScroll.header this = Some h ->
  ∃ this' w',
    HeaderScroll.handleScroll this w = Return this' w'
    ∧ HeaderScroll.lastScrollTop this' = HeaderScroll.currentScrollTop w
    ∧ HeaderScroll.header this' = HeaderScroll.header this
    ∧ HeaderScroll.scrollThreshold this' = HeaderScroll.scrollThreshold this
    ∧ HeaderScroll.handleScroll this' w' = Return this' w'.
Proof.
  destruct this as [hd l t]. simpl. intros ->.
  unfold HeaderScroll.handleScroll. js_unfold. simpl.
  destruct (10 <? HeaderScroll.currentScrollTop w)%Z eqn:E.
  - eexists _, _. split; [reflexivity|]. simpl. repeat split.
    change (HeaderScroll.currentScrollTop (upd h _ w))
      with (HeaderScroll.currentScrollTop w).
    rewrite E. rewrite upd_idem; [reflexivity|].
    intros e. apply element_ext; simpl; try reflexivity. apply tokens_add_add.
  - eexists _, _. split; [reflexivity|]. simpl. repeat split.
    change (HeaderScroll.currentScrollTop (upd h _ w))
      with (HeaderScroll.currentScrollTop w).
    rewrite E. rewrite upd_idem; [reflexivity|].
    intros e. apply element_ext; simpl; try reflexivity. apply tokens_remove_remove.
Qed.

(** ** MobileMenu: the other listeners *)

(** X4. The resize listener of [MobileMenu]: at a window width of 768 or
    more it leaves the menu in the closed configuration, whatever its state
    was; below 768 it changes nothing. *)
Theorem resize_closes_menu (this : MobileMenu.t) (w : World) (btn menu : nat) :
  MobileMenu.mobileMenuButton this = Some btn ->
  MobileMenu.mobileMenu this = Some menu ->
  is_Some (dom w !! btn) ->
  ((768 <= innerWidth w)%Z ->
   ∃ w', MobileMenu.onWindowResize this w = Return tt w'
         ∧ closedConfiguration this w')
  ∧ ((innerWidth w < 768)%Z -> MobileMenu.onWindowResize this w = Return tt w).
Proof.
  destruct this as [b m links]. simpl. intros -> -> Hb.
  unfold MobileMenu.onWindowResize. js_unfold. split; intros Hw.
  - apply Z.leb_le in Hw. rewrite Hw.
    exists (closedWorld btn menu w). split; [apply closeMenu_runs|].
    now apply closedWorld_closed.
  - apply Z.leb_gt in Hw. now rewrite Hw.
Qed.

(** X5. The document click listener of [MobileMenu]: a click whose target is
    the trigger, the menu or anything inside them changes nothing; any other
    click leaves the menu in the closed configuration. *)
Theorem documentClick_inside_outside (this : MobileMenu.t) (w : World)
    (btn menu target : nat) :
  MobileMenu.mobileMenuButton this = Some btn ->
  MobileMenu.mobileMenu this = Some menu ->
  is_Some (dom w !! btn) ->
  (contains w btn target = true ∨ contains w menu target = true ->
   MobileMenu.onDocumentClick this target w = Return tt w)
  ∧ (contains w btn target = false -> contains w menu target = false ->
     ∃ w', MobileMenu.onDocumentClick this target w = Return tt w'
           ∧ closedConfiguration this w').
Proof.
  destruct this as [b m links].
  cbn [MobileMenu.mobileMenuButton MobileMenu.mobileMenu]. intros -> -> Hb.
  unfold MobileMenu.onDocumentClick. js_unfold.
  cbn [MobileMenu.mobileMenuButton MobileMenu.mobileMenu]. split.
  - intros [H|H].
    + now rewrite H.
    + destruct (contains w btn target); [reflexivity|]. now rewrite H.
  - intros H1 H2. rewrite H1, H2.
    exists (closedWorld btn menu w). split; [apply closeMenu_runs|].
    now apply closedWorld_closed.
Qed.

(** X6. The guard of [MobileMenu.init] is enough: when the trigger and the
    container were both found, none of the five listeners that [bindEvents]
    registers ever throws, on any page state, for any click target and any
    key. *)
Theorem bound_listeners_return (this : MobileMenu.t) (w : World)
    (target : nat) (key : string) :
  MobileMenu.bound this = true ->
  (∃ w', MobileMenu.onButtonClick this w = Return tt w')
  ∧ (∃ w', MobileMenu.onLinkClick this w = Return tt w')
  ∧ (∃ w', MobileMenu.onDocumentClick this target w = Return tt w')
  ∧ (∃ w', MobileMenu.onDocumentKeydown this key w = Return tt w')
  ∧ (∃ w', MobileMenu.onWindowResize this w = Return tt w').
Proof.
  destruct this as [[btn|] [menu|] links]; unfold MobileMenu.bound; simpl;
    try discriminate.
  intros _.
  assert (Hc : ∀ w0, ∃ w', MobileMenu.closeMenu
                               (MobileMenu.mk (Some btn) (Some menu) links) w0
                             = Return tt w').
  { intros w0. eexists. apply closeMenu_runs. }
  split.
  { eexists. unfold MobileMenu.onButtonClick, preventDefault, modify.
    unfold mbind, Js_bind. apply toggleMenu_runs. }
  split; [apply Hc|]. split.
  { unfold MobileMenu.onDocumentClick. js_unfold.
    cbn [MobileMenu.mobileMenuButton MobileMenu.mobileMenu].
    destruct (contains w btn target); [eexists; reflexivity|].
    destruct (contains w menu target); [eexists; reflexivity|apply Hc]. }
  split.
  { unfold MobileMenu.onDocumentKeydown.
    destruct (bool_decide (key = "Escape"%string)); [apply Hc|eexists; reflexivity]. }
  unfold MobileMenu.onWindowResize. js_unfold.
  destruct (768 <=? innerWidth w)%Z; [apply Hc|eexists; reflexivity].
Qed.

(** X7. [MobileMenu.toggleMenu] from any state of the page.  After one toggle
    the scroll lock mirrors the ARIA attribute: the body overflow is
    ["hidden"] exactly when [aria-expanded] is ["true"].  After two toggles
    the [active] class of the container and the glyph classes of the icon
    are as they were, while [aria-expanded] reads ["true"] if it did before
    and ["false"] otherwise, and the overflow is ["hidden"] or empty
    accordingly: an absent attribute or a foreign overflow does not come
    back. *)
Theorem toggleMenu_twice_normalises (this : MobileMenu.t) (w : World)
    (btn menu : nat) :
  MobileMenu.mobileMenuButton this = Some btn ->
  MobileMenu.mobileMenu this = Some menu ->
  is_Some (dom w !! btn) ->
  is_Some (dom w !! menu) ->
  let wasExpanded := bool_decide (attrOf w btn "aria-expanded" = Some "true"%string) in
  ∃ w1 w2,
    MobileMenu.toggleMenu this w = Return tt w1
    ∧ (bodyOverflow w1 = "hidden"%string
       ↔ attrOf w1 btn "aria-expanded" = Some "true"%string)
    ∧ MobileMenu.toggleMenu this w1 = Return tt w2
    ∧ mirrors w2 btn menu
      = (Some (stringOfBool wasExpanded),
         hasClass w menu "active",
         (fun i => (hasClass w i "fa-bars", hasClass w i "fa-times")) <$> iconOf w btn,
         if wasExpanded then "hidden"%string else ""%string).
Proof.
  destruct this as [b m links]. simpl. intros -> -> Hb Hm.
  set (w1 := toggledWorld btn menu w).
  pose proof (toggledWorld_similar btn menu w : similar w w1) as Hs1.
  pose proof (toggledWorld_mirrors btn menu w Hb Hm) as M1. fold w1 in M1.
  pose proof (toggledWorld_mirrors btn menu w1
                (similar_exists _ _ _ Hs1 Hb) (similar_exists _ _ _ Hs1 Hm)) as M2.
  unfold mirrors in M1.
  assert (A1 := f_equal (fun x => fst (fst (fst x))) M1).
  assert (C1 := f_equal (fun x => snd (fst (fst x))) M1).
  assert (I1 := f_equal (fun x => snd (fst x)) M1).
  assert (O1 := f_equal snd M1).
  cbn [fst snd] in A1, C1, I1, O1. clear M1.
  rewrite A1, C1, <- (similar_iconOf _ _ btn Hs1) in M2.
  exists w1, (toggledWorld btn menu w1).
  split; [apply toggleMenu_runs|]. split.
  { rewrite A1, O1.
    destruct (bool_decide (attrOf w btn "aria-expanded" = Some "true"%string));
      simpl; split; congruence. }
  split; [apply toggleMenu_runs|].
  rewrite M2. rewrite <- (similar_iconOf _ _ btn Hs1) in I1.
  f_equal; [f_equal; [f_equal|]|].
  - destruct (bool_decide (attrOf w btn "aria-expanded" = Some "true"%string));
      reflexivity.
  - apply negb_involutive.
  - destruct (iconOf w btn) as [i|]; simpl in *; [|reflexivity].
    injection I1 as B1 T1. now rewrite B1, T1, !negb_involutive.
  - destruct (bool_decide (attrOf w btn "aria-expanded" = Some "true"%string));
      reflexivity.
Qed.

(** ** FAQ: what closing leaves *)

Lemma tokens_contains_remove_mono c d l :
  tokens_contains c (tokens_remove d l) = true -> tokens_contains c l = true.
Proof.
  unfold tokens_remove, tokens_contains. intros H.
  apply bool_decide_eq_true in H. apply bool_decide_eq_true.
  apply list_elem_of_filter in H. tauto.
Qed.

Lemma shrinks_refl w : shrinks w w.
Proof. split; [apply similar_refl|]. split; auto. Qed.

Lemma shrinks_trans w1 w2 w3 : shrinks w1 w2 -> shrinks w2 w3 -> shrinks w1 w3.
Proof.
  intros (S1 & A1 & C1) (S2 & A2 & C2).
  split; [exact (similar_trans _ _ _ S1 S2)|]. split; auto.
Qed.

Lemma shrinks_upd_aria w n : shrinks w (upd n (el_setAttribute "aria-expanded" "false") w).
Proof.
  split; [apply similar_upd; apply _|]. split.
  - intros m. unfold attrOf, upd. simpl. rewrite list_lookup_alter.
    destruct (decide (n = m)) as [->|]; [|auto].
    destruct (dom w !! m); simpl; [|discriminate].
    rewrite lookup_insert_eq. discriminate.
  - intros m. now rewrite hasClass_upd_attr.
Qed.

Lemma shrinks_upd_remove w n c : shrinks w (upd n (el_setClassList (tokens_remove c)) w).
Proof.
  split; [apply similar_upd; apply _|]. split.
  - intros m. now rewrite attrOf_upd_class.
  - intros m. destruct (decide (n = m)) as [->|Hne].
    + rewrite hasClass_alter_eq. unfold hasClass.
      destruct (dom w !! m); [|discriminate]. simpl.
      apply tokens_contains_remove_mono.
    + now rewrite hasClass_alter_ne.
Qed.

Lemma shrinks_upd_height w n v : shrinks w (upd n (el_setMaxHeight v) w).
Proof.
  split; [apply similar_upd; apply _|]. split.
  - intros m. now rewrite attrOf_upd_keeps.
  - intros m. now rewrite hasClass_upd_keeps.
Qed.

Lemma closeOne_shrinks q w : shrinks w (world_of (FAQ.closeOne q w)).
Proof.
  destruct (siblingOf w q) as [a|] eqn:Ha.
  - rewrite (closeOne_runs q a w Ha). simpl. unfold collapsedWorld.
    repeat (eapply shrinks_trans;
            [|first [apply shrinks_upd_height | apply shrinks_upd_remove
                    | apply shrinks_upd_aria]]).
    apply shrinks_refl.
  - rewrite (closeOne_without_answer w q Ha). simpl.
    eapply shrinks_trans; [apply shrinks_upd_aria|apply shrinks_upd_remove].
Qed.

Lemma closeAll_shrinks qs : ∀ w, shrinks w (world_of (forEach FAQ.closeOne qs w)).
Proof.
  induction qs as [|q qs IH]; intros w; [apply shrinks_refl|].
  simpl. unfold mbind, Js_bind.
  pose proof (closeOne_shrinks q w) as H1.
  destruct (FAQ.closeOne q w) as [[] w1|e w1]; simpl in *; [|exact H1].
  exact (shrinks_trans _ _ _ H1 (IH w1)).
Qed.

Lemma closeAll_return_paired qs : ∀ w w',
  forEach FAQ.closeOne qs w = Return tt w' ->
  ∀ q, q ∈ qs -> is_Some (siblingOf w q).
Proof.
  induction qs as [|q0 qs IH]; intros w w' Hr q Hq;
    [now apply elem_of_nil in Hq|].
  simpl in Hr. unfold mbind, Js_bind in Hr.
  destruct (siblingOf w q0) as [a|] eqn:Ha.
  - rewrite (closeOne_runs q0 a w Ha) in Hr.
    apply elem_of_cons in Hq. destruct Hq as [->|Hq]; [eauto|].
    rewrite (similar_siblingOf _ _ q (collapsedWorld_similar q0 a w)).
    exact (IH _ _ Hr q Hq).
  - rewrite (closeOne_without_answer w q0 Ha) in Hr. discriminate.
Qed.

(** An element is the next sibling of one element at most. *)
Lemma siblingOf_injective w q1 q2 a :
  siblingOf w q1 = Some a -> siblingOf w q2 = Some a -> q1 = q2.
Proof.
  assert (Hlt : ∀ x y, siblingOf w x = Some a -> siblingOf w y = Some a ->
                       x < y -> False).
  { intros x y Hx Hy Hxy. unfold siblingOf in Hx, Hy.
    destruct (parentOf w x) as [px|] eqn:Px; [|discriminate].
    destruct (parentOf w y) as [py|] eqn:Py; [|discriminate].
    unfold positions in Hx, Hy.
    apply head_filter_seq in Hx. apply head_filter_seq in Hy.
    destruct Hx as ((_ & Pax) & _ & Hminx). destruct Hy as ((Hya & Pay) & _ & _).
    apply (Hminx y); [lia|]. split; [exact Hxy|]. congruence. }
  intros H1 H2. destruct (Nat.lt_trichotomy q1 q2) as [H|[H|H]];
    [exfalso; exact (Hlt q1 q2 H1 H2 H)|exact H|exfalso; exact (Hlt q2 q1 H2 H1 H)].
Qed.

(** ** FAQ: the accordion, mirror by mirror *)

Lemma collapsedWorld_active_question q a w :
  hasClass (collapsedWorld q a w) q "active" = false.
Proof.
  unfold collapsedWorld. rewrite hasClass_upd_keeps by reflexivity.
  destruct (decide (a = q)) as [->|Hne]; [apply hasClass_upd_remove_eq|].
  rewrite hasClass_upd_remove_ne by (now left). apply hasClass_upd_remove_eq.
Qed.

Lemma collapsedWorld_active_answer q a w :
  hasClass (collapsedWorld q a w) a "active" = false.
Proof.
  unfold collapsedWorld. rewrite hasClass_upd_keeps by reflexivity.
  apply hasClass_upd_remove_eq.
Qed.

(** When [closeAllFAQs] returns, no question and no answer bears [active]. *)
Lemma closeAll_active qs : ∀ w w',
  forEach FAQ.closeOne qs w = Return tt w' ->
  ∀ q, q ∈ qs ->
    hasClass w' q "active" = false
    ∧ ∀ a, siblingOf w q = Some a -> hasClass w' a "active" = false.
Proof.
  induction qs as [|q0 qs IH]; intros w w' Hr q Hq;
    [now apply elem_of_nil in Hq|].
  simpl in Hr. unfold mbind, Js_bind in Hr.
  destruct (siblingOf w q0) as [a0|] eqn:Ha0;
    [|rewrite (closeOne_without_answer w q0 Ha0) in Hr; discriminate].
  rewrite (closeOne_runs q0 a0 w Ha0) in Hr.
  pose proof (closeAll_shrinks qs (collapsedWorld q0 a0 w)) as Hsh.
  rewrite Hr in Hsh. simpl in Hsh. destruct Hsh as (_ & _ & Hc).
  assert (Hoff : ∀ m, hasClass (collapsedWorld q0 a0 w) m "active" = false ->
                      hasClass w' m "active" = false).
  { intros m Hm. destruct (hasClass w' m "active") eqn:E; [|reflexivity].
    apply Hc in E. congruence. }
  apply elem_of_cons in Hq. destruct Hq as [->|Hq].
  - split; [apply Hoff, collapsedWorld_active_question|].
    intros a Ha. rewrite Ha0 in Ha. injection Ha as <-.
    apply Hoff, collapsedWorld_active_answer.
  - destruct (IH _ _ Hr q Hq) as [H1 H2]. split; [exact H1|].
    intros a Ha. apply H2.
    now rewrite <- (similar_siblingOf _ _ q (collapsedWorld_similar q0 a0 w)).
Qed.

Lemma expandedWorld_active_other q a w m :
  m ≠ q -> m ≠ a ->
  hasClass (expandedWorld q a w) m "active" = hasClass w m "active".
Proof.
  intros Hq Ha. unfold expandedWorld. rewrite hasClass_upd_keeps by reflexivity.
  rewrite !hasClass_upd_add_ne by (left; congruence). apply hasClass_upd_attr.
Qed.

Lemma answersApart_similar this w w' :
  similar w w' -> answersApart this w -> answersApart this w'.
Proof.
  intros Hs Hp q a Hq Ha. apply (Hp q a Hq).
  now rewrite (similar_siblingOf _ _ q Hs).
Qed.


(** What the accordion shows, it shows in every mirror. *)
Lemma accordionShows_marks this w o q :
  accordionShows this w o -> q ∈ FAQ.faqQuestions this ->
  ariaOpen w q = true ∨ questionActive w q = true ∨ answerActive w q = true ->
  o = Some q.
Proof.
  intros Hshow Hq Hmark. specialize (Hshow q Hq).
  destruct (bool_decide (o = Some q)) eqn:E; [now apply bool_decide_eq_true in E|].
  exfalso. unfold collapsed in Hshow.
  apply andb_prop in Hshow. destruct Hshow as [Hshow H3].
  apply andb_prop in Hshow. destruct Hshow as [H1 H2].
  apply bool_decide_eq_true in H1.
  unfold ariaOpen, questionActive, answerActive in Hmark.
  destruct Hmark as [H|[H|H]].
  - apply bool_decide_eq_true in H. congruence.
  - rewrite H in H2. discriminate.
  - destruct (siblingOf w q); [|discriminate]. rewrite H in H3. discriminate.
Qed.

Lemma accordionShows_atMostOne this w o (mark : World -> nat -> bool) :
  mark = ariaOpen ∨ mark = questionActive ∨ mark = answerActive ->
  accordionShows this w o -> atMostOne (mark w) (FAQ.faqQuestions this).
Proof.
  intros Hm Hshow q1 q2 H1 H2 E1 E2.
  assert (Ho : ∀ q, q ∈ FAQ.faqQuestions this -> mark w q = true -> o = Some q).
  { intros q Hq E. apply (accordionShows_marks this w o q Hshow Hq).
    destruct Hm as [ -> | [ -> | -> ] ]; auto. }
  pose proof (Ho q1 H1 E1) as O1. pose proof (Ho q2 H2 E2) as O2. congruence.
Qed.


(** What one call of [toggleFAQ] leaves on a page that keeps to the
    markup. *)
Lemma toggleFAQ_shows this w q :
  FAQ.paired this w -> answersApart this w -> q ∈ FAQ.faqQuestions this ->
  ∃ w', FAQ.toggleFAQ this q w = Return tt w'
        ∧ similar w w'
        ∧ accordionShows this w'
            (if bool_decide (attrOf w q "aria-expanded" = Some "true"%string)
             then None else Some q).
Proof.
  intros Hp Hap Hq.
  destruct (closeAll_runs (FAQ.faqQuestions this) w Hp) as (wc & Hrun & Hs & Hattr).
  destruct (Hp q Hq) as [a Ha].
  assert (Hall : ∀ q', q' ∈ FAQ.faqQuestions this -> collapsed wc q' = true).
  { intros q' Hq'. destruct (closeAll_active _ _ _ Hrun q' Hq') as [H1 H2].
    unfold collapsed. rewrite (Hattr q') by now left. rewrite H1. simpl.
    rewrite <- (similar_siblingOf _ _ q' Hs).
    destruct (siblingOf w q') as [a'|] eqn:Ha'; [|reflexivity].
    now rewrite (H2 a'). }
  unfold FAQ.toggleFAQ, FAQ.closeAllFAQs.
  unfold nextElementSibling, getAttribute, gets.
  unfold mbind at 1 2, Js_bind at 1 2. rewrite Ha.
  rewrite (bind_Return _ _ _ _ _ Hrun).
  destruct (bool_decide (attrOf w q "aria-expanded" = Some "true"%string)) eqn:E;
    simpl.
  - exists wc. split; [reflexivity|]. split; [exact Hs|].
    intros q' Hq'. rewrite bool_decide_eq_false_2 by discriminate. now apply Hall.
  - exists (expandedWorld q a wc). split.
    { unfold FAQ.animateHeight. js_unfold. reflexivity. }
    pose proof (expandedWorld_similar q a wc) as Hse.
    split; [exact (similar_trans _ _ _ Hs Hse)|].
    intros q' Hq'. destruct (decide (q' = q)) as [->|Hne].
    + rewrite bool_decide_eq_true_2 by reflexivity.
      apply expandedWorld_expanded. now rewrite <- (similar_siblingOf w wc q Hs).
    + rewrite bool_decide_eq_false_2 by congruence.
      assert (Hqa : q' ≠ a).
      { intros ->. exact (Hap q a Hq Ha Hq'). }
      destruct (closeAll_active _ _ _ Hrun q' Hq') as [H1 H2].
      unfold collapsed.
      rewrite expandedWorld_aria_other by exact Hne.
      rewrite (Hattr q') by now left.
      rewrite expandedWorld_active_other by assumption. rewrite H1. simpl.
      rewrite <- (similar_siblingOf _ _ q' (similar_trans _ _ _ Hs Hse)).
      destruct (siblingOf w q') as [a'|] eqn:Ha'; [|reflexivity].
      rewrite expandedWorld_active_other.
      * now rewrite (H2 a').
      * intros ->. exact (Hap q' q Hq' Ha' Hq).
      * intros ->. apply Hne. exact (siblingOf_injective w q' q a Ha' Ha).
Qed.






Lemma atMostOne_shrinks this w w' (mark : World -> nat -> bool) :
  mark = ariaOpen ∨ mark = questionActive ∨ mark = answerActive ->
  shrinks w w' ->
  atMostOne (mark w) (FAQ.faqQuestions this) ->
  atMostOne (mark w') (FAQ.faqQuestions this).
Proof.
  intros Hm (Hs & Ha & Hc) H q1 q2 H1 H2 E1 E2.
  assert (Hback : ∀ q, mark w' q = true -> mark w q = true).
  { intros q. destruct Hm as [ -> | [ -> | -> ] ].
    - unfold ariaOpen. intros E. apply bool_decide_eq_true in E.
      apply bool_decide_eq_true. now apply Ha.
    - apply Hc.
    - unfold answerActive. rewrite <- (similar_siblingOf _ _ q Hs).
      destruct (siblingOf w q); [apply Hc|discriminate]. }
  apply (H q1 q2 H1 H2); now apply Hback.
Qed.

(** A listener has either only collapsed, or left the accordion showing one
    pair or none. *)
Lemma toggleFAQ_shrinks_or_shows this q w :
  answersApart this w -> q ∈ FAQ.faqQuestions this ->
  similar w (world_of (FAQ.toggleFAQ this q w))
  ∧ (shrinks w (world_of (FAQ.toggleFAQ this q w))
     ∨ ∃ o, accordionShows this (world_of (FAQ.toggleFAQ this q w)) o).
Proof.
  intros Hap Hq.
  pose proof (closeAll_shrinks (FAQ.faqQuestions this) w) as Hsh.
  destruct (forEach FAQ.closeOne (FAQ.faqQuestions this) w) as [[] wc|e wc] eqn:Hr.
  - destruct (toggleFAQ_shows this w q (closeAll_return_paired _ _ _ Hr) Hap Hq)
      as (w' & Hrun & Hs & Hshow).
    rewrite Hrun. simpl. split; [exact Hs|]. right. eauto.
  - assert (Hrun : FAQ.toggleFAQ this q w = Raise e wc).
    { unfold FAQ.toggleFAQ, FAQ.closeAllFAQs.
      unfold nextElementSibling, getAttribute, gets.
      unfold mbind at 1 2, Js_bind at 1 2. now apply bind_Raise. }
    rewrite Hrun. simpl in *. split; [exact (proj1 Hsh)|now left].
Qed.

Lemma listener_shrinks_or_shows this ev w :
  answersApart this w -> questionOf ev ∈ FAQ.faqQuestions this ->
  similar w (world_of (FAQ.listener this ev w))
  ∧ (shrinks w (world_of (FAQ.listener this ev w))
     ∨ ∃ o, accordionShows this (world_of (FAQ.listener this ev w)) o).
Proof.
  intros Hap Hq.
  assert (Hact : ∀ q, q ∈ FAQ.faqQuestions this ->
            similar w (world_of ((preventDefault ;; FAQ.toggleFAQ this q) w))
            ∧ (shrinks w (world_of ((preventDefault ;; FAQ.toggleFAQ this q) w))
               ∨ ∃ o, accordionShows this
                        (world_of ((preventDefault ;; FAQ.toggleFAQ this q) w)) o)).
  { intros q Hin. set (w0 := set_defaultPrevented true w).
    assert (Hap0 : answersApart this w0)
      by exact (answersApart_similar this w w0 (similar_refl w) Hap).
    assert (H0 : shrinks w w0).
    { split; [exact (similar_refl w)|]. split; auto. }
    destruct (toggleFAQ_shrinks_or_shows this q w0 Hap0 Hin) as [Hs [H|H]].
    - split; [exact Hs|]. left. exact (shrinks_trans _ _ _ H0 H).
    - split; [exact Hs|]. now right. }
  destruct ev as [q|q key]; simpl in *.
  - now apply Hact.
  - destruct (bool_decide (key = "Enter"%string) || bool_decide (key = " "%string));
      [now apply Hact|].
    simpl. split; [apply similar_refl|]. left. apply shrinks_refl.
Qed.

(** X8. The accordion on a page that has lost answers.  On every page where
    no answer is itself a question, also one where a question has no answer
    at all and the listeners end in a [TypeError], and for every sequence of
    clicks and key presses on the questions: each mirror keeps marking at
    most one pair if it did so at the start; this holds for
    [aria-expanded="true"], for the [active] class of the questions and for
    the [active] class of the answers, each on its own. *)
Theorem faq_invariant_survives_errors (this : FAQ.t) (w : World)
    (evs : list FAQ.Event) :
  answersApart this w ->
  Forall (fun ev => questionOf ev ∈ FAQ.faqQuestions this) evs ->
  (atMostOne (ariaOpen w) (FAQ.faqQuestions this) ->
   atMostOne (ariaOpen (FAQ.serve this evs w)) (FAQ.faqQuestions this))
  ∧ (atMostOne (questionActive w) (FAQ.faqQuestions this) ->
     atMostOne (questionActive (FAQ.serve this evs w)) (FAQ.faqQuestions this))
  ∧ (atMostOne (answerActive w) (FAQ.faqQuestions this) ->
     atMostOne (answerActive (FAQ.serve this evs w)) (FAQ.faqQuestions this)).
Proof.
  intros Hap Hevs. revert w Hap.
  induction Hevs as [|ev evs Hev Hevs IH]; intros w Hap; [simpl; auto|].
  destruct (listener_shrinks_or_shows this ev w Hap Hev) as [Hs Hcase].
  destruct (IH _ (answersApart_similar this _ _ Hs Hap)) as (IH1 & IH2 & IH3).
  simpl. destruct Hcase as [Hsh|[o Ho]].
  - split; [|split]; intros H;
      [apply IH1|apply IH2|apply IH3];
      (eapply atMostOne_shrinks; [|exact Hsh|exact H]); auto.
  - split; [|split]; intros _;
      [apply IH1|apply IH2|apply IH3];
      (eapply accordionShows_atMostOne; [|exact Ho]); auto.
Qed.

(** ** FAQ: the heights of the answers *)



Lemma heightOf_upd_keeps w n f m :
  (∀ e, maxHeight (f e) = maxHeight e) -> heightOf (upd n f w) m = heightOf w m.
Proof.
  intros Hf. unfold heightOf, upd. simpl. rewrite list_lookup_alter.
  destruct (decide (n = m)) as [->|]; [|reflexivity].
  destruct (dom w !! m); simpl; [|reflexivity]. now rewrite Hf.
Qed.

Lemma heightOf_upd_set w n g m :
  heightOf (upd n (fun e => el_setMaxHeight (g e) e) w) m
  = if decide (n = m) then dom w !! m ≫= g else heightOf w m.
Proof.
  unfold heightOf, upd. simpl. rewrite list_lookup_alter.
  destruct (decide (n = m)) as [->|]; [|reflexivity].
  now destruct (dom w !! m).
Qed.

Lemma heightOf_collapsed q a w m :
  is_Some (dom w !! a) ->
  m = a ∨ heightOf w m = Some 0%Z ->
  heightOf (collapsedWorld q a w) m = Some 0%Z.
Proof.
  intros Hex Hm. unfold collapsedWorld.
  rewrite (heightOf_upd_set _ a (fun _ => Some 0%Z) m).
  destruct (decide (a = m)) as [<-|Hne].
  - assert (H3 : is_Some (dom (upd a (el_setClassList (tokens_remove "active"))
                     (upd q (el_setClassList (tokens_remove "active"))
                        (upd q (el_setAttribute "aria-expanded" "false") w))) !! a))
      by now rewrite !upd_exists.
    destruct H3 as [e' ->]. reflexivity.
  - rewrite !heightOf_upd_keeps by reflexivity. destruct Hm; congruence.
Qed.

Lemma closeAll_heights qs : ∀ w w',
  forEach FAQ.closeOne qs w = Return tt w' ->
  ∀ m, (∃ q, q ∈ qs ∧ siblingOf w q = Some m) ∨ heightOf w m = Some 0%Z ->
       heightOf w' m = Some 0%Z.
Proof.
  induction qs as [|q0 qs IH]; intros w w' Hr m Hm.
  - injection Hr as <-. destruct Hm as [(q & Hq & _)|Hm]; [|exact Hm].
    now apply elem_of_nil in Hq.
  - simpl in Hr. unfold mbind, Js_bind in Hr.
    destruct (siblingOf w q0) as [a|] eqn:Ha;
      [|rewrite (closeOne_without_answer w q0 Ha) in Hr; discriminate].
    rewrite (closeOne_runs q0 a w Ha) in Hr.
    pose proof (collapsedWorld_similar q0 a w) as Hs.
    apply (IH _ _ Hr).
    destruct Hm as [(q & Hq & Hqm)|Hm].
    + apply elem_of_cons in Hq. destruct Hq as [->|Hq].
      * right. apply heightOf_collapsed;
          [now apply siblingOf_sibling_exists in Ha|left; congruence].
      * left. exists q. split; [exact Hq|].
        now rewrite <- (similar_siblingOf _ _ q Hs).
    + right. apply heightOf_collapsed;
        [now apply siblingOf_sibling_exists in Ha|now right].
Qed.

Lemma similar_scrollHeightOf w w' n :
  similar w w' -> scrollHeightOf w n = scrollHeightOf w' n.
Proof.
  intros H. unfold scrollHeightOf. pose proof (similar_lookup _ _ n H) as E.
  destruct (dom w !! n), (dom w' !! n); unfold skeleton in *; simpl in *;
    congruence.
Qed.

(** X9. The height mirror of the accordion.  On a page where every question
    is followed by its answer, a click on a question sets
    [style.maxHeight] of every answer: to its own [scrollHeight] for the
    answer of the clicked question if that question was collapsed, and to 0
    for every other answer, the clicked one's included if it was
    expanded. *)
Theorem toggleFAQ_heights (this : FAQ.t) (w : World) (q : nat) :
  FAQ.paired this w ->
  q ∈ FAQ.faqQuestions this ->
  ∃ w',
    FAQ.toggleFAQ this q w = Return tt w'
    ∧ ∀ q' a', q' ∈ FAQ.faqQuestions this -> siblingOf w q' = Some a' ->
        heightOf w' a'
        = Some (if bool_decide (q' = q)
                   && negb (bool_decide
                              (attrOf w q "aria-expanded" = Some "true"%string))
                then scrollHeightOf w a' else 0%Z).
Proof.
  intros Hp Hq.
  destruct (closeAll_runs (FAQ.faqQuestions this) w Hp) as (wc & Hrun & Hs & _).
  destruct (Hp q Hq) as [a Ha].
  assert (Hz : ∀ q' a', q' ∈ FAQ.faqQuestions this -> siblingOf w q' = Some a' ->
                        heightOf wc a' = Some 0%Z).
  { intros q' a' Hq' Ha'. apply (closeAll_heights _ _ _ Hrun). left. eauto. }
  unfold FAQ.toggleFAQ, FAQ.closeAllFAQs.
  unfold nextElementSibling, getAttribute, gets.
  unfold mbind at 1 2, Js_bind at 1 2. rewrite Ha.
  rewrite (bind_Return _ _ _ _ _ Hrun).
  destruct (bool_decide (attrOf w q "aria-expanded" = Some "true"%string));
    cbn [negb].
  - exists wc. split; [reflexivity|]. intros q' a' Hq' Ha'.
    rewrite andb_false_r. now apply (Hz q').
  - exists (expandedWorld q a wc). split.
    { unfold FAQ.animateHeight. js_unfold. reflexivity. }
    intros q' a' Hq' Ha'. rewrite andb_true_r. unfold expandedWorld.
    rewrite (heightOf_upd_set _ a (fun e => Some (scrollHeight e)) a').
    destruct (decide (a = a')) as [<-|Hne].
    + rewrite (siblingOf_injective w q' q a Ha' Ha).
      rewrite bool_decide_eq_true_2 by reflexivity.
      set (W := upd a (el_setClassList (tokens_add "active"))
                  (upd q (el_setClassList (tokens_add "active"))
                     (upd q (el_setAttribute "aria-expanded" "true") wc))).
      assert (HsW : similar w W).
      { eapply similar_trans; [exact Hs|].
        repeat (eapply similar_trans; [|apply similar_upd; apply _]).
        apply similar_refl. }
      rewrite (similar_scrollHeightOf w W a HsW).
      destruct (similar_exists w W a HsW (siblingOf_sibling_exists w q a Ha))
        as [e' He'].
      unfold scrollHeightOf. rewrite He'. reflexivity.
    + rewrite !heightOf_upd_keeps by reflexivity.
      rewrite bool_decide_eq_false_2; [now apply (Hz q')|].
      intros ->. congruence.
Qed.

(** ** SmoothScrolling: the other effects of a click *)

Lemma resolveSelector_absent w name :
  isName name = true -> selectAll w [ById name] = [] ->
  resolveSelector w (String "#" name) = QueryNull.
Proof.
  intros Hn Hnone. unfold resolveSelector.
  destruct name as [|c name]; [discriminate|]. now rewrite Hn, Hnone.
Qed.

(** X10. A click on an anchor whose fragment is a well-formed identifier
    that no element of the page carries as its [id] only suppresses the
    default navigation: nothing is thrown, whether the page has a mobile menu
    or not, and no element, scroll position, focus, history entry or timer
    changes. *)
Theorem anchor_without_target_is_inert (this : MobileMenu.t) (w : World)
    (anchor : nat) (name : string) :
  attrOf w anchor "href" = Some (String "#" name) ->
  isName name = true ->
  selectAll w [ById name] = [] ->
  SmoothScrolling.handleAnchorClick this anchor w
  = Return tt (set_defaultPrevented true w).
Proof.
  intros Hhref Hn Hnone.
  apply (handleAnchorClick_unresolved this w anchor (String "#" name) Hhref).
  now apply resolveSelector_absent.
Qed.

Ltac focused_cases tgt w :=
  unfold focusedWorld;
  destruct (bool_decide (is_Some (attrOf w tgt "tabindex")));
  match goal with |- context [focusable ?w1 tgt] => destruct (focusable w1 tgt) end.

Lemma focusedWorld_similar tgt w : similar w (focusedWorld tgt w).
Proof.
  focused_cases tgt w;
    first [ exact (similar_refl w)
          | exact (similar_upd (el_setAttribute "tabindex" "-1") tgt w) ].
Qed.

Lemma focusedWorld_attr tgt w m k :
  k ≠ "tabindex"%string -> attrOf (focusedWorld tgt w) m k = attrOf w m k.
Proof.
  intros Hk. destruct (attrOf w tgt "tabindex") eqn:E.
  - apply attrOf_dom, focusedWorld_dom_old. rewrite E. eauto.
  - rewrite (attrOf_dom _ _ m k (focusedWorld_dom_new tgt w E)).
    apply attrOf_upd_set_ne. right. congruence.
Qed.

Lemma focusedWorld_hasClass tgt w m c :
  hasClass (focusedWorld tgt w) m c = hasClass w m c.
Proof.
  destruct (attrOf w tgt "tabindex") eqn:E.
  - apply hasClass_dom, focusedWorld_dom_old. rewrite E. eauto.
  - rewrite (hasClass_dom _ _ m c (focusedWorld_dom_new tgt w E)).
    exact (hasClass_upd_attr w tgt "tabindex" "-1" m c).
Qed.

Lemma focusedWorld_bodyOverflow tgt w :
  bodyOverflow (focusedWorld tgt w) = bodyOverflow w.
Proof. focused_cases tgt w; reflexivity. Qed.

Lemma focusedWorld_defaultPrevented tgt w :
  defaultPrevented (focusedWorld tgt w) = defaultPrevented w.
Proof. focused_cases tgt w; reflexivity. Qed.

Lemma focusedWorld_historyEntries tgt w :
  historyEntries (focusedWorld tgt w) = historyEntries w.
Proof. focused_cases tgt w; reflexivity. Qed.

(** Whether an element can take the focus depends on its tag and on its
    [tabindex], [href], [disabled] and [type] attributes only. *)
Lemma focusable_upd_class n f w m :
  focusable (upd n (el_setClassList f) w) m = focusable w m.
Proof.
  unfold focusable, upd. simpl. rewrite list_lookup_alter.
  destruct (decide (n = m)) as [->|]; [|reflexivity].
  now destruct (dom w !! m).
Qed.

Lemma focusable_upd_aria n v w m :
  focusable (upd n (el_setAttribute "aria-expanded" v) w) m = focusable w m.
Proof.
  unfold focusable, upd. simpl. rewrite list_lookup_alter.
  destruct (decide (n = m)) as [->|]; [|reflexivity].
  destruct (dom w !! m) as [e|]; [|reflexivity]. simpl.
  unfold focusableElement. simpl.
  now rewrite !lookup_insert_ne by discriminate.
Qed.

Lemma closedWorld_focusable btn menu w m :
  focusable (closedWorld btn menu w) m = focusable w m.
Proof.
  unfold closedWorld. destruct (iconOf _ btn);
    change (focusable (set_bodyOverflow "" ?x) m) with (focusable x m);
    now rewrite ?focusable_upd_class, focusable_upd_aria.
Qed.

Lemma closedWorld_tabindex btn menu w m :
  attrOf (closedWorld btn menu w) m "tabindex" = attrOf w m "tabindex".
Proof.
  unfold closedWorld. destruct (iconOf _ btn); rewrite attrOf_bodyOverflow;
    rewrite !attrOf_upd_class; apply attrOf_upd_set_ne; right; discriminate.
Qed.

Lemma closedConfiguration_transfer this w w' :
  similar w w' ->
  (∀ m, attrOf w' m "aria-expanded" = attrOf w m "aria-expanded") ->
  (∀ m c, hasClass w' m c = hasClass w m c) ->
  bodyOverflow w' = bodyOverflow w ->
  closedConfiguration this w -> closedConfiguration this w'.
Proof.
  intros Hs Ha Hc Ho (btn & menu & Hb & Hm & H1 & H2 & H3 & H4).
  exists btn, menu. split; [exact Hb|]. split; [exact Hm|].
  split; [now rewrite Ha|]. split; [now rewrite Hc|]. split; [|now rewrite Ho].
  intros i Hi. rewrite <- (similar_iconOf _ _ btn Hs) in Hi.
  rewrite !Hc. now apply H3.
Qed.

Lemma handleAnchorClick_world btn mn links w anchor tgt href :
  attrOf w anchor "href" = Some href ->
  resolveSelector w href = QueryElement tgt ->
  SmoothScrolling.handleAnchorClick (MobileMenu.mk (Some btn) (Some mn) links)
    anchor w = Return tt (clickedWorld btn mn tgt href w).
Proof.
  intros Hhref Hres.
  assert (Hne : bool_decide (Some href = Some "#"%string) = false).
  { apply bool_decide_eq_false. intros [= ->]. discriminate. }
  set (w0 := set_defaultPrevented true w).
  set (wc := closedWorld btn mn w0).
  assert (Hq : querySelectorString href w0 = Return (Some tgt) w0).
  { unfold querySelectorString.
    change (resolveSelector w0 href) with (resolveSelector w href).
    now rewrite Hres. }
  assert (Hs : similar w wc) by exact (closedWorld_similar btn mn w0).
  assert (Htop : scrollTarget wc tgt = scrollTarget w tgt).
  { unfold scrollTarget. rewrite <- (similar_offsetTopOf w wc tgt Hs).
    unfold wc. rewrite closedWorld_headerHeight. reflexivity. }
  unfold SmoothScrolling.handleAnchorClick.
  unfold preventDefault, modify, getAttribute, gets.
  unfold mbind at 1 2 3, Js_bind at 1 2 3.
  change (attrOf (set_defaultPrevented true w) anchor "href")
    with (attrOf w anchor "href").
  rewrite Hhref. simpl SmoothScrolling.selectorText. fold w0. rewrite Hq.
  rewrite (bind_Return _ _ _ _ _ (closeMenu_runs btn mn links w0)). fold wc.
  unfold scrollTo, modify.
  unfold mbind at 1 2 3, Js_bind at 1 2 3.
  fold (scrollTarget wc tgt). rewrite Htop.
  rewrite (bind_Return _ _ _ _ _ (updateFocus_runs tgt _)).
  rewrite Hne. reflexivity.
Qed.

(** X11. What a click on a resolved anchor does besides scrolling, on a page
    with the mobile menu: the default navigation is suppressed, the menu is
    left in its closed configuration, the target carries a [tabindex], the
    fragment is pushed on the history, and one timer is set, a second ahead,
    for the removal of the [tabindex].  The focus is on the target, except
    when the target carried a [tabindex] before the click and still cannot
    take the focus: then the focus stays where it was. *)
Theorem handleAnchorClick_effects (menu : MobileMenu.t) (w : World)
    (anchor tgt btn mn : nat) (href : string) :
  MobileMenu.mobileMenuButton menu = Some btn ->
  MobileMenu.mobileMenu menu = Some mn ->
  is_Some (dom w !! btn) ->
  is_Some (dom w !! tgt) ->
  attrOf w anchor "href" = Some href ->
  resolveSelector w href = QueryElement tgt ->
  ∃ w',
    SmoothScrolling.handleAnchorClick menu anchor w = Return tt w'
    ∧ defaultPrevented w' = true
    ∧ closedConfiguration menu w'
    ∧ activeElement w'
      = (if bool_decide (is_Some (attrOf w tgt "tabindex")) && negb (focusable w tgt)
         then activeElement w else Some tgt)
    ∧ is_Some (attrOf w' tgt "tabindex")
    ∧ historyEntries w' = historyEntries w ++ [Some href]
    ∧ timers w' = timers w ++ [mkTimer (clock w + 1000) (RemoveTransientTabindex tgt)].
Proof.
  destruct menu as [b m links].
  cbn [MobileMenu.mobileMenuButton MobileMenu.mobileMenu].
  intros -> -> Hb Ht Hhref Hres.
  exists (clickedWorld btn mn tgt href w).
  split; [now apply handleAnchorClick_world|].
  set (w0 := set_defaultPrevented true w).
  set (wc := closedWorld btn mn w0).
  set (ws := set_scrollRequests (fun l => l ++ [scrollTarget w tgt]) wc).
  assert (Hwc : closedConfiguration (MobileMenu.mk (Some btn) (Some mn) links) wc)
    by exact (closedWorld_closed btn mn links w0 Hb).
  assert (Hs : similar w wc) by exact (closedWorld_similar btn mn w0).
  assert (Hcl : clock wc = clock w /\ timers wc = timers w
                /\ historyEntries wc = historyEntries w
                /\ defaultPrevented wc = true /\ activeElement wc = activeElement w).
  { unfold wc. rewrite closedWorld_unfold. repeat split. }
  destruct Hcl as (Hclock & Htimers & Hhist & Hprev & Hact).
  assert (Htab : attrOf ws tgt "tabindex" = attrOf w tgt "tabindex")
    by exact (closedWorld_tabindex btn mn w0 tgt).
  assert (Hfoc : focusable ws tgt = focusable w tgt)
    by exact (closedWorld_focusable btn mn w0 tgt).
  assert (Hexs : is_Some (dom ws !! tgt)) by exact (similar_exists w wc tgt Hs Ht).
  assert (Hf : clickedWorld btn mn tgt href w
               = set_historyEntries (fun l => l ++ [Some href]) (focusedWorld tgt ws))
    by reflexivity.
  rewrite Hf.
  split.
  { cbn [defaultPrevented set_historyEntries].
    rewrite focusedWorld_defaultPrevented. exact Hprev. }
  split.
  { apply (closedConfiguration_transfer _ wc); [| | | |exact Hwc].
    - exact (focusedWorld_similar tgt ws).
    - intros k. exact (focusedWorld_attr tgt ws k "aria-expanded" ltac:(discriminate)).
    - intros k c. exact (focusedWorld_hasClass tgt ws k c).
    - exact (focusedWorld_bodyOverflow tgt ws). }
  split.
  { cbn [activeElement set_historyEntries].
    destruct (attrOf w tgt "tabindex") as [v|] eqn:E.
    - rewrite focusedWorld_active_old by (rewrite Htab; eauto).
      rewrite Hfoc, bool_decide_eq_true_2 by eauto.
      now destruct (focusable w tgt).
    - rewrite focusedWorld_active_new by (exact Hexs || congruence).
      rewrite bool_decide_eq_false_2; [reflexivity|].
      intros [x Hx]. discriminate. }
  split.
  { change (is_Some (attrOf (focusedWorld tgt ws) tgt "tabindex")).
    destruct (attrOf ws tgt "tabindex") as [v|] eqn:E.
    - rewrite (attrOf_dom _ _ tgt "tabindex"
                 (focusedWorld_dom_old tgt ws ltac:(rewrite E; eauto))).
      rewrite E. eauto.
    - rewrite (attrOf_dom _ _ tgt "tabindex" (focusedWorld_dom_new tgt ws E)).
      rewrite attrOf_upd_set_eq by exact Hexs. eauto. }
  split.
  { cbn [historyEntries set_historyEntries].
    rewrite focusedWorld_historyEntries. cbn [historyEntries set_scrollRequests ws].
    now rewrite Hhist. }
  cbn [timers set_historyEntries]. rewrite focusedWorld_timers.
  cbn [timers clock set_scrollRequests ws]. now rewrite Htimers, Hclock.
Qed.

(** ** SmoothScrolling: the transient [tabindex] *)

(** X12. The transient [tabindex] leaves no trace.  For a target without a
    [tabindex], [updateFocus] adds [tabindex="-1"], focuses the target and
    sets a timer a second ahead; when that timer's callback has run, every
    element of the page is exactly as it was before [updateFocus]. *)
Theorem transient_tabindex_round_trip (w : World) (tgt : nat) :
  is_Some (dom w !! tgt) ->
  attrOf w tgt "tabindex" = None ->
  ∃ w1 w2,
    SmoothScrolling.updateFocus tgt w = Return tt w1
    ∧ attrOf w1 tgt "tabindex" = Some "-1"%string
    ∧ activeElement w1 = Some tgt
    ∧ timers w1 = timers w ++ [mkTimer (clock w + 1000) (RemoveTransientTabindex tgt)]
    ∧ runCallback (RemoveTransientTabindex tgt) w1 = Return tt w2
    ∧ dom w2 = dom w.
Proof.
  intros Hex Hnone.
  assert (H1 : attrOf (focusedWorld tgt w) tgt "tabindex" = Some "-1"%string).
  { rewrite (attrOf_dom _ _ tgt "tabindex" (focusedWorld_dom_new tgt w Hnone)).
    exact (attrOf_upd_set_eq w tgt "tabindex" "-1" Hex). }
  eexists _, _. split; [apply updateFocus_runs|]. split; [exact H1|].
  split; [now apply focusedWorld_active_new|].
  split; [apply focusedWorld_timers|].
  simpl runCallback. unfold SmoothScrolling.removeTransientTabindex. js_unfold.
  rewrite H1. rewrite bool_decide_eq_true_2 by reflexivity.
  split; [reflexivity|].
  unfold upd, set_dom. cbn [dom]. rewrite (focusedWorld_dom_new tgt w Hnone).
  unfold upd, set_dom. cbn [dom].
  rewrite list_alter_alter_eq. apply list_eq. intros i.
  rewrite list_lookup_alter. destruct (decide (tgt = i)) as [->|]; [|reflexivity].
  destruct Hex as [e He]. rewrite He. simpl. f_equal.
  unfold attrOf in Hnone. rewrite He in Hnone. simpl in Hnone.
  apply element_ext; simpl; try reflexivity.
  now apply delete_insert_id.
Qed.

(** X13. A [tabindex] the target carries with a value other than ["-1"] is
    out of reach: [updateFocus] changes no element, only the timer queue and,
    if the target can take it, the focus; and the timer's callback changes
    nothing at all.  A target that cannot take the focus, its [tabindex]
    being no integer, is not made focusable: the focus stays where it
    was. *)
Theorem foreign_tabindex_untouched (w : World) (tgt : nat) (v : string) :
  attrOf w tgt "tabindex" = Some v ->
  v ≠ "-1"%string ->
  ∃ w1,
    SmoothScrolling.updateFocus tgt w = Return tt w1
    ∧ dom w1 = dom w
    ∧ activeElement w1 = (if focusable w tgt then Some tgt else activeElement w)
    ∧ (parsesInteger v = true -> activeElement w1 = Some tgt)
    ∧ timers w1 = timers w ++ [mkTimer (clock w + 1000) (RemoveTransientTabindex tgt)]
    ∧ runCallback (RemoveTransientTabindex tgt) w1 = Return tt w1.
Proof.
  intros Hv Hne.
  assert (Hsome : is_Some (attrOf w tgt "tabindex")) by (rewrite Hv; eauto).
  assert (Hd : dom (focusedWorld tgt w) = dom w)
    by exact (focusedWorld_dom_old tgt w Hsome).
  eexists. split; [apply updateFocus_runs|]. split; [exact Hd|].
  split; [now apply focusedWorld_active_old|].
  split.
  { intros Hint. rewrite focusedWorld_active_old by exact Hsome.
    assert (Hfoc : focusable w tgt = true).
    { unfold focusable. unfold attrOf in Hv.
      destruct (dom w !! tgt) as [e|]; [|discriminate]. simpl in Hv.
      unfold focusableElement. now rewrite Hv, Hint. }
    now rewrite Hfoc. }
  split; [apply focusedWorld_timers|].
  simpl runCallback. unfold SmoothScrolling.removeTransientTabindex. js_unfold.
  assert (H1 : attrOf (focusedWorld tgt w) tgt "tabindex" = Some v).
  { unfold attrOf. rewrite Hd. exact Hv. }
  rewrite H1. rewrite bool_decide_eq_false_2; [reflexivity|congruence].
Qed.

(** ** Throttle: whatever the function does *)

(** X14. The throttle never locks up, whatever its function does: return,
    throw, or call the wrapper again.  While the flag is set a reset timer is
    pending; every pending timer is due within one interval; and when one
    interval has passed and the pending timers have run, the flag is unset
    and the next call enters the function at once. *)
Theorem throttle_recovers {St : Type} (func : St -> Throttle.Body St)
    (limit stack t0 : nat) (s : St) (evs : list Throttle.Event) (c : Throttle.t) :
  0 < stack ->
  Throttle.run func limit stack evs (Throttle.start t0 s) = Some c ->
  (Throttle.inThrottle c = true -> Throttle.resets c ≠ [])
  ∧ Forall (fun d => d <= Throttle.now c + limit) (Throttle.resets c)
  ∧ ∃ c1,
      Throttle.run func limit stack
        (Throttle.Wait limit :: replicate (length (Throttle.resets c)) Throttle.Fire) c
      = Some c1
      ∧ Throttle.inThrottle c1 = false
      ∧ Throttle.resets c1 = []
      ∧ Throttle.invocations c1 = Throttle.invocations c
      ∧ ∃ l, Throttle.invocations (fst (Throttle.throttle func limit stack c1))
             = Throttle.invocations c ++ (Throttle.now c + limit) :: l.
Proof.
  intros Hst Hrun.
  assert (H0 : Throttle.recovering limit (Throttle.start t0 s)).
  { split; [discriminate|]. apply Forall_nil_2. }
  destruct (run_recovering func limit stack evs _ _ H0 Hrun) as [Hflag Hdue].
  split; [exact Hflag|]. split; [exact Hdue|].
  set (c0 := Throttle.mk (Throttle.inThrottle c) (Throttle.resets c)
               (Throttle.now c + limit) (Throttle.user c) (Throttle.invocations c)).
  destruct (run_fire_all func limit stack (length (Throttle.resets c)) c0)
    as (c1 & Hr & Hin & Hres & Hinv & Hnow); [reflexivity|exact Hdue|exact Hflag|].
  exists c1. split; [exact Hr|]. split; [exact Hin|]. split; [exact Hres|].
  split; [exact Hinv|].
  destruct (throttle_enters func limit stack c1 Hst Hin) as [l Hl].
  exists l. now rewrite Hl, Hinv, Hnow.
Qed.

(** X15. With a function that throws on every call the throttle never
    throttles: the wrapper never enters its cooldown, sets no timer, and
    every single call enters the function.  This holds as well for a function
    that calls the wrapper again before it throws; a function that throws
    without such calls is entered exactly once by each call. *)
Theorem throttle_never_cools_when_throwing {St : Type}
    (func : St -> Throttle.Body St) (limit stack t0 : nat) (s : St)
    (evs : list Throttle.Event) (c : Throttle.t) :
  (∀ x, Throttle.throwing (func x)) ->
  0 < stack ->
  Throttle.run func limit stack evs (Throttle.start t0 s) = Some c ->
  Throttle.inThrottle c = false
  ∧ Throttle.resets c = []
  ∧ Throttle.calls evs <= length (Throttle.invocations c)
  ∧ ((∀ x, ∃ y, func x = Throttle.Throws y) ->
     length (Throttle.invocations c) = Throttle.calls evs).
Proof.
  intros Hf Hst Hrun.
  exact (run_throwing func limit stack evs Hf Hst (Throttle.start t0 s) c
           eq_refl eq_refl Hrun).
Qed.

(** ** Utils.debounce *)

Section DebounceFacts.
Context {St A : Type}.
Variable func : St -> A -> St + St.
Variable wait : nat.

Lemma debounce_spaced_snoc l x :
  Debounce.spaced wait l ->
  (∀ t, last l = Some t -> t + wait <= x) ->
  Debounce.spaced wait (l ++ [x]).
Proof.
  induction l as [|a l IH]; intros Hs Hl; [exact I|].
  destruct l as [|b l].
  - simpl. split; [|exact I]. now apply Hl.
  - destruct Hs as [Hab Hs]. split; [exact Hab|].
    apply IH; [exact Hs|]. intros t Ht. apply Hl. exact Ht.
Qed.


Lemma step_settled ev (c c' : Debounce.t) :
  Debounce.settled wait c ->
  Debounce.step func wait true ev c = Some c' ->
  Debounce.settled wait c'
  ∧ ∃ l, Debounce.invocations c' = Debounce.invocations c ++ l
         ∧ (ev = Debounce.Fire -> l = []).
Proof.
  intros [Hs Hl]. destruct ev as [a|ms|]; simpl.
  - intros [= <-]. unfold Debounce.debounce. simpl.
    destruct (Debounce.timeout c) as [[d b]|] eqn:Et; simpl.
    + split; [|exists []; split; [now rewrite app_nil_r|reflexivity]].
      split; [exact Hs|]. simpl.
      destruct (last (fst <$> Debounce.invocations c)); [|exact I].
      destruct Hl as [H1 H2]. split; [exact H1|lia].
    + split; [|eexists; split; [reflexivity|discriminate]].
      unfold Debounce.enter, Debounce.settled. simpl. rewrite fmap_app. simpl.
      split.
      * apply debounce_spaced_snoc; [exact Hs|]. intros t Ht.
        rewrite Ht in Hl. tauto.
      * rewrite last_snoc. lia.
  - intros [= <-]. split; [|exists []; split; [now rewrite app_nil_r|discriminate]].
    split; [exact Hs|]. simpl.
    destruct (last (fst <$> Debounce.invocations c)); [|exact I].
    destruct Hl as [H1 H2]. split; [lia|].
    destruct (Debounce.timeout c) as [[d b]|]; lia.
  - destruct (Debounce.timeout c) as [[d b]|] eqn:Et; [|discriminate].
    destruct (d <=? Debounce.now c) eqn:E; [|discriminate].
    apply Nat.leb_le in E. intros [= <-].
    split; [|exists []; split; [now rewrite app_nil_r|reflexivity]].
    split; [exact Hs|]. simpl.
    destruct (last (fst <$> Debounce.invocations c)); [|exact I].
    destruct Hl as [H1 H2]. split; [exact H1|lia].
Qed.

Lemma run_settled evs : ∀ (c c' : Debounce.t),
  Debounce.settled wait c ->
  Debounce.run func wait true evs c = Some c' ->
  Debounce.settled wait c'
  ∧ ∃ l, Debounce.invocations c' = Debounce.invocations c ++ l.
Proof.
  induction evs as [|ev evs IH]; intros c c' Hc; simpl.
  - intros [= <-]. split; [exact Hc|]. exists []. now rewrite app_nil_r.
  - destruct (Debounce.step func wait true ev c) as [c1|] eqn:E; [|discriminate].
    simpl. intros Hr.
    destruct (step_settled ev c c1 Hc E) as (Hc1 & l1 & Hl1 & _).
    destruct (IH c1 c' Hc1 Hr) as (Hc' & l2 & Hl2).
    split; [exact Hc'|]. exists (l1 ++ l2). now rewrite Hl2, Hl1, app_assoc.
Qed.

End DebounceFacts.


(** X17. [Utils.debounce] with [immediate]: the first call enters the
    function at once, the timer never enters it, and two consecutive entries
    are at least [wait] apart.  Because the wrapper sets its timer before it
    enters the function, this holds for a function that throws as well. *)
Theorem debounce_immediate {St A : Type} (func : St -> A -> St + St)
    (wait t0 : nat) (s : St) (evs : list Debounce.Event) (c : Debounce.t) :
  Debounce.run func wait true evs (Debounce.start t0 s) = Some c ->
  Debounce.spaced wait (fst <$> Debounce.invocations c)
  ∧ (∀ a evs', evs = Debounce.Call a :: evs' ->
       head (Debounce.invocations c) = Some (t0, a))
  ∧ (∀ c', Debounce.step func wait true Debounce.Fire c = Some c' ->
       Debounce.invocations c' = Debounce.invocations c).
Proof.
  intros Hrun.
  assert (H0 : Debounce.settled wait (Debounce.start t0 s : @Debounce.t St A)).
  { split; exact I. }
  destruct (run_settled func wait evs _ c H0 Hrun) as ([Hs Hl] & _).
  split; [exact Hs|]. split.
  - intros a evs' ->. simpl in Hrun. unfold Debounce.debounce in Hrun.
    simpl in Hrun.
    assert (H1 : Debounce.settled wait
                   (Debounce.enter func a
                      (Debounce.mk (Some (t0 + wait, a)) t0 s []))).
    { unfold Debounce.enter, Debounce.settled. simpl. split; [exact I|lia]. }
    destruct (run_settled func wait evs' _ c H1 Hrun) as (_ & l & Hlog).
    rewrite Hlog. reflexivity.
  - intros c' Hstep.
    destruct (step_settled func wait Debounce.Fire c c' (conj Hs Hl) Hstep)
      as (_ & l & Hlog & Hnil).
    rewrite Hlog, (Hnil eq_refl). apply app_nil_r.
Qed.

(** ** Utils.getOffsetTop *)

Lemma ancestorsFirst_lt w n p :
  ancestorsFirst w -> offsetParentOf w n = Some p -> p < n.
Proof.
  intros H Hp. unfold ancestorsFirst in H. rewrite Forall_forall in H.
  assert (Hn : n ∈ positions w).
  { unfold positions. apply elem_of_seq. split; [lia|]. simpl.
    unfold offsetParentOf in Hp. destruct (dom w !! n) eqn:E; [|discriminate].
    now apply lookup_lt_Some in E. }
  specialize (H n Hn). now rewrite Hp in H.
Qed.

Lemma getOffsetTopFrom_none fuel w : Utils.getOffsetTopFrom fuel w None = 0%Z.
Proof. now destruct fuel. Qed.

Lemma getOffsetTopFrom_enough w :
  ancestorsFirst w ->
  ∀ n fuel, n < fuel ->
    Utils.getOffsetTopFrom fuel w (Some n) = Utils.getOffsetTopFrom (S n) w (Some n).
Proof.
  intros Ha n. induction n as [n IH] using lt_wf_ind. intros fuel Hf.
  destruct fuel as [|fuel]; [lia|]. simpl.
  destruct (offsetParentOf w n) as [p|] eqn:Hp.
  - pose proof (ancestorsFirst_lt w n p Ha Hp) as Hlt.
    rewrite (IH p Hlt fuel) by lia. rewrite (IH p Hlt n) by lia. reflexivity.
  - now rewrite !getOffsetTopFrom_none.
Qed.

(** X18. [Utils.getOffsetTop] adds up along the chain: on a page where every
    [offsetParent] precedes its element in document order, as an ancestor
    does, the offset of an element from the top of the document is its own
    [offsetTop] plus the document offset of its [offsetParent], and just its
    [offsetTop] when it has none. *)
Theorem getOffsetTop_additive (w : World) (n : nat) :
  ancestorsFirst w ->
  is_Some (dom w !! n) ->
  Utils.getOffsetTop w n
  = (offsetTopOf w n
     + match offsetParentOf w n with
       | Some p => Utils.getOffsetTop w p
       | None => 0
       end)%Z.
Proof.
  intros Ha Hn. apply lookup_lt_is_Some in Hn. unfold Utils.getOffsetTop.
  rewrite (getOffsetTopFrom_enough w Ha n (length (dom w)) Hn). simpl.
  destruct (offsetParentOf w n) as [p|] eqn:Hp.
  - pose proof (ancestorsFirst_lt w n p Ha Hp) as Hlt.
    rewrite (getOffsetTopFrom_enough w Ha p n Hlt).
    rewrite (getOffsetTopFrom_enough w Ha p (length (dom w))) by lia.
    reflexivity.
  - now rewrite getOffsetTopFrom_none.
Qed.

(** ** Performance: lazy images *)

Lemma loadedImage_idem s e : loadedImage s (loadedImage s e) = loadedImage s e.
Proof.
  unfold loadedImage. apply element_ext; simpl; try reflexivity.
  - apply insert_insert_eq.
  - apply tokens_remove_remove.
Qed.

(** X19. Lazy loading is one-shot.  When the observer reports an image whose
    [data-src] is a non-empty string, the callback copies it to [src],
    removes the class [lazy] and stops observing the image; a second report
    of the same image changes nothing.  An image whose [data-src] is the
    empty string is never loaded: nothing changes and it stays observed. *)
Theorem lazy_image_loads_once (watched : list nat) (w : World) (img : nat)
    (s : string) :
  is_Some (dom w !! img) ->
  attrOf w img "data-src" = Some s ->
  let entry := ScrollAnimations.mkEntry img true in
  (s ≠ ""%string ->
   ∃ w',
     Performance.loadEntry watched entry w
     = Return (filter (fun x => x ≠ img) watched) w'
     ∧ attrOf w' img "src" = Some s
     ∧ hasClass w' img "lazy" = false
     ∧ Performance.loadEntry (filter (fun x => x ≠ img) watched) entry w'
       = Return (filter (fun x => x ≠ img) watched) w')
  ∧ (s = ""%string -> Performance.loadEntry watched entry w = Return watched w).
Proof.
  intros Hex Hsrc entry. split.
  - intros Hne.
    assert (Hrun : ∀ l w0, attrOf w0 img "data-src" = Some s ->
              Performance.loadEntry l entry w0
              = Return (filter (fun x => x ≠ img) l) (upd img (loadedImage s) w0)).
    { intros l w0 H0. unfold Performance.loadEntry. simpl. js_unfold. rewrite H0.
      rewrite bool_decide_eq_false_2 by exact Hne.
      now rewrite upd_compose. }
    assert (Hkeep : attrOf (upd img (loadedImage s) w) img "data-src" = Some s).
    { unfold loadedImage. rewrite <- upd_compose. rewrite attrOf_upd_class.
      rewrite attrOf_upd_set_ne by (right; discriminate). exact Hsrc. }
    exists (upd img (loadedImage s) w). split; [now apply Hrun|]. split.
    { unfold loadedImage. rewrite <- upd_compose. rewrite attrOf_upd_class.
      now apply attrOf_upd_set_eq. }
    split.
    { unfold loadedImage. rewrite <- upd_compose. apply hasClass_upd_remove_eq. }
    rewrite (Hrun _ _ Hkeep). rewrite upd_idem by apply loadedImage_idem.
    f_equal. rewrite list_filter_filter. apply list_filter_iff. tauto.
  - intros ->. unfold Performance.loadEntry. simpl. js_unfold. now rewrite Hsrc.
Qed.

(** ** ScrollAnimations: registration, and what a callback leaves alone *)


Lemma selectAll_dom w w' sel : dom w' = dom w -> selectAll w' sel = selectAll w sel.
Proof.
  intros H. unfold selectAll, positions, matchesAt. now rewrite H.
Qed.

Lemma forEach_observe l : ∀ w,
  ∃ w', forEach ScrollAnimations.observe l w = Return tt w'
        ∧ dom w' = dom w
        ∧ (∀ x, x ∈ observed w' ↔ x ∈ observed w ∨ x ∈ l)
        ∧ (NoDup (observed w) -> NoDup (observed w')).
Proof.
  induction l as [|n l IH]; intros w.
  - exists w. split; [reflexivity|]. split; [reflexivity|]. split; [|auto].
    intros x. rewrite elem_of_nil. tauto.
  - set (w1 := set_observed
                 (fun o => if bool_decide (n ∈ o) then o else o ++ [n]) w).
    destruct (IH w1) as (w' & Hr & Hd & Hm & Hn).
    exists w'. split; [exact Hr|]. split; [exact Hd|].
    assert (H1 : ∀ x, x ∈ observed w1 ↔ x ∈ observed w ∨ x = n).
    { intros x. unfold w1. simpl.
      destruct (bool_decide (n ∈ observed w)) eqn:E.
      - apply bool_decide_eq_true in E. split; [tauto|]. intros [H| ->]; auto.
      - rewrite elem_of_app, list_elem_of_singleton. tauto. }
    split.
    + intros x. rewrite Hm, H1, elem_of_cons. tauto.
    + intros Hnd. apply Hn. unfold w1. simpl.
      destruct (bool_decide (n ∈ observed w)) eqn:E; [exact Hnd|].
      apply bool_decide_eq_false in E. apply NoDup_app.
      split; [exact Hnd|]. split; [|apply NoDup_singleton].
      intros x Hx. rewrite list_elem_of_singleton. intros ->. contradiction.
Qed.

(** X20. [ScrollAnimations.observeElements] registers every section and
    every card of the page with the observer, each of them once even when an
    element is both, and nothing else; it changes no element. *)
Theorem observeElements_once (w : World) :
  NoDup (observed w) ->
  ∃ w',
    ScrollAnimations.observeElements w = Return tt w'
    ∧ dom w' = dom w
    ∧ NoDup (observed w')
    ∧ ∀ x, x ∈ observed w'
           ↔ x ∈ observed w
             ∨ matchesAt w ScrollAnimations.sectionSelector x = true
             ∨ matchesAt w ScrollAnimations.cardSelector x = true.
Proof.
  intros Hnd.
  destruct (forEach_observe (selectAll w ScrollAnimations.sectionSelector) w)
    as (w1 & Hr1 & Hd1 & Hm1 & Hn1).
  destruct (forEach_observe (selectAll w ScrollAnimations.cardSelector) w1)
    as (w2 & Hr2 & Hd2 & Hm2 & Hn2).
  exists w2. split.
  { unfold ScrollAnimations.observeElements, querySelectorAll, gets.
    unfold mbind at 1 2, Js_bind at 1 2. rewrite Hr1.
    unfold mbind, Js_bind. rewrite (selectAll_dom w w1 _ Hd1). exact Hr2. }
  split; [congruence|]. split; [auto|].
  intros x. rewrite Hm2, Hm1, !elem_of_selectAll. tauto.
Qed.

Lemma handleEntry_frame entry w :
  ∃ w', ScrollAnimations.handleEntry entry w = Return tt w'
        ∧ (∀ m k, attrOf w' m k = attrOf w m k)
        ∧ (∀ m c, c ≠ "animate-fade-in"%string -> hasClass w' m c = hasClass w m c)
        ∧ (∀ m, entry ≠ ScrollAnimations.mkEntry m true ->
                dom w' !! m = dom w !! m ∧ (m ∈ observed w' ↔ m ∈ observed w)).
Proof.
  destruct entry as [tgt [|]].
  - destruct (handleEntry_runs tgt w) as (w' & Hr & Hd & Ho & _ & _).
    exists w'. split; [exact Hr|]. split.
    { intros m k. unfold attrOf at 1. rewrite Hd.
      exact (attrOf_upd_class w tgt _ m k). }
    split.
    { intros m c Hc. rewrite (hasClass_dom _ _ m c Hd).
      apply hasClass_upd_add_ne. now right. }
    intros m Hm. assert (Hne : tgt ≠ m) by congruence. split.
    + rewrite Hd. unfold upd. simpl. now apply list_lookup_alter_ne.
    + rewrite Ho, list_elem_of_filter. split; [tauto|]. intros H.
      split; [congruence|exact H].
  - exists w. split; [reflexivity|]. repeat split; auto.
Qed.

(** X21. What an observer callback leaves alone.  [handleIntersection]
    never throws, changes no attribute, and no class other than
    [animate-fade-in]; an element that no entry reports as intersecting is
    left exactly as it was and stays observed if it was; and a callback whose
    entries are all non-intersecting changes nothing at all, so leaving the
    viewport never hides an element. *)
Theorem handleIntersection_frame (entries : list ScrollAnimations.Entry)
    (w : World) :
  ∃ w',
    ScrollAnimations.handleIntersection entries w = Return tt w'
    ∧ (∀ m k, attrOf w' m k = attrOf w m k)
    ∧ (∀ m c, c ≠ "animate-fade-in"%string -> hasClass w' m c = hasClass w m c)
    ∧ (∀ m, ScrollAnimations.mkEntry m true ∉ entries ->
            dom w' !! m = dom w !! m ∧ (m ∈ observed w' ↔ m ∈ observed w))
    ∧ (Forall (fun e => ScrollAnimations.isIntersecting e = false) entries ->
       w' = w).
Proof.
  revert w. induction entries as [|entry entries IH]; intros w.
  - exists w. split; [reflexivity|]. repeat split; auto.
  - destruct (handleEntry_frame entry w) as (w1 & Hr1 & Ha1 & Hc1 & Hf1).
    destruct (IH w1) as (w' & Hr & Ha & Hc & Hf & Hid).
    exists w'. split.
    { unfold ScrollAnimations.handleIntersection in *. simpl.
      now rewrite (bind_Return _ _ _ _ _ Hr1). }
    split; [intros m k; now rewrite Ha, Ha1|].
    split; [intros m c Hne; now rewrite Hc, Hc1|].
    split.
    + intros m Hm. apply not_elem_of_cons in Hm. destruct Hm as [Hm1 Hm2].
      destruct (Hf1 m (not_eq_sym Hm1)) as [Hd1 Ho1].
      destruct (Hf m Hm2) as [Hd2 Ho2].
      split; [congruence|tauto].
    + intros Hall. apply Forall_cons in Hall. destruct Hall as [He Hall].
      rewrite (Hid Hall).
      unfold ScrollAnimations.handleEntry in Hr1. rewrite He in Hr1.
      now injection Hr1 as <-.
Qed.

(** ** The further properties on the sample pages *)

Lemma toggleVisibility_threshold_witness :
  ScrollToTop.scrollTopBtn pageTopButton = Some 6
  ∧ is_Some (dom (scrolledTo 301 pageTop) !! 6)
  ∧ ∃ w',
      ScrollToTop.toggleVisibility pageTopButton (scrolledTo 301 pageTop)
      = Return tt w'
      ∧ (hasClass w' 6 "visible" = true
         ↔ (300 < pageYOffset (scrolledTo 301 pageTop))%Z)
      ∧ attrOf w' 6 "aria-hidden"
        = Some (if hasClass w' 6 "visible" then "false" else "true")%string
      ∧ ScrollToTop.toggleVisibility pageTopButton w' = Return tt w'.
Proof.
  assert (H1 : ScrollToTop.scrollTopBtn pageTopButton = Some 6) by reflexivity.
  assert (H2 : is_Some (dom (scrolledTo 301 pageTop) !! 6))
    by (eexists; reflexivity).
  split; [exact H1|]. split; [exact H2|].
  exact (toggleVisibility_threshold pageTopButton (scrolledTo 301 pageTop) 6 H1 H2).
Defined.

Lemma handleScroll_idempotent_witness :
  HeaderScroll.header pageHeader = Some 1
  ∧ ∃ this' w',
      HeaderScroll.handleScroll pageHeader (scrolledTo 250 page) = Return this' w'
      ∧ HeaderScroll.lastScrollTop this'
        = HeaderScroll.currentScrollTop (scrolledTo 250 page)
      ∧ HeaderScroll.header this' = HeaderScroll.header pageHeader
      ∧ HeaderScroll.scrollThreshold this' = HeaderScroll.scrollThreshold pageHeader
      ∧ HeaderScroll.handleScroll this' w' = Return this' w'.
Proof.
  assert (H1 : HeaderScroll.header pageHeader = Some 1) by reflexivity.
  split; [exact H1|].
  exact (handleScroll_idempotent pageHeader (scrolledTo 250 page) 1 H1).
Defined.

Lemma resize_closes_menu_witness :
  MobileMenu.mobileMenuButton pageMenu = Some 2
  ∧ MobileMenu.mobileMenu pageMenu = Some 4
  ∧ is_Some (dom page !! 2)
  ∧ (768 <= innerWidth page)%Z
  ∧ ∃ w', MobileMenu.onWindowResize pageMenu page = Return tt w'
          ∧ closedConfiguration pageMenu w'.
Proof.
  assert (H1 : MobileMenu.mobileMenuButton pageMenu = Some 2) by reflexivity.
  assert (H2 : MobileMenu.mobileMenu pageMenu = Some 4) by reflexivity.
  assert (H3 : is_Some (dom page !! 2)) by (eexists; reflexivity).
  assert (H4 : (768 <= innerWidth page)%Z) by (simpl; lia).
  split; [exact H1|]. split; [exact H2|]. split; [exact H3|]. split; [exact H4|].
  exact (proj1 (resize_closes_menu pageMenu page 2 4 H1 H2 H3) H4).
Defined.

Lemma documentClick_inside_outside_witness :
  MobileMenu.mobileMenuButton pageMenu = Some 2
  ∧ MobileMenu.mobileMenu pageMenu = Some 4
  ∧ is_Some (dom page !! 2)
  ∧ contains page 2 7 = false
  ∧ contains page 4 7 = false
  ∧ ∃ w', MobileMenu.onDocumentClick pageMenu 7 page = Return tt w'
          ∧ closedConfiguration pageMenu w'.
Proof.
  assert (H1 : MobileMenu.mobileMenuButton pageMenu = Some 2) by reflexivity.
  assert (H2 : MobileMenu.mobileMenu pageMenu = Some 4) by reflexivity.
  assert (H3 : is_Some (dom page !! 2)) by (eexists; reflexivity).
  assert (H4 : contains page 2 7 = false) by reflexivity.
  assert (H5 : contains page 4 7 = false) by reflexivity.
  split; [exact H1|]. split; [exact H2|]. split; [exact H3|]. split; [exact H4|].
  split; [exact H5|].
  exact (proj2 (documentClick_inside_outside pageMenu page 2 4 7 H1 H2 H3) H4 H5).
Defined.

Lemma bound_listeners_return_witness :
  MobileMenu.bound pageMenu = true
  ∧ (∃ w', MobileMenu.onButtonClick pageMenu page = Return tt w')
  ∧ (∃ w', MobileMenu.onLinkClick pageMenu page = Return tt w')
  ∧ (∃ w', MobileMenu.onDocumentClick pageMenu 7 page = Return tt w')
  ∧ (∃ w', MobileMenu.onDocumentKeydown pageMenu "Escape" page = Return tt w')
  ∧ (∃ w', MobileMenu.onWindowResize pageMenu page = Return tt w').
Proof.
  assert (H1 : MobileMenu.bound pageMenu = true) by reflexivity.
  split; [exact H1|].
  exact (bound_listeners_return pageMenu page 7 "Escape" H1).
Defined.

Lemma toggleMenu_twice_normalises_witness :
  MobileMenu.mobileMenuButton pageMenu = Some 2
  ∧ MobileMenu.mobileMenu pageMenu = Some 4
  ∧ is_Some (dom page !! 2)
  ∧ is_Some (dom page !! 4)
  ∧ ∃ w1 w2,
      MobileMenu.toggleMenu pageMenu page = Return tt w1
      ∧ (bodyOverflow w1 = "hidden"%string
         ↔ attrOf w1 2 "aria-expanded" = Some "true"%string)
      ∧ MobileMenu.toggleMenu pageMenu w1 = Return tt w2
      ∧ mirrors w2 2 4
        = (Some (stringOfBool
                   (bool_decide (attrOf page 2 "aria-expanded" = Some "true"%string))),
           hasClass page 4 "active",
           (fun i => (hasClass page i "fa-bars", hasClass page i "fa-times"))
             <$> iconOf page 2,
           if bool_decide (attrOf page 2 "aria-expanded" = Some "true"%string)
           then "hidden"%string else ""%string).
Proof.
  assert (H1 : MobileMenu.mobileMenuButton pageMenu = Some 2) by reflexivity.
  assert (H2 : MobileMenu.mobileMenu pageMenu = Some 4) by reflexivity.
  assert (H3 : is_Some (dom page !! 2)) by (eexists; reflexivity).
  assert (H4 : is_Some (dom page !! 4)) by (eexists; reflexivity).
  split; [exact H1|]. split; [exact H2|]. split; [exact H3|]. split; [exact H4|].
  exact (toggleMenu_twice_normalises pageMenu page 2 4 H1 H2 H3 H4).
Defined.

Lemma faq_invariant_survives_errors_witness :
  let evs := [FAQ.Click 4; FAQ.Keydown 2 "Enter"; FAQ.Keydown 4 "Tab"] in
  answersApart brokenFAQ pageBrokenFAQ
  ∧ Forall (fun ev => questionOf ev ∈ FAQ.faqQuestions brokenFAQ) evs
  ∧ (∃ w', FAQ.listener brokenFAQ (FAQ.Click 4) pageBrokenFAQ = Raise TypeError w')
  ∧ map (ariaOpen pageBrokenFAQ) [2; 4] = [false; true]
  ∧ map (ariaOpen (FAQ.serve brokenFAQ evs pageBrokenFAQ)) [2; 4] = [false; true]
  ∧ atMostOne (ariaOpen (FAQ.serve brokenFAQ evs pageBrokenFAQ))
      (FAQ.faqQuestions brokenFAQ)
  ∧ atMostOne (questionActive (FAQ.serve brokenFAQ evs pageBrokenFAQ))
      (FAQ.faqQuestions brokenFAQ)
  ∧ atMostOne (answerActive (FAQ.serve brokenFAQ evs pageBrokenFAQ))
      (FAQ.faqQuestions brokenFAQ).
Proof.
  intros evs.
  assert (Hin : ∀ q, q = 2 ∨ q = 4 -> q ∈ FAQ.faqQuestions brokenFAQ).
  { intros q [ -> | -> ]; simpl; repeat constructor. }
  assert (Hap : answersApart brokenFAQ pageBrokenFAQ).
  { intros q a Hq Ha Hin'. simpl in Hq, Hin'.
    repeat (apply elem_of_cons in Hq; destruct Hq as [->|Hq]);
      [| |now apply elem_of_nil in Hq];
      vm_compute in Ha; try discriminate; injection Ha as <-;
      repeat (apply elem_of_cons in Hin'; destruct Hin' as [Hin'|Hin']);
      try discriminate; now apply elem_of_nil in Hin'. }
  assert (Hevs : Forall (fun ev => questionOf ev ∈ FAQ.faqQuestions brokenFAQ) evs).
  { repeat constructor; apply Hin; simpl; tauto. }
  assert (Hone : ∀ mark : nat -> bool, mark 2 = false ->
                   atMostOne mark (FAQ.faqQuestions brokenFAQ)).
  { intros mark H2 q1 q2 H1 H2' E1 E2. simpl in H1, H2'.
    repeat (apply elem_of_cons in H1; destruct H1 as [->|H1]);
      [| |now apply elem_of_nil in H1]; try congruence;
      repeat (apply elem_of_cons in H2'; destruct H2' as [->|H2']);
      try congruence; now apply elem_of_nil in H2'. }
  destruct (faq_invariant_survives_errors brokenFAQ pageBrokenFAQ evs Hap Hevs)
    as (Ha & Hq & Hans).
  split; [exact Hap|]. split; [exact Hevs|].
  split; [eexists; vm_compute; reflexivity|].
  split; [reflexivity|]. split; [vm_compute; reflexivity|].
  split; [apply Ha, Hone; reflexivity|].
  split; [apply Hq, Hone; reflexivity|].
  apply Hans, Hone; reflexivity.
Defined.

Lemma toggleFAQ_heights_witness :
  FAQ.paired pageFAQ page
  ∧ 14 ∈ FAQ.faqQuestions pageFAQ
  ∧ ∃ w',
      FAQ.toggleFAQ pageFAQ 14 page = Return tt w'
      ∧ heightOf w' 13 = Some 0%Z
      ∧ heightOf w' 15 = Some (scrollHeightOf page 15)
      ∧ heightOf w' 17 = Some 0%Z.
Proof.
  assert (Hin : ∀ q, q = 12 ∨ q = 14 ∨ q = 16 -> q ∈ FAQ.faqQuestions pageFAQ).
  { intros q [ -> | [ -> | -> ] ]; simpl; repeat constructor. }
  assert (Hp : FAQ.paired pageFAQ page).
  { intros q Hq. simpl in Hq.
    repeat (apply elem_of_cons in Hq; destruct Hq as [->|Hq]);
      [eexists; reflexivity ..|now apply elem_of_nil in Hq]. }
  assert (H14 : 14 ∈ FAQ.faqQuestions pageFAQ) by (apply Hin; tauto).
  split; [exact Hp|]. split; [exact H14|].
  destruct (toggleFAQ_heights pageFAQ page 14 Hp H14) as (w' & Hr & Hh).
  exists w'. split; [exact Hr|].
  split; [exact (Hh 12 13 (Hin 12 ltac:(tauto)) eq_refl)|].
  split; [exact (Hh 14 15 H14 eq_refl)|].
  exact (Hh 16 17 (Hin 16 ltac:(tauto)) eq_refl).
Defined.

Lemma anchor_without_target_is_inert_witness :
  attrOf page 19 "href" = Some (String "#" "missing")
  ∧ isName "missing" = true
  ∧ selectAll page [ById "missing"] = []
  ∧ SmoothScrolling.handleAnchorClick pageMenu 19 page
    = Return tt (set_defaultPrevented true page).
Proof.
  assert (H1 : attrOf page 19 "href" = Some (String "#" "missing")) by reflexivity.
  assert (H2 : isName "missing" = true) by reflexivity.
  assert (H3 : selectAll page [ById "missing"] = []) by reflexivity.
  split; [exact H1|]. split; [exact H2|]. split; [exact H3|].
  exact (anchor_without_target_is_inert pageMenu page 19 "missing" H1 H2 H3).
Defined.

Lemma handleAnchorClick_effects_witness :
  MobileMenu.mobileMenuButton pageMenu = Some 2
  ∧ MobileMenu.mobileMenu pageMenu = Some 4
  ∧ is_Some (dom page !! 2)
  ∧ is_Some (dom page !! 7)
  ∧ attrOf page 5 "href" = Some "#section2"%string
  ∧ resolveSelector page "#section2" = QueryElement 7
  ∧ ∃ w',
      SmoothScrolling.handleAnchorClick pageMenu 5 page = Return tt w'
      ∧ defaultPrevented w' = true
      ∧ closedConfiguration pageMenu w'
      ∧ activeElement w'
        = (if bool_decide (is_Some (attrOf page 7 "tabindex"))
              && negb (focusable page 7)
           then activeElement page else Some 7)
      ∧ is_Some (attrOf w' 7 "tabindex")
      ∧ historyEntries w' = historyEntries page ++ [Some "#section2"%string]
      ∧ timers w'
        = timers page ++ [mkTimer (clock page + 1000) (RemoveTransientTabindex 7)].
Proof.
  assert (H1 : MobileMenu.mobileMenuButton pageMenu = Some 2) by reflexivity.
  assert (H2 : MobileMenu.mobileMenu pageMenu = Some 4) by reflexivity.
  assert (H3 : is_Some (dom page !! 2)) by (eexists; reflexivity).
  assert (H4 : is_Some (dom page !! 7)) by (eexists; reflexivity).
  assert (H5 : attrOf page 5 "href" = Some "#section2"%string) by reflexivity.
  assert (H6 : resolveSelector page "#section2" = QueryElement 7) by reflexivity.
  split; [exact H1|]. split; [exact H2|]. split; [exact H3|]. split; [exact H4|].
  split; [exact H5|]. split; [exact H6|].
  exact (handleAnchorClick_effects pageMenu page 5 7 2 4 "#section2" H1 H2 H3 H4 H5 H6).
Defined.

Lemma transient_tabindex_round_trip_witness :
  is_Some (dom page !! 7)
  ∧ attrOf page 7 "tabindex" = None
  ∧ ∃ w1 w2,
      SmoothScrolling.updateFocus 7 page = Return tt w1
      ∧ attrOf w1 7 "tabindex" = Some "-1"%string
      ∧ activeElement w1 = Some 7
      ∧ timers w1
        = timers page ++ [mkTimer (clock page + 1000) (RemoveTransientTabindex 7)]
      ∧ runCallback (RemoveTransientTabindex 7) w1 = Return tt w2
      ∧ dom w2 = dom page.
Proof.
  assert (H1 : is_Some (dom page !! 7)) by (eexists; reflexivity).
  assert (H2 : attrOf page 7 "tabindex" = None) by reflexivity.
  split; [exact H1|]. split; [exact H2|].
  exact (transient_tabindex_round_trip page 7 H1 H2).
Defined.

Lemma foreign_tabindex_untouched_witness :
  let w := upd 7 (el_setAttribute "tabindex" "first") page in
  attrOf w 7 "tabindex" = Some "first"%string
  ∧ "first"%string ≠ "-1"%string
  ∧ focusable w 7 = false
  ∧ ∃ w1,
      SmoothScrolling.updateFocus 7 w = Return tt w1
      ∧ dom w1 = dom w
      ∧ activeElement w1 = activeElement w
      ∧ timers w1 = timers w ++ [mkTimer (clock w + 1000) (RemoveTransientTabindex 7)]
      ∧ runCallback (RemoveTransientTabindex 7) w1 = Return tt w1.
Proof.
  intros w.
  assert (H1 : attrOf w 7 "tabindex" = Some "first"%string) by reflexivity.
  assert (H2 : "first"%string ≠ "-1"%string) by discriminate.
  assert (H3 : focusable w 7 = false) by reflexivity.
  split; [exact H1|]. split; [exact H2|]. split; [exact H3|].
  destruct (foreign_tabindex_untouched w 7 "first" H1 H2)
    as (w1 & Hr & Hd & Ha & _ & Ht & Hc).
  exists w1. rewrite H3 in Ha. repeat split; assumption.
Defined.

Lemma throttle_recovers_witness :
  let c := Throttle.mk true [100; 100; 100] 0 2 [0; 0; 0] in
  0 < 64
  ∧ Throttle.run nesting 100 64 [Throttle.Call] (Throttle.start 0 0) = Some c
  ∧ (Throttle.inThrottle c = true -> Throttle.resets c ≠ [])
  ∧ Forall (fun d => d <= Throttle.now c + 100) (Throttle.resets c)
  ∧ ∃ c1,
      Throttle.run nesting 100 64
        (Throttle.Wait 100 :: replicate (length (Throttle.resets c)) Throttle.Fire) c
      = Some c1
      ∧ Throttle.inThrottle c1 = false
      ∧ Throttle.resets c1 = []
      ∧ Throttle.invocations c1 = Throttle.invocations c
      ∧ ∃ l, Throttle.invocations (fst (Throttle.throttle nesting 100 64 c1))
             = Throttle.invocations c ++ (Throttle.now c + 100) :: l.
Proof.
  intros c.
  assert (Hst : 0 < 64) by lia.
  assert (Hrun : Throttle.run nesting 100 64 [Throttle.Call] (Throttle.start 0 0)
                 = Some c) by reflexivity.
  split; [exact Hst|]. split; [exact Hrun|].
  exact (throttle_recovers nesting 100 64 0 0 [Throttle.Call] c Hst Hrun).
Defined.

Lemma throttle_never_cools_when_throwing_witness :
  let evs := [Throttle.Call; Throttle.Wait 10; Throttle.Call; Throttle.Call] in
  let c := Throttle.mk false [] 10 1 [0; 0; 10; 10] in
  (∀ x, Throttle.throwing (nestingFailing x))
  ∧ 0 < 64
  ∧ Throttle.run nestingFailing 100 64 evs (Throttle.start 0 0) = Some c
  ∧ Throttle.inThrottle c = false
  ∧ Throttle.resets c = []
  ∧ Throttle.calls evs <= length (Throttle.invocations c)
  ∧ ((∀ x, ∃ y, nestingFailing x = Throttle.Throws y) ->
     length (Throttle.invocations c) = Throttle.calls evs).
Proof.
  intros evs c.
  assert (Hf : ∀ x, Throttle.throwing (nestingFailing x)).
  { intros x. unfold nestingFailing. destruct (x <? 1); repeat constructor. }
  assert (Hst : 0 < 64) by lia.
  assert (Hrun : Throttle.run nestingFailing 100 64 evs (Throttle.start 0 0) = Some c)
    by reflexivity.
  split; [exact Hf|]. split; [exact Hst|]. split; [exact Hrun|].
  exact (throttle_never_cools_when_throwing nestingFailing 100 64 0 0 evs c
           Hf Hst Hrun).
Defined.


Lemma debounce_immediate_witness :
  let func := fun n a : nat => @inr nat nat (n + a) in
  let evs := [Debounce.Call 1; Debounce.Wait 10; Debounce.Call 2; Debounce.Wait 100;
              Debounce.Fire; Debounce.Call 3] in
  let c := Debounce.mk (Some (210, 3)) 110 4 [(0, 1); (110, 3)] in
  Debounce.run func 100 true evs (Debounce.start 0 0) = Some c
  ∧ Debounce.spaced 100 (fst <$> Debounce.invocations c)
  ∧ (∀ a evs', evs = Debounce.Call a :: evs' ->
       head (Debounce.invocations c) = Some (0, a))
  ∧ (∀ c', Debounce.step func 100 true Debounce.Fire c = Some c' ->
       Debounce.invocations c' = Debounce.invocations c).
Proof.
  intros func evs c.
  assert (H1 : Debounce.run func 100 true evs (Debounce.start 0 0) = Some c)
    by reflexivity.
  split; [exact H1|].
  exact (debounce_immediate func 100 0 0 evs c H1).
Defined.

Lemma getOffsetTop_additive_witness :
  ancestorsFirst page
  ∧ is_Some (dom page !! 11)
  ∧ offsetParentOf page 11 = Some 10
  ∧ Utils.getOffsetTop page 11
    = (offsetTopOf page 11
       + match offsetParentOf page 11 with
         | Some p => Utils.getOffsetTop page p
         | None => 0
         end)%Z.
Proof.
  assert (H1 : ancestorsFirst page).
  { unfold ancestorsFirst. apply Forall_forall. intros n Hn.
    unfold positions in Hn. apply elem_of_seq in Hn.
    do 20 (destruct n as [|n]; [simpl; try exact I; lia|]).
    simpl in Hn. lia. }
  assert (H2 : is_Some (dom page !! 11)) by (eexists; reflexivity).
  split; [exact H1|]. split; [exact H2|]. split; [reflexivity|].
  exact (getOffsetTop_additive page 11 H1 H2).
Defined.

Lemma lazy_image_loads_once_witness :
  is_Some (dom pageTop !! 3)
  ∧ attrOf pageTop 3 "data-src" = Some "hero.jpg"%string
  ∧ "hero.jpg"%string ≠ ""%string
  ∧ ∃ w',
      Performance.loadEntry [3; 4] (ScrollAnimations.mkEntry 3 true) pageTop
      = Return (filter (fun x => x ≠ 3) [3; 4]) w'
      ∧ attrOf w' 3 "src" = Some "hero.jpg"%string
      ∧ hasClass w' 3 "lazy" = false
      ∧ Performance.loadEntry (filter (fun x => x ≠ 3) [3; 4])
          (ScrollAnimations.mkEntry 3 true) w'
        = Return (filter (fun x => x ≠ 3) [3; 4]) w'.
Proof.
  assert (H1 : is_Some (dom pageTop !! 3)) by (eexists; reflexivity).
  assert (H2 : attrOf pageTop 3 "data-src" = Some "hero.jpg"%string) by reflexivity.
  assert (H3 : "hero.jpg"%string ≠ ""%string) by discriminate.
  split; [exact H1|]. split; [exact H2|]. split; [exact H3|].
  exact (proj1 (lazy_image_loads_once [3; 4] pageTop 3 "hero.jpg" H1 H2) H3).
Defined.

Lemma observeElements_once_witness :
  NoDup (observed page)
  ∧ ∃ w',
      ScrollAnimations.observeElements page = Return tt w'
      ∧ dom w' = dom page
      ∧ NoDup (observed w')
      ∧ ∀ x, x ∈ observed w'
             ↔ x ∈ observed page
               ∨ matchesAt page ScrollAnimations.sectionSelector x = true
               ∨ matchesAt page ScrollAnimations.cardSelector x = true.
Proof.
  assert (H1 : NoDup (observed page)) by apply NoDup_nil_2.
  split; [exact H1|].
  exact (observeElements_once page H1).
Defined.
